(** * go-eth-abi: the reflective binder of [parser.go]

    A shallow embedding of [Parse], [parseStruct], [parseSlice] and
    [parsePointer] together with the fragment of Go's [reflect] package
    they rely on.

    Conventions of the model.
    - A Go type is a finite tree ([type]); a defined type carries the
      name of its package and its own name, which is what
      [reflect.Type.String] prints and what the binder compares against
      the strings "big.Int" and "common.Address".  The modelled kinds are
      bool, the sized integers, string, pointer, slice, array, struct and
      the empty interface.  [int], [uint] and [uintptr] are 64 bits wide.
    - Memory is a list of cells; a pointer is a cell index and a path of
      struct-field indices inside the cell, so that the address of a field
      of an addressable struct is a pointer into the same cell.
    - A slice is modelled by the list of its elements: the model has no
      capacities and no backing arrays that slices share.  In Go an
      append to a slice that has spare capacity writes into the array
      behind it, which another slice may share.  What the theorems say of
      the memory beyond the slice appended to is therefore said of
      targets whose slices are nil, where every append goes to an array
      the call allocates itself; the other theorems on slices say what
      the target holds.
    - A Go function returning [error] returns [option error] ([None] is
      [nil]); a run-time panic is an outcome of its own. *)

From Stdlib Require Import ZArith String Ascii List Lia Bool.
From stdpp Require Import base list strings pretty.

Set Warnings "-register-all".

Open Scope string_scope.
Open Scope list_scope.
Open Scope nat_scope.

(** ** Types *)

Inductive Kind :=
| Invalid | KBool
| KInt | KInt8 | KInt16 | KInt32 | KInt64
| KUint | KUint8 | KUint16 | KUint32 | KUint64 | KUintptr
| KString | KArray | KInterface | KPtr | KSlice | KStruct.

(** Predeclared non-composite types. *)
Inductive basic :=
| TBool
| TInt | TInt8 | TInt16 | TInt32 | TInt64
| TUint | TUint8 | TUint16 | TUint32 | TUint64 | TUintptr
| TString.

Inductive type :=
| Basic (b : basic)
| Named (pkg name : string) (under : type)
| PtrTo (elem : type)
| SliceOf (elem : type)
| ArrayOf (len : nat) (elem : type)
| StructOf (fields : list (string * type))
| Iface.

Definition basic_kind (b : basic) : Kind :=
  match b with
  | TBool => KBool
  | TInt => KInt | TInt8 => KInt8 | TInt16 => KInt16
  | TInt32 => KInt32 | TInt64 => KInt64
  | TUint => KUint | TUint8 => KUint8 | TUint16 => KUint16
  | TUint32 => KUint32 | TUint64 => KUint64 | TUintptr => KUintptr
  | TString => KString
  end.

Definition basic_name (b : basic) : string :=
  match b with
  | TBool => "bool"
  | TInt => "int" | TInt8 => "int8" | TInt16 => "int16"
  | TInt32 => "int32" | TInt64 => "int64"
  | TUint => "uint" | TUint8 => "uint8" | TUint16 => "uint16"
  | TUint32 => "uint32" | TUint64 => "uint64" | TUintptr => "uintptr"
  | TString => "string"
  end.

(** [reflect.Type.Kind] *)
Fixpoint type_Kind (t : type) : Kind :=
  match t with
  | Basic b => basic_kind b
  | Named _ _ u => type_Kind u
  | PtrTo _ => KPtr
  | SliceOf _ => KSlice
  | ArrayOf _ _ => KArray
  | StructOf _ => KStruct
  | Iface => KInterface
  end.

(** The underlying type: a defined type is unfolded. *)
Fixpoint underlying (t : type) : type :=
  match t with
  | Named _ _ u => underlying u
  | _ => t
  end.

(** [reflect.Type.String] *)
Fixpoint type_String (t : type) : string :=
  match t with
  | Basic b => basic_name b
  | Named pkg name _ => pkg +:+ "." +:+ name
  | PtrTo e => "*" +:+ type_String e
  | SliceOf e => "[]" +:+ type_String e
  | ArrayOf n e => "[" +:+ pretty n +:+ "]" +:+ type_String e
  | StructOf fs =>
      match fs with
      | [] => "struct {}"
      | _ =>
          "struct { " +:+
          (fix go (fs : list (string * type)) : string :=
             match fs with
             | [] => ""
             | [(n, ft)] => n +:+ " " +:+ type_String ft
             | (n, ft) :: fs' => n +:+ " " +:+ type_String ft +:+ "; " +:+ go fs'
             end) fs +:+ " }"
      end
  | Iface => "interface {}"
  end.

(** [reflect.Type.Name]: empty for a type that is not defined. *)
Definition type_Name (t : type) : string :=
  match t with
  | Basic b => basic_name b
  | Named _ name _ => name
  | _ => ""
  end.

(** [reflect.Type.Elem] of a pointer, slice or array type; it panics on
    the other kinds, which the binder never asks it for. *)
Definition type_Elem (t : type) : option type :=
  match underlying t with
  | PtrTo e | SliceOf e | ArrayOf _ e => Some e
  | _ => None
  end.

Definition struct_fields (t : type) : list (string * type) :=
  match underlying t with
  | StructOf fs => fs
  | _ => []
  end.

(** Type identity, as a boolean. *)
Fixpoint type_eqb (a b : type) {struct a} : bool :=
  match a, b with
  | Basic x, Basic y =>
      match x, y with
      | TBool, TBool | TInt, TInt | TInt8, TInt8 | TInt16, TInt16
      | TInt32, TInt32 | TInt64, TInt64 | TUint, TUint | TUint8, TUint8
      | TUint16, TUint16 | TUint32, TUint32 | TUint64, TUint64
      | TUintptr, TUintptr | TString, TString => true
      | _, _ => false
      end
  | Named p n u, Named p' n' u' =>
      String.eqb p p' && String.eqb n n' && type_eqb u u'
  | PtrTo e, PtrTo e' => type_eqb e e'
  | SliceOf e, SliceOf e' => type_eqb e e'
  | ArrayOf n e, ArrayOf n' e' => Nat.eqb n n' && type_eqb e e'
  | StructOf fs, StructOf gs =>
      (fix go (fs gs : list (string * type)) : bool :=
         match fs, gs with
         | [], [] => true
         | (n, t) :: fs', (m, u) :: gs' =>
             String.eqb n m && type_eqb t u && go fs' gs'
         | _, _ => false
         end) fs gs
  | Iface, Iface => true
  | _, _ => false
  end.

(** The two special leaf types of the binder, as the libraries declare
    them: [math/big.Int] is a struct of two unexported fields and
    [common.Address] an array of twenty bytes. *)
Definition big_Word : type := Named "big" "Word" (Basic TUint).
Definition big_nat : type := Named "big" "nat" (SliceOf big_Word).
Definition big_Int : type :=
  Named "big" "Int" (StructOf [("neg", Basic TBool); ("abs", big_nat)]).
Definition AddressLength : nat := 20.
Definition common_Address : type :=
  Named "common" "Address" (ArrayOf AddressLength (Basic TUint8)).
Definition any_slice : type := SliceOf Iface.
Definition bytes_type : type := SliceOf (Basic TUint8).


#[global] Instance Kind_eq_dec : EqDecision Kind.
Proof. solve_decision. Defined.

(** ** Values and memory *)

Record ptr := Ptr { ploc : nat; ppath : list nat }.

(** A value of interface type holds [None] (nil) or a dynamic type with a
    value of that type. *)
Inductive val :=
| VBool (b : bool)
| VInt (z : Z)
| VString (s : string)
| VPtr (p : option ptr)
| VSlice (l : list val)
| VArray (l : list val)
| VStruct (l : list val)
| VIface (d : option (type * val)).

(** Go's [any]: the type of a decoded node. *)
Definition any : Type := option (type * val).

Definition val_any (v : val) : any :=
  match v with
  | VIface d => d
  | _ => None
  end.

(** The zero value of a type. *)
Fixpoint zero (t : type) : val :=
  match t with
  | Basic TBool => VBool false
  | Basic TString => VString ""
  | Basic _ => VInt 0
  | Named _ _ u => zero u
  | PtrTo _ => VPtr None
  | SliceOf _ => VSlice []
  | ArrayOf n e => VArray (repeat (zero e) n)
  | StructOf fs => VStruct (map (fun f => zero (snd f)) fs)
  | Iface => VIface None
  end.

Abbreviation heap := (list val).

Fixpoint get_path (v : val) (path : list nat) : option val :=
  match path with
  | [] => Some v
  | i :: path' =>
      match v with
      | VStruct fs => f ← fs !! i; get_path f path'
      | _ => None
      end
  end.

Fixpoint set_path (v : val) (path : list nat) (x : val) : option val :=
  match path with
  | [] => Some x
  | i :: path' =>
      match v with
      | VStruct fs =>
          f ← fs !! i; f' ← set_path f path' x; Some (VStruct (<[i:=f']> fs))
      | _ => None
      end
  end.

Definition load (h : heap) (p : ptr) : option val :=
  c ← h !! ploc p; get_path c (ppath p).

Definition store (h : heap) (p : ptr) (x : val) : option heap :=
  c ← h !! ploc p; c' ← set_path c (ppath p) x; Some (<[ploc p:=c']> h).

(** ** Outcomes and the binder's monad *)

Inductive panic :=
| IndexOutOfRange (i len : nat)
| InterfaceConversion (have : option type) (want : type)
| NilDereference
| ZeroValue (method : string)
| WrongKind (method : string) (k : Kind)
| Unexported (method : string)
| Unaddressable (method : string)
| NotAssignable (V T : type)
| NotConvertible (V T : type).

(** [Fault] is a read or write through a pointer that designates no
    storage; Go's memory safety excludes it, the model has to name it. *)
Inductive outcome (A : Type) :=
| Ret (a : A)
| Panics (p : panic)
| OutOfFuel
| Fault.
Arguments Ret {A} a.
Arguments Panics {A} p.
Arguments OutOfFuel {A}.
Arguments Fault {A}.

Definition M (A : Type) : Type := heap → heap * outcome A.

Definition ret {A} (a : A) : M A := fun h => (h, Ret a).
Definition throw {A} (p : panic) : M A := fun h => (h, Panics p).
Definition fault {A} : M A := fun h => (h, Fault).
Definition out_of_fuel {A} : M A := fun h => (h, OutOfFuel).
Definition bind {A B} (m : M A) (k : A → M B) : M B :=
  fun h =>
    match m h with
    | (h', Ret a) => k a h'
    | (h', Panics p) => (h', Panics p)
    | (h', OutOfFuel) => (h', OutOfFuel)
    | (h', Fault) => (h', Fault)
    end.

Notation "'let*' x := m 'in' k" := (bind m (fun x => k))
  (at level 10, x name, m at level 100, k at level 200,
   format "'[v' 'let*'  x  :=  m  'in' '/' k ']'").
Notation "m ;;; k" := (bind m (fun _ => k))
  (at level 100, k at level 200, right associativity).

Definition from_option {A} (o : option A) (p : panic) : M A :=
  match o with
  | Some a => ret a
  | None => throw p
  end.

(** ** Errors *)

(** [Errorf msg] is an error made by [fmt.Errorf] without [%w];
    [Wrapf prefix err] one made with a format that ends in [%w]. *)
Inductive error :=
| Errorf (msg : string)
| Wrapf (prefix : string) (err : error).



(** ** The fragment of [reflect] the binder uses *)

(** A [reflect.Value]: the zero Value, a value held by the Value itself
    (not addressable), or a variable in memory (addressable).  [ro] is
    the read-only flag of a Value reached through an unexported field. *)
Inductive Value :=
| Zero
| Direct (t : type) (v : val) (ro : bool)
| Lval (t : type) (p : ptr) (ro : bool).

(** [reflect.ValueOf] *)
Definition ValueOf (x : any) : Value :=
  match x with
  | None => Zero
  | Some (t, v) => Direct t v false
  end.

(** [reflect.TypeOf]: the nil Type for a nil interface. *)
Definition TypeOf (x : any) : option type := fst <$> x.

(** [Type.String] called on the result of [reflect.TypeOf]. *)
Definition rtype_String (t : option type) : M string :=
  match t with
  | Some t => ret (type_String t)
  | None => throw NilDereference
  end.

Definition Value_Kind (v : Value) : Kind :=
  match v with
  | Zero => Invalid
  | Direct t _ _ | Lval t _ _ => type_Kind t
  end.

Definition Value_Type (v : Value) : M type :=
  match v with
  | Zero => throw (ZeroValue "Type")
  | Direct t _ _ | Lval t _ _ => ret t
  end.

Definition Type_Elem (t : type) : M type :=
  from_option (type_Elem t) (WrongKind "Elem" (type_Kind t)).

(** The value a Value currently holds. *)
Definition Value_get (method : string) (v : Value) : M val :=
  match v with
  | Zero => throw (ZeroValue method)
  | Direct _ x _ => ret x
  | Lval _ p _ =>
      fun h => match load h p with
               | Some x => (h, Ret x)
               | None => (h, Fault)
               end
  end.

(** [Value.IsNil], for the pointer and interface kinds (the nil slice is
    not told from the empty one in this model, and the binder never
    asks). *)
Definition Value_IsNil (v : Value) : M bool :=
  let* x := Value_get "IsNil" v in
  match Value_Kind v, x with
  | KPtr, VPtr p => ret (bool_decide (p = None))
  | KInterface, VIface d => ret (bool_decide (d = None))
  | KPtr, _ | KInterface, _ => fault
  | k, _ => throw (WrongKind "IsNil" k)
  end.

Definition Value_ro (v : Value) : bool :=
  match v with
  | Zero => false
  | Direct _ _ ro | Lval _ _ ro => ro
  end.

(** [Value.Elem] *)
Definition Value_Elem (v : Value) : M Value :=
  let* x := Value_get "Elem" v in
  let* t := Value_Type v in
  match Value_Kind v, x with
  | KPtr, VPtr None => ret Zero
  | KPtr, VPtr (Some p) =>
      let* e := Type_Elem t in ret (Lval e p (Value_ro v))
  | KInterface, VIface None => ret Zero
  | KInterface, VIface (Some (dt, dv)) => ret (Direct dt dv (Value_ro v))
  | KPtr, _ | KInterface, _ => fault
  | k, _ => throw (WrongKind "Elem" k)
  end.

(** [Value.NumField] *)
Definition Value_NumField (v : Value) : M nat :=
  match v with
  | Zero => throw (ZeroValue "NumField")
  | Direct t _ _ | Lval t _ _ =>
      if decide (type_Kind t = KStruct) then ret (length (struct_fields t))
      else throw (WrongKind "NumField" (type_Kind t))
  end.

(** A field is exported when its name starts with an upper-case letter.
    The letters A to Z are the upper-case letters here; Go takes those of
    Unicode, so that a name starting with another upper-case letter is
    exported in Go and is not here.  Theorems on exported fields ask for
    [exported name = true], which is true of Go as well; theorems on
    fields that are not exported ask for a first byte that is ASCII. *)
Definition is_upper (c : ascii) : bool :=
  (65 <=? nat_of_ascii c)%nat && (nat_of_ascii c <=? 90)%nat.

Definition exported (name : string) : bool :=
  match name with
  | String c _ => is_upper c
  | EmptyString => false
  end.

(** [Value.Field] *)
Definition Value_Field (v : Value) (i : nat) : M Value :=
  match v with
  | Zero => throw (ZeroValue "Field")
  | Direct t x ro =>
      if decide (type_Kind t = KStruct) then
        match struct_fields t !! i, x with
        | None, _ => throw (IndexOutOfRange i (length (struct_fields t)))
        | Some (n, ft), VStruct xs =>
            match xs !! i with
            | Some fx => ret (Direct ft fx (ro || negb (exported n)))
            | None => fault
            end
        | Some _, _ => fault
        end
      else throw (WrongKind "Field" (type_Kind t))
  | Lval t p ro =>
      if decide (type_Kind t = KStruct) then
        match struct_fields t !! i with
        | None => throw (IndexOutOfRange i (length (struct_fields t)))
        | Some (n, ft) =>
            ret (Lval ft (Ptr (ploc p) (ppath p ++ [i])) (ro || negb (exported n)))
        end
      else throw (WrongKind "Field" (type_Kind t))
  end.

(** Assignability, as [reflect] decides it ([directlyAssignable] and
    [implements]).  The one interface type of the model is the empty
    interface, which every type implements; an interface type that has
    methods is not modelled. *)
Definition hasName (t : type) : bool :=
  match t with
  | Basic _ | Named _ _ _ => true
  | _ => false
  end.

Definition directlyAssignable (T V : type) : bool :=
  type_eqb T V
  || (negb (hasName T && hasName V) && type_eqb (underlying T) (underlying V)).

Definition implements (T V : type) : bool :=
  bool_decide (type_Kind T = KInterface).

(** [Value.assignTo]: the value as it is stored in a variable of type
    [dst]. *)
Definition assignTo (x : Value) (dst : type) : M val :=
  let* xv := Value_get "Set" x in
  let* V := Value_Type x in
  if directlyAssignable dst V then ret xv
  else if implements dst V then
    match Value_Kind x with
    | KInterface => ret xv
    | _ => ret (VIface (Some (V, xv)))
    end
  else throw (NotAssignable V dst).

(** [Value.Set] *)
Definition Value_Set (v x : Value) : M unit :=
  match v with
  | Zero => throw (ZeroValue "Set")
  | Direct _ _ ro =>
      if ro then throw (Unexported "Set") else throw (Unaddressable "Set")
  | Lval t p ro =>
      if ro then throw (Unexported "Set")
      else
        match x with
        | Zero => throw (ZeroValue "Set")
        | _ =>
            if Value_ro x then throw (Unexported "Set")
            else
              let* xv := assignTo x t in
              fun h => match store h p xv with
                       | Some h' => (h', Ret tt)
                       | None => (h, Fault)
                       end
        end
  end.

(** A new variable holding [v]; the result is its address. *)
Definition alloc (v : val) : M ptr :=
  fun h => (h ++ [v], Ret (Ptr (length h) [])).

(** [reflect.New]: a pointer to a new zero value. *)
Definition reflect_New (t : type) : M Value :=
  let* p := alloc (zero t) in
  ret (Direct (PtrTo t) (VPtr (Some p)) false).

(** [Value.Interface] *)
Definition Value_Interface (v : Value) : M any :=
  match v with
  | Zero => throw (ZeroValue "Interface")
  | _ =>
      if Value_ro v then throw (Unexported "Interface")
      else
        let* x := Value_get "Interface" v in
        let* t := Value_Type v in
        match Value_Kind v with
        | KInterface => ret (val_any x)
        | _ => ret (Some (t, x))
        end
  end.

(** [Value.Addr] *)
Definition Value_Addr (v : Value) : M Value :=
  match v with
  | Lval t p ro => ret (Direct (PtrTo t) (VPtr (Some p)) ro)
  | _ => throw (Unaddressable "Addr")
  end.

(** [reflect.Append] with one element.  The result holds the elements of
    [s] followed by the new one; whether Go writes the new element into
    the array behind [s] or into a new array is not modelled. *)
Definition reflect_Append (s x : Value) : M Value :=
  match s with
  | Zero => throw (ZeroValue "Append")
  | _ =>
      if decide (Value_Kind s = KSlice) then
        if Value_ro s then throw (Unexported "Append")
        else
          let* sv := Value_get "Append" s in
          let* t := Value_Type s in
          let* e := Type_Elem t in
          match x with
          | Zero => throw (ZeroValue "Set")
          | _ =>
              if Value_ro x then throw (Unexported "Set")
              else
                let* xv := assignTo x e in
                match sv with
                | VSlice l => ret (Direct t (VSlice (l ++ [xv])) false)
                | _ => fault
                end
          end
      else throw (WrongKind "Append" (Value_Kind s))
  end.

(** *** Conversion ([Value.CanConvert], [Value.Convert])

    The binder converts only into a field that is not a pointer, a
    struct, a slice or an array, so the conversions into those kinds
    (string to byte or rune slice, slice to array or array pointer) are
    left out of [convertOp]. *)

Definition int_kind (k : Kind) : option (bool * Z) :=
  match k with
  | KInt | KInt64 => Some (true, 64%Z)
  | KInt8 => Some (true, 8%Z)
  | KInt16 => Some (true, 16%Z)
  | KInt32 => Some (true, 32%Z)
  | KUint | KUint64 | KUintptr => Some (false, 64%Z)
  | KUint8 => Some (false, 8%Z)
  | KUint16 => Some (false, 16%Z)
  | KUint32 => Some (false, 32%Z)
  | _ => None
  end.

(** The integer a bit pattern of width [w] stands for. *)
Definition wrap (signed : bool) (w : Z) (z : Z) : Z :=
  if signed then ((z + 2 ^ (w - 1)) mod 2 ^ w - 2 ^ (w - 1))%Z
  else (z mod 2 ^ w)%Z.

Definition byte_of_Z (z : Z) : ascii := ascii_of_N (Z.to_N (z mod 256)).
Definition Z_of_byte (c : ascii) : Z := Z.of_N (N_of_ascii c).

(** [string(rune(r))]: the UTF-8 encoding of a code point, and U+FFFD for
    what is none. *)
Definition utf8_rune (r : Z) : string :=
  let cont (x : Z) := byte_of_Z (Z.lor 128 (Z.land x 63)) in
  if ((r <? 0) || (1114111 <? r) || ((55296 <=? r) && (r <=? 57343)))%Z then
    String (byte_of_Z 239) (String (byte_of_Z 191) (String (byte_of_Z 189) ""))
  else if (r <? 128)%Z then String (byte_of_Z r) ""
  else if (r <? 2048)%Z then
    String (byte_of_Z (Z.lor 192 (Z.shiftr r 6))) (String (cont r) "")
  else if (r <? 65536)%Z then
    String (byte_of_Z (Z.lor 224 (Z.shiftr r 12)))
      (String (cont (Z.shiftr r 6)) (String (cont r) ""))
  else
    String (byte_of_Z (Z.lor 240 (Z.shiftr r 18)))
      (String (cont (Z.shiftr r 12))
         (String (cont (Z.shiftr r 6)) (String (cont r) ""))).

Definition val_Z (v : val) : Z :=
  match v with
  | VInt z => z
  | _ => 0%Z
  end.

Inductive cvt :=
| CvtInt | CvtIntString | CvtBytesString | CvtRunesString
| CvtDirect | CvtT2I | CvtI2I.

Definition convertOp (dst src : type) : option cvt :=
  let general :=
    if type_eqb (underlying dst) (underlying src) then Some CvtDirect
    else if implements dst src then
      Some (if decide (type_Kind src = KInterface) then CvtI2I else CvtT2I)
    else None in
  match int_kind (type_Kind src), type_Kind src with
  | Some _, _ =>
      match int_kind (type_Kind dst), type_Kind dst with
      | Some _, _ => Some CvtInt
      | None, KString => Some CvtIntString
      | None, _ => general
      end
  | None, KSlice =>
      match type_Kind dst, type_Elem src with
      | KString, Some (Basic TUint8) => Some CvtBytesString
      | KString, Some (Basic TInt32) => Some CvtRunesString
      | _, _ => general
      end
  | None, _ => general
  end.

(** [Value.CanConvert]; it asks for the Value's type first. *)
Definition Value_CanConvert (v : Value) (t : type) : M bool :=
  let* vt := Value_Type v in
  ret (bool_decide (is_Some (convertOp t vt))).

Definition convert_val (op : cvt) (src dst : type) (x : val) : val :=
  match op with
  | CvtInt =>
      match int_kind (type_Kind dst) with
      | Some (signed, w) => VInt (wrap signed w (val_Z x))
      | None => x
      end
  | CvtIntString => VString (utf8_rune (val_Z x))
  | CvtBytesString =>
      match x with
      | VSlice l => VString (string_of_list_ascii (map (fun b => byte_of_Z (val_Z b)) l))
      | _ => x
      end
  | CvtRunesString =>
      match x with
      | VSlice l => VString (foldr (fun r acc => utf8_rune (val_Z r) +:+ acc) "" l)
      | _ => x
      end
  | CvtDirect | CvtI2I => x
  | CvtT2I => VIface (Some (src, x))
  end.

(** [Value.Convert] *)
Definition Value_Convert (v : Value) (t : type) : M Value :=
  let* x := Value_get "Convert" v in
  let* vt := Value_Type v in
  match convertOp t vt with
  | Some op => ret (Direct t (convert_val op vt t x) (Value_ro v))
  | None => throw (NotConvertible vt t)
  end.

(** ** Library functions the binder calls *)

(** [strings.TrimPrefix] *)
Definition TrimPrefix (s prefix : string) : string :=
  if String.prefix prefix s
  then String.substring (String.length prefix) (String.length s - String.length prefix) s
  else s.

(** [common.HexToAddress] of go-ethereum, which is
    [BytesToAddress(FromHex(s))]: an optional "0x" or "0X" is dropped, an
    odd number of digits gets a leading "0", the pairs of hexadecimal
    digits before the first character that is none are decoded, and the
    last twenty of these bytes are right-aligned in the address. *)
Definition hex_digit (c : ascii) : option Z :=
  let n := Z_of_byte c in
  if ((48 <=? n) && (n <=? 57))%Z then Some (n - 48)%Z
  else if ((97 <=? n) && (n <=? 102))%Z then Some (n - 87)%Z
  else if ((65 <=? n) && (n <=? 70))%Z then Some (n - 55)%Z
  else None.

Fixpoint Hex2Bytes (s : list ascii) : list Z :=
  match s with
  | p :: q :: s' =>
      match hex_digit p, hex_digit q with
      | Some a, Some b => (a * 16 + b)%Z :: Hex2Bytes s'
      | _, _ => []
      end
  | _ => []
  end.

Definition has0xPrefix (s : list ascii) : bool :=
  match s with
  | z :: x :: _ =>
      bool_decide (z = "0"%char) && (bool_decide (x = "x"%char) || bool_decide (x = "X"%char))
  | _ => false
  end.

Definition FromHex (s : string) : list Z :=
  let s := list_ascii_of_string s in
  let s := if has0xPrefix s then drop 2 s else s in
  let s := if Nat.odd (length s) then "0"%char :: s else s in
  Hex2Bytes s.

Definition BytesToAddress (b : list Z) : val :=
  let b := if (AddressLength <? length b)%nat then drop (length b - AddressLength) b else b in
  VArray (map VInt (repeat 0%Z (AddressLength - length b) ++ b)).

Definition HexToAddress (s : string) : val := BytesToAddress (FromHex s).

(** ** Go expressions *)

(** [l[i]] *)
Definition index {A} (l : list A) (i : nat) : M A :=
  from_option (l !! i) (IndexOutOfRange i (length l)).

(** The type assertion [x.(T)] for a type [T] that is not an interface,
    in its one-result form, which panics, and in its comma-ok form. *)
Definition assert_ok (x : any) (T : type) : option val :=
  match x with
  | Some (t, v) => if type_eqb t T then Some v else None
  | None => None
  end.

Definition assert_type (x : any) (T : type) : M val :=
  from_option (assert_ok x T) (InterfaceConversion (TypeOf x) T).

(** [x.([]any)] *)
Definition assert_anys (x : any) : M (list any) :=
  let* v := assert_type x any_slice in
  match v with
  | VSlice l => ret (map val_any l)
  | _ => fault
  end.

(** [x.(string)] *)
Definition assert_string (x : any) : M string :=
  let* v := assert_type x (Basic TString) in
  match v with
  | VString s => ret s
  | _ => fault
  end.

(** The verb [%T] of [fmt]. *)
Definition fmt_T (x : any) : string :=
  match x with
  | Some (t, _) => type_String t
  | None => "<nil>"
  end.

(** A decoded node list as the [any] it is when stored. *)
Definition anys_val (l : list any) : val := VSlice (map VIface l).

(** A loop whose body may return an error from the enclosing function. *)
Fixpoint for_each {A} (body : A → M (option error)) (l : list A) : M (option error) :=
  match l with
  | [] => ret None
  | x :: l' =>
      let* e := body x in
      match e with
      | Some err => ret (Some err)
      | None => for_each body l'
      end
  end.

(** [if err != nil { return fmt.Errorf(prefix + "%w", err) }] *)
Definition wrap_err (prefix : string) (err : option error) : option error :=
  Wrapf prefix <$> err.

(** ** The binder *)

(** The test shared by [parseStruct] and [parseSlice]:
    [t.Kind() == reflect.Ptr && t.Elem().String() != "big.Int" &&
     t.Elem().String() != "common.Address"]. *)
Definition is_plain_pointer (t : type) : M bool :=
  if decide (type_Kind t = KPtr) then
    let* e := Type_Elem t in
    ret (negb (String.eqb (type_String e) "big.Int")
         && negb (String.eqb (type_String e) "common.Address"))
  else ret false.

(** [v.Kind() != reflect.Ptr || v.IsNil()] *)
Definition not_pointer_or_nil (rv : Value) : M bool :=
  if decide (Value_Kind rv = KPtr) then Value_IsNil rv else ret true.

Section Bodies.

(** The three functions call one another; their bodies are written
    over the functions they call. *)
Variable pStruct : list any → any → M (option error).
Variable pSlice : list any → any → M (option error).
Variable pPointer : list any → Value → M (option error).

(** The body of the loop of [parseStruct] for the field [field] and the
    node [di] that is [decoded[i]]: the dispatch on the field's
    declared type (lines 35 to 104). *)
Definition bindField (field : Value) (di : any) : M (option error) :=
  let vType := TypeOf di in
  let* ft := Value_Type field in
  let* plain := is_plain_pointer ft in
  if plain then
    let* e := Type_Elem ft in
    let* err :=
      if decide (type_Kind e = KStruct) then
        let* isnil := Value_IsNil field in
        (if isnil then let* np := reflect_New e in Value_Set field np else ret tt) ;;;
        let* l := assert_anys di in
        let* fi := Value_Interface field in
        pStruct l fi
      else pPointer [di] field in
    ret (wrap_err ("[parseStruct] error parsing pointer field " +:+ type_Name ft +:+ ": ") err)
  else if decide (Value_Kind field = KStruct) then
    let* l := assert_anys di in
    let* a := Value_Addr field in
    let* ai := Value_Interface a in
    let* err := pStruct l ai in
    ret (wrap_err ("[parseStruct] error parsing struct field " +:+ type_Name ft +:+ ": ") err)
  else if bool_decide (Value_Kind field = KSlice) || bool_decide (Value_Kind field = KArray) then
    let* vs := rtype_String vType in
    if String.eqb vs "[]uint8" || String.eqb vs "[]byte" then
      let* b := assert_type di bytes_type in
      Value_Set field (Direct bytes_type b false) ;;; ret None
    else if String.eqb vs "string" then
      let fieldName := type_String ft in
      if String.eqb (TrimPrefix fieldName "*") "common.Address" then
        let* str := assert_string di in
        Value_Set field (Direct common_Address (HexToAddress str) false) ;;; ret None
      else
        Value_Set field (ValueOf di) ;;; ret None
    else
      let* l := assert_anys di in
      let* a := Value_Addr field in
      let* ai := Value_Interface a in
      let* err := pSlice l ai in
      ret (wrap_err ("[parseStruct] error parsing slice field " +:+ type_Name ft +:+ ": ") err)
  else
    let fieldName := type_String ft in
    if decide (Value_Kind field = KPtr) then
      let* e := Type_Elem ft in
      if String.eqb (type_String e) "big.Int" then
        match assert_ok di (PtrTo big_Int) with
        | Some bi => Value_Set field (Direct (PtrTo big_Int) bi false) ;;; ret None
        | None => ret (Some (Errorf ("[parseStruct] expected *big.Int, got " +:+ fmt_T di)))
        end
      else if String.eqb (type_String e) "common.Address" then
        let* str := assert_string di in
        let* addr := alloc (HexToAddress str) in
        Value_Set field (Direct (PtrTo common_Address) (VPtr (Some addr)) false) ;;; ret None
      else
        ret (Some (Errorf ("[parseStruct] unsupported pointer type: " +:+ type_String ft)))
    else if String.eqb (TrimPrefix fieldName "*") "common.Address" then
      let* str := assert_string di in
      Value_Set field (Direct common_Address (HexToAddress str) false) ;;; ret None
    else
      let val := ValueOf di in
      let* vt := Value_Type val in
      if type_eqb vt ft then Value_Set field val ;;; ret None
      else
        let* can := Value_CanConvert val ft in
        if can then
          let* val := Value_Convert val ft in
          Value_Set field val ;;; ret None
        else
          ret (Some (Errorf ("[parseStruct] cannot convert " +:+ fmt_T di +:+ " to " +:+ type_String ft))).

(** One turn of the loop of [parseStruct]: [field := rve.Field(i)],
    [decoded[i]], then the dispatch. *)
Definition structField (decoded : list any) (rve : Value) (i : nat) : M (option error) :=
  let* field := Value_Field rve i in
  let* di := index decoded i in
  bindField field di.

Definition parseStruct_body (decoded : list any) (structVal : any) : M (option error) :=
  let rv := ValueOf structVal in
  let* bad := not_pointer_or_nil rv in
  if bad then ret (Some (Errorf "[parseStruct] v must be a pointer"))
  else
    let* rve := Value_Elem rv in
    if decide (Value_Kind rve = KStruct) then
      let* n := Value_NumField rve in
      let* rt := Value_Type rve in
      if negb (length decoded =? n)%nat
         && negb (String.eqb (type_String rt) "big.Int")
         && negb (String.eqb (type_String rt) "common.Address")
      then ret (Some (Errorf "[parseStruct] number of decoded values does not match number of struct fields"))
      else for_each (structField decoded rve) (seq 0 n)
    else ret (Some (Errorf "[parseStruct] v must be a struct pointer")).

(** The body of the loop of [parseSlice], for the node [di]. *)
Definition sliceElem (rve : Value) (rt arrElem : type) (di : any) : M (option error) :=
  let* plain := is_plain_pointer arrElem in
  if plain then
    let* e := Type_Elem arrElem in
    let* newPtr := reflect_New e in
    let* l := assert_anys di in
    let* err := pPointer l newPtr in
    match err with
    | Some err =>
        ret (Some (Wrapf ("[parseSlice] error parsing pointer field " +:+ type_Name rt +:+ ": ") err))
    | None =>
        let* s := reflect_Append rve newPtr in
        Value_Set rve s ;;; ret None
    end
  else if decide (type_Kind arrElem = KStruct) then
    let* newStruct := reflect_New arrElem in
    let* l := assert_anys di in
    let* ni := Value_Interface newStruct in
    let* err := pStruct l ni in
    match err with
    | Some err =>
        ret (Some (Wrapf ("[parseSlice] error parsing struct field " +:+ type_Name rt +:+ ": ") err))
    | None =>
        let* ne := Value_Elem newStruct in
        let* s := reflect_Append rve ne in
        Value_Set rve s ;;; ret None
    end
  else if bool_decide (type_Kind arrElem = KSlice) || bool_decide (type_Kind arrElem = KArray) then
    let* l := assert_anys di in
    let* a := Value_Addr rve in
    let* ai := Value_Interface a in
    let* err := pSlice l ai in
    ret (wrap_err ("[parseSlice] error parsing slice field " +:+ type_Name rt +:+ ": ") err)
  else
    let newElem := ValueOf di in
    let* s := reflect_Append rve newElem in
    Value_Set rve s ;;; ret None.

Definition parseSlice_body (decoded : list any) (sliceVal : any) : M (option error) :=
  let rv := ValueOf sliceVal in
  let* bad := not_pointer_or_nil rv in
  if bad then ret (Some (Errorf "[parseSlice] v must be a pointer"))
  else
    let* rve := Value_Elem rv in
    if decide (Value_Kind rve = KSlice) then
      let* rt := Value_Type rve in
      let* arrElem := Type_Elem rt in
      for_each (sliceElem rve rt arrElem) decoded
    else ret (Some (Errorf "[parseSlice] v must be a slice pointer")).

Definition parsePointer_body (decoded : list any) (pointerVal : Value) : M (option error) :=
  if decide (Value_Kind pointerVal = KPtr) then
    let* pt := Value_Type pointerVal in
    let* elemType := Type_Elem pt in
    let* isnil := Value_IsNil pointerVal in
    (if isnil then let* np := reflect_New elemType in Value_Set pointerVal np else ret tt) ;;;
    match type_Kind elemType with
    | KStruct =>
        let* pi := Value_Interface pointerVal in
        let* err := pStruct decoded pi in
        ret (wrap_err ("[parsePointer] error parsing struct field " +:+ type_Name elemType +:+ ": ") err)
    | KSlice | KArray =>
        let* a := Value_Addr pointerVal in
        let* ai := Value_Interface a in
        let* err := pSlice decoded ai in
        ret (wrap_err ("[parsePointer] error parsing slice field " +:+ type_Name elemType +:+ ": ") err)
    | _ =>
        let* e := Value_Elem pointerVal in
        Value_Set e (Direct any_slice (anys_val decoded) false) ;;; ret None
    end
  else ret (Some (Errorf "[parsePointer] v must be a pointer")).

End Bodies.

(** The recursion is tied on a fuel argument, spent one unit per call. *)
Fixpoint parseStruct (fuel : nat) (decoded : list any) (structVal : any) : M (option error) :=
  match fuel with
  | 0 => out_of_fuel
  | S n => parseStruct_body (parseStruct n) (parseSlice n) (parsePointer n) decoded structVal
  end
with parseSlice (fuel : nat) (decoded : list any) (sliceVal : any) : M (option error) :=
  match fuel with
  | 0 => out_of_fuel
  | S n => parseSlice_body (parseStruct n) (parseSlice n) (parsePointer n) decoded sliceVal
  end
with parsePointer (fuel : nat) (decoded : list any) (pointerVal : Value) : M (option error) :=
  match fuel with
  | 0 => out_of_fuel
  | S n => parsePointer_body (parseStruct n) (parseSlice n) decoded pointerVal
  end.

Definition Parse (fuel : nat) (decoded : list any) (v : any) : M (option error) :=
  parseStruct fuel decoded v.


(** ** Nodes and targets used in the examples *)

Definition u64 (z : Z) : any := Some (Basic TUint64, VInt z).
Definition i64 (z : Z) : any := Some (Basic TInt64, VInt z).
Definition int_ (z : Z) : any := Some (Basic TInt, VInt z).
Definition str (s : string) : any := Some (Basic TString, VString s).
Definition lst (l : list any) : any := Some (any_slice, anys_val l).

(** A pointer to the variable [p] of type [t], as an [any]. *)
Definition ref (t : type) (p : ptr) : any := Some (PtrTo t, VPtr (Some p)).

(** The error messages behind the error kinds of the specification. *)
Definition ShapeMismatch : error :=
  Errorf "[parseStruct] number of decoded values does not match number of struct fields".
Definition TypeMismatch (di : any) : error :=
  Errorf ("[parseStruct] expected *big.Int, got " +:+ fmt_T di).
Definition ConversionFailure (di : any) (ft : type) : error :=
  Errorf ("[parseStruct] cannot convert " +:+ fmt_T di +:+ " to " +:+ type_String ft).

(** The special leaf kinds, told by the printed name of the type as the
    binder does. *)
Definition special_leaf (t : type) : Prop :=
  type_String t = "big.Int" ∨ type_String t = "common.Address".

(** ** Type identity *)

Section type_induction.
Variable P : type → Prop.
Hypothesis HBasic : ∀ b, P (Basic b).
Hypothesis HNamed : ∀ p n u, P u → P (Named p n u).
Hypothesis HPtr : ∀ e, P e → P (PtrTo e).
Hypothesis HSlice : ∀ e, P e → P (SliceOf e).
Hypothesis HArray : ∀ n e, P e → P (ArrayOf n e).
Hypothesis HStruct : ∀ fs, Forall (fun f => P (snd f)) fs → P (StructOf fs).
Hypothesis HIface : P Iface.

Fixpoint type_rect_nested (t : type) : P t :=
  match t with
  | Basic b => HBasic b
  | Named p n u => HNamed p n u (type_rect_nested u)
  | PtrTo e => HPtr e (type_rect_nested e)
  | SliceOf e => HSlice e (type_rect_nested e)
  | ArrayOf n e => HArray n e (type_rect_nested e)
  | StructOf fs =>
      HStruct fs
        ((fix go (fs : list (string * type)) : Forall (fun f => P (snd f)) fs :=
            match fs with
            | [] => List.Forall_nil _
            | f :: fs' => List.Forall_cons _ f fs' (type_rect_nested (snd f)) (go fs')
            end) fs)
  | Iface => HIface
  end.
End type_induction.


(** ** Example targets *)

(** [{ id: BinaryIdentifier, count: Scalar, values: Sequence<Scalar> }] *)
Definition Record_t : type :=
  Named "main" "Record"
    (StructOf [("Id", common_Address); ("Count", Basic TUint64);
               ("Values", SliceOf (Basic TUint64))]).

Definition record_nodes : list any :=
  [str "0xAbC0000000000000000000000000000000000001"; u64 42;
   lst [u64 1; u64 2; u64 3]].

(** The address of the field of index [i] of the struct at [p]. *)
Definition field_ptr (p : ptr) (i : nat) : ptr := Ptr (ploc p) (ppath p ++ [i]).

(** A scalar field: one that the dispatch of [parseStruct] sends to its
    last branch. *)
Definition scalar_type (t : type) : Prop :=
  type_Kind t ≠ KPtr ∧ type_Kind t ≠ KStruct ∧ type_Kind t ≠ KSlice
  ∧ type_Kind t ≠ KArray
  ∧ TrimPrefix (type_String t) "*" ≠ "common.Address".

(** A type whose kind is bool, an integer kind or string. *)
Definition basic_kinded (t : type) : Prop :=
  scalar_type t ∧ type_Kind t ≠ KInterface ∧ type_Kind t ≠ Invalid.

(** The integer [z] is a value of the integer type [t]. *)
Definition fits (t : type) (z : Z) : Prop :=
  match int_kind (type_Kind t) with
  | Some (true, w) => (- 2 ^ (w - 1) ≤ z < 2 ^ (w - 1))%Z
  | Some (false, w) => (0 ≤ z < 2 ^ w)%Z
  | None => False
  end.

(** [{ level: uint8 }] *)
Definition Small_t : type := Named "main" "Small" (StructOf [("Level", Basic TUint8)]).

(** [{ amount: *big.Int }], and a memory that holds one and a [big.Int]. *)
Definition Wallet_t : type := Named "main" "Wallet" (StructOf [("Amount", PtrTo big_Int)]).
Definition wallet_heap : heap := [zero Wallet_t; VStruct [VBool false; VSlice [VInt 7]]].
Definition seven : any := Some (PtrTo big_Int, VPtr (Some (Ptr 1 []))).

(** [{ p: *uint64 }] *)
Definition Boxed_t : type := Named "main" "Boxed" (StructOf [("P", PtrTo (Basic TUint64))]).

(** A sequence of sequences of [uint64]. *)
Definition Matrix_t : type := SliceOf (SliceOf (Basic TUint64)).

(** [rewritten_at q h h']: the memory [h'] is [h] with the variable at
    [q] rewritten and new cells added after it. *)
Definition rewritten_at (q : ptr) (h h' : heap) : Prop :=
  ∃ v b ext, store h q v = Some b ∧ h' = b ++ ext.

(** A computation that leaves the memory as it is, whatever its
    outcome. *)
Definition pure {A} (m : M A) : Prop := ∀ h, fst (m h) = h.

(** [keeps G m h]: run from [h], the computation [m] ends in a memory
    that satisfies [G], whatever its outcome. *)
Definition keeps {A} (G : heap → Prop) (m : M A) (h : heap) : Prop :=
  ∀ h' o, m h = (h', o) → G h'.

(** [ensures Q m h]: run from [h], the computation [m] ends in a memory
    and with an outcome that satisfy [Q]. *)
Definition ensures {A} (Q : heap → outcome A → Prop) (m : M A) (h : heap) : Prop :=
  ∀ h' o, m h = (h', o) → Q h' o.

(** The value a node has once it is stored as an element of type [E]:
    what [assignTo] makes of [reflect.ValueOf(di)]. *)
Definition element_of (E : type) (di : any) : option val :=
  match di with
  | Some (vt, x) =>
      if directlyAssignable E vt then Some x
      else if implements E vt then
        Some (match type_Kind vt with KInterface => x | _ => VIface (Some (vt, x)) end)
      else None
  | None => None
  end.

(** An element type that makes [parseSlice] call itself. *)
Definition sequence_kind (E : type) : Prop :=
  type_Kind E = KSlice ∨ type_Kind E = KArray.


(** [{ inner: Pair }] with [Pair = { a: uint64, b: uint64 }] *)
Definition Pair_t : type :=
  Named "main" "Pair" (StructOf [("A", Basic TUint64); ("B", Basic TUint64)]).
Definition Outer_t : type := Named "main" "Outer" (StructOf [("Inner", Pair_t)]).

(** The memory while the loop of [parseStruct] runs on the struct of type
    [T] at [q], entered with the memory [h0]: the struct holds [vs], whose
    fields from [i] on are still zero. *)
Definition fields_from (T : type) (q : ptr) (h0 : heap) (i : nat) (h : heap) : Prop :=
  ∃ vs b ext,
    store h0 q (VStruct vs) = Some b ∧ h = b ++ ext
    ∧ length vs = length (struct_fields T)
    ∧ ∀ j, i ≤ j → vs !! j = (fun f => zero (snd f)) <$> struct_fields T !! j.

(** The memory while the loop of [parseSlice] runs on the sequence at
    [p], entered with the memory [h0]: the sequence holds [cur]. *)
Definition holds (p : ptr) (h0 : heap) (cur : list val) (h : heap) : Prop :=
  ∃ b ext, store h0 p (VSlice cur) = Some b ∧ h = b ++ ext.

(** What one turn of the loop of [parseSlice] ensures: one element more,
    or the sequence as it was and no success. *)
Definition step_post (E : type) (p : ptr) (h0 : heap) (cur : list val) (di : any)
    (h' : heap) (o : outcome (option error)) : Prop :=
  (holds p h0 cur h' ∧ o ≠ Ret None)
  ∨ (∃ x, holds p h0 (cur ++ [x]) h' ∧ o = Ret None
          ∧ (scalar_type E → element_of E di = Some x)).

(** ** Fuel *)

(** The depth to which node lists are nested in a value. *)
Fixpoint val_depth (v : val) : nat :=
  match v with
  | VSlice l => S (list_max (map val_depth l))
  | VIface (Some (_, x)) => val_depth x
  | _ => 0
  end.

Definition any_depth (d : any) : nat :=
  match d with
  | Some (_, x) => val_depth x
  | None => 0
  end.

Definition nodes_depth (l : list any) : nat := list_max (map any_depth l).

(** A computation that does not run out of fuel. *)
Definition live {A} (m : M A) : Prop := ∀ h, snd (m h) ≠ OutOfFuel.

(** [refines m m']: where [m] does not run out of fuel, [m'] does what
    [m] does. *)
Definition refines {A} (m m' : M A) : Prop :=
  ∀ h, snd (m h) = OutOfFuel ∨ m' h = m h.

(** ** What a well-shaped node list binds *)

(** The test [is_plain_pointer], on the type alone. *)
Definition plain_pointer (t : type) : bool :=
  match type_Kind t, type_Elem t with
  | KPtr, Some e =>
      negb (String.eqb (type_String e) "big.Int")
      && negb (String.eqb (type_String e) "common.Address")
  | _, _ => false
  end.

(** The value a scalar field of type [ft] is given for a node of dynamic
    type [vt] and value [x]: the value itself, or the value converted. *)
Definition scalar_value (ft vt : type) (x : val) : option val :=
  if type_eqb vt ft then Some x
  else (fun op => convert_val op vt ft x) <$> convertOp ft vt.

(** The nodes of a node that is a node list. *)
Definition node_list (d : any) : option (list any) :=
  match d with
  | Some (t, VSlice l) => if type_eqb t any_slice then Some (map val_any l) else None
  | _ => None
  end.

(** The fields of a struct, bound one by one by [f]; every field has to
    be exported and to have its node. *)
Fixpoint fields_bound (f : type → val → any → option val)
    (fs : list (string * type)) (olds : list val) (ds : list any) : option (list val) :=
  match fs, olds, ds with
  | [], [], [] => Some []
  | (name, t) :: fs', o :: olds', d :: ds' =>
      if exported name then
        y ← f t o d; ys ← fields_bound f fs' olds' ds'; Some (y :: ys)
      else None
  | _, _, _ => None
  end.

(** [bound n ft old di]: the value that a variable of type [ft] holding
    [old] holds once the node [di] is bound to it, for the types and
    nodes on which the binder succeeds without following a pointer:
    scalars, [common.Address], [*big.Int], byte slices, structs of such
    fields, slices of scalars and slices of such structs.  [n] bounds the
    nesting of the type. *)
Fixpoint bound (n : nat) (ft : type) (old : val) (di : any) : option val :=
  match n with
  | 0 => None
  | S n =>
      if plain_pointer ft then None
      else
        match type_Kind ft with
        | KStruct =>
            l ← node_list di;
            match old with
            | VStruct olds => VStruct <$> fields_bound (bound n) (struct_fields ft) olds l
            | _ => None
            end
        | KSlice =>
            match di with
            | Some (vt, x) =>
                if type_eqb vt bytes_type then
                  if directlyAssignable ft bytes_type then Some x else None
                else
                  l ← node_list di;
                  E ← type_Elem ft;
                  match old with
                  | VSlice cur =>
                      if plain_pointer E then None
                      else
                        match type_Kind E with
                        | KStruct =>
                            ys ← mapM (bound n E (zero E)) l; Some (VSlice (cur ++ ys))
                        | KSlice | KArray => None
                        | _ => xs ← mapM (element_of E) l; Some (VSlice (cur ++ xs))
                        end
                  | _ => None
                  end
            | None => None
            end
        | KArray =>
            match di with
            | Some (vt, VString s) =>
                if type_eqb vt (Basic TString) && type_eqb ft common_Address
                then Some (HexToAddress s) else None
            | _ => None
            end
        | KPtr =>
            if type_eqb ft (PtrTo big_Int) then assert_ok di (PtrTo big_Int) else None
        | _ =>
            if String.eqb (TrimPrefix (type_String ft) "*") "common.Address" then None
            else
              match di with
              | Some (vt, x) => scalar_value ft vt x
              | None => None
              end
        end
  end.

(** [binds_to q y m h]: run from [h], the computation [m] returns nil and
    leaves the memory [h] with [y] stored at [q] and new cells after
    it. *)
Definition binds_to (q : ptr) (y : val) (m : M (option error)) (h : heap) : Prop :=
  ∃ b ext, store h q y = Some b ∧ m h = (b ++ ext, Ret None).

(** An element type whose nodes [parseSlice] appends as they are. *)
Definition raw_element (E : type) : Prop :=
  plain_pointer E = false
  ∧ type_Kind E ≠ KStruct ∧ type_Kind E ≠ KSlice ∧ type_Kind E ≠ KArray.

(** [{ id: common.Address, pairs: []Pair, inner: Pair, amount: *big.Int }] *)
Definition Ledger_t : type :=
  Named "main" "Ledger"
    (StructOf [("Id", common_Address); ("Pairs", SliceOf Pair_t);
               ("Inner", Pair_t); ("Amount", PtrTo big_Int)]).

(** ** The errors of [Parse] *)

(** The error at the end of a chain of wrapped errors ([errors.Unwrap]
    repeated). *)
Fixpoint root_cause (e : error) : error :=
  match e with
  | Errorf _ => e
  | Wrapf _ inner => root_cause inner
  end.

(** The errors a call of [Parse] can have at its root. *)
Definition root_error (e : error) : Prop :=
  e = Errorf "[parseStruct] v must be a pointer"
  ∨ e = Errorf "[parseStruct] v must be a struct pointer"
  ∨ e = ShapeMismatch
  ∨ e = Errorf "[parseSlice] v must be a slice pointer"
  ∨ (∃ di, e = TypeMismatch di)
  ∨ (∃ di ft, e = ConversionFailure di ft).

(** [e] wraps an error that satisfies [Q]. *)
Definition wraps (Q : error → Prop) (e : error) : Prop :=
  ∃ prefix inner, e = Wrapf prefix inner ∧ Q inner.

(** [{ p: *Pair, owner: *common.Address }] *)
Definition Holder_t : type :=
  Named "main" "Holder"
    (StructOf [("P", PtrTo Pair_t); ("Owner", PtrTo common_Address)]).

(** A field name that starts with an ASCII character other than an
    upper-case letter: such a field is not exported.  (For a name that
    starts with another character Go consults the Unicode tables, which
    are not modelled.) *)
Definition unexported_ascii (name : string) : bool :=
  match name with
  | String c _ => (nat_of_ascii c <? 128)%nat && negb (is_upper c)
  | EmptyString => false
  end.

(** ** Targets whose slices are nil *)

(** Every slice in the value is nil.  The nil slice is the empty list; a
    slice of no elements that has spare capacity is not modelled.  In Go
    an append to a slice that has spare capacity writes into the array
    behind it, which another slice may share.  A theorem that describes
    the memory beyond the slice appended to is therefore stated for
    targets whose slices are nil, where every append goes to an array
    that the call allocates itself. *)
Fixpoint slices_nil (v : val) : bool :=
  match v with
  | VSlice l => match l with [] => true | _ => false end
  | VStruct l | VArray l => forallb slices_nil l
  | VIface (Some (_, x)) => slices_nil x
  | _ => true
  end.


(** ** The errors of one field *)



Section field_failures.
Variable pStruct : list any → any → M (option error).
Variable pSlice : list any → any → M (option error).
Variable pPointer : list any → Value → M (option error).

End field_failures.
Lemma type_eqb_refl (t : type) : type_eqb t t = true.
Proof.
  induction t using type_rect_nested; simpl; auto.
  - destruct b; reflexivity.
  - rewrite !String.eqb_refl, IHt. reflexivity.
  - rewrite Nat.eqb_refl, IHt. reflexivity.
  - induction H as [|[n t] fs Ht _ IH]; [reflexivity|].
    simpl in Ht. rewrite String.eqb_refl, Ht, IH. reflexivity.
Qed.

Lemma type_eqb_eq (a b : type) : type_eqb a b = true → a = b.
Proof.
  revert b. induction a using type_rect_nested; intros [] E; simpl in E;
    try discriminate; auto.
  - f_equal. destruct b, b0; try discriminate; reflexivity.
  - apply andb_prop in E as [E E3]. apply andb_prop in E as [E1 E2].
    apply String.eqb_eq in E1, E2. apply IHa in E3. congruence.
  - f_equal. auto.
  - f_equal. auto.
  - apply andb_prop in E as [E1 E2]. apply Nat.eqb_eq in E1.
    apply IHa in E2. congruence.
  - f_equal. revert fields E.
    induction H as [|[n t] fs Ht _ IH]; intros [|[m u] gs] E;
      try discriminate; auto.
    apply andb_prop in E as [E E3]. apply andb_prop in E as [E1 E2].
    apply String.eqb_eq in E1. apply Ht in E2. apply IH in E3.
    simpl in E2. subst. reflexivity.
Qed.

Lemma type_eqb_spec (a b : type) : type_eqb a b = true ↔ a = b.
Proof. split; [apply type_eqb_eq | intros ->; apply type_eqb_refl]. Qed.

Lemma type_eqb_neq (a b : type) : type_eqb a b = false ↔ a ≠ b.
Proof.
  rewrite <- type_eqb_spec. destruct (type_eqb a b); split; congruence.
Qed.


(** ** The monad *)

#[global] Arguments bind : simpl never.
#[global] Arguments ret : simpl never.
#[global] Arguments throw : simpl never.
#[global] Arguments fault : simpl never.
#[global] Arguments out_of_fuel : simpl never.
#[global] Arguments from_option : simpl never.
#[global] Arguments Value_Type : simpl never.
#[global] Arguments Type_Elem : simpl never.
#[global] Arguments Value_get : simpl never.
#[global] Arguments Value_IsNil : simpl never.
#[global] Arguments Value_Elem : simpl never.
#[global] Arguments Value_NumField : simpl never.
#[global] Arguments Value_Field : simpl never.
#[global] Arguments Value_Set : simpl never.
#[global] Arguments Value_Interface : simpl never.
#[global] Arguments Value_Addr : simpl never.
#[global] Arguments reflect_Append : simpl never.
#[global] Arguments reflect_New : simpl never.
#[global] Arguments alloc : simpl never.
#[global] Arguments assignTo : simpl never.
#[global] Arguments Value_CanConvert : simpl never.
#[global] Arguments Value_Convert : simpl never.
#[global] Arguments index : simpl never.
#[global] Arguments assert_type : simpl never.
#[global] Arguments assert_anys : simpl never.
#[global] Arguments assert_string : simpl never.
#[global] Arguments is_plain_pointer : simpl never.
#[global] Arguments type_String : simpl never.
#[global] Arguments for_each : simpl never.

Lemma bind_ret {A B} (a : A) (k : A → M B) : bind (ret a) k = k a.
Proof. reflexivity. Qed.

Lemma bind_throw {A B} (p : panic) (k : A → M B) : bind (throw p) k = throw p.
Proof. reflexivity. Qed.

Lemma bind_fault {A B} (k : A → M B) : bind fault k = fault.
Proof. reflexivity. Qed.

Lemma bind_run {A B} (m : M A) (k : A → M B) (h h' : heap) (a : A) :
  m h = (h', Ret a) → bind m k h = k a h'.
Proof. unfold bind. intros ->. reflexivity. Qed.

Lemma bind_panics {A B} (m : M A) (k : A → M B) (h h' : heap) (p : panic) :
  m h = (h', Panics p) → bind m k h = (h', Panics p).
Proof. unfold bind. intros ->. reflexivity. Qed.

(** ** [reflect] on known arguments *)

Lemma kind_ptr_elem (pt : type) : type_Kind pt = KPtr → ∃ e, type_Elem pt = Some e.
Proof.
  unfold type_Elem. induction pt; simpl; try discriminate; eauto.
  destruct b; discriminate.
Qed.

Lemma Value_IsNil_direct (pt : type) (p : option ptr) (ro : bool) :
  type_Kind pt = KPtr →
  Value_IsNil (Direct pt (VPtr p) ro) = ret (bool_decide (p = None)).
Proof.
  intros Hp. unfold Value_IsNil, Value_get, Value_Kind.
  rewrite bind_ret, Hp. reflexivity.
Qed.

Lemma Value_Elem_direct (pt T : type) (p : ptr) (ro : bool) :
  type_Kind pt = KPtr → type_Elem pt = Some T →
  Value_Elem (Direct pt (VPtr (Some p)) ro) = ret (Lval T p ro).
Proof.
  intros Hp He. unfold Value_Elem, Value_get, Value_Type, Value_Kind.
  rewrite !bind_ret, Hp. unfold Type_Elem. rewrite He. reflexivity.
Qed.

Lemma Value_NumField_struct (T : type) (p : ptr) (ro : bool) :
  type_Kind T = KStruct →
  Value_NumField (Lval T p ro) = ret (length (struct_fields T)).
Proof. intros Hs. unfold Value_NumField. rewrite decide_True by done. reflexivity. Qed.

Lemma parseStruct_S (n : nat) :
  parseStruct (S n) = parseStruct_body (parseStruct n) (parseSlice n) (parsePointer n).
Proof. reflexivity. Qed.

Lemma parseSlice_S (n : nat) :
  parseSlice (S n) = parseSlice_body (parseStruct n) (parseSlice n) (parsePointer n).
Proof. reflexivity. Qed.

Lemma parsePointer_S (n : nat) :
  parsePointer (S n) = parsePointer_body (parseStruct n) (parseSlice n).
Proof. reflexivity. Qed.

(** On a non-nil pointer to a struct, [parseStruct] is the count check
    followed by the loop over the fields. *)
Lemma parseStruct_head (fuel : nat) (decoded : list any) (pt T : type) (p : ptr) :
  type_Kind pt = KPtr → type_Elem pt = Some T → type_Kind T = KStruct →
  parseStruct (S fuel) decoded (Some (pt, VPtr (Some p))) =
    if negb (length decoded =? length (struct_fields T))%nat
       && negb (String.eqb (type_String T) "big.Int")
       && negb (String.eqb (type_String T) "common.Address")
    then ret (Some ShapeMismatch)
    else for_each (structField (parseStruct fuel) (parseSlice fuel) (parsePointer fuel)
                     decoded (Lval T p false))
           (seq 0 (length (struct_fields T))).
Proof.
  intros Hp He Hs. rewrite parseStruct_S.
  unfold parseStruct_body, not_pointer_or_nil, ValueOf, Value_Kind.
  rewrite decide_True by done.
  rewrite Value_IsNil_direct, bind_ret by done. simpl.
  rewrite (Value_Elem_direct pt T), bind_ret by done.
  rewrite decide_True by done.
  rewrite Value_NumField_struct, bind_ret by done. reflexivity.
Qed.

Lemma special_leaf_eqb (T : type) :
  special_leaf T ↔
  negb (String.eqb (type_String T) "big.Int")
  && negb (String.eqb (type_String T) "common.Address") = false.
Proof.
  unfold special_leaf.
  destruct (String.eqb_spec (type_String T) "big.Int"),
    (String.eqb_spec (type_String T) "common.Address"); simpl; intuition congruence.
Qed.


Lemma parseStruct_special (fuel : nat) (decoded : list any) (pt T : type) (p : ptr) :
  type_Kind pt = KPtr → type_Elem pt = Some T → type_Kind T = KStruct →
  special_leaf T →
  parseStruct (S fuel) decoded (Some (pt, VPtr (Some p)))
  = for_each (structField (parseStruct fuel) (parseSlice fuel) (parsePointer fuel)
                decoded (Lval T p false))
      (seq 0 (length (struct_fields T))).
Proof.
  intros Hp He Hs Hsp. rewrite (parseStruct_head fuel decoded pt T) by done.
  apply special_leaf_eqb in Hsp.
  rewrite <- andb_assoc, Hsp, andb_false_r. reflexivity.
Qed.


(** C2: binding the nodes ["0xAbC...001", 42, [1,2,3]] to a fresh
    [{ id, count, values }] succeeds; afterwards [id] is the identifier
    parsed from the hexadecimal string, [count] is 42 and [values] is
    [1,2,3]. *)
Theorem Parse_record_example (fuel : nat) :
  Parse (S (S fuel)) record_nodes (ref Record_t (Ptr 0 [])) [zero Record_t]
  = ([VStruct [HexToAddress "0xAbC0000000000000000000000000000000000001";
               VInt 42; VSlice [VInt 1; VInt 2; VInt 3]]],
     Ret None).
Proof. vm_compute. reflexivity. Qed.

(** ** Memory *)

Lemma get_set_path (c : val) (path : list nat) (x c' : val) :
  set_path c path x = Some c' → get_path c' path = Some x.
Proof.
  revert c c'. induction path as [|i path IH]; intros c c' H; simpl in *.
  - congruence.
  - destruct c; try discriminate.
    destruct (l !! i) as [f|] eqn:Hf; simpl in H; [|discriminate].
    destruct (set_path f path x) as [f'|] eqn:Hs; simpl in H; [|discriminate].
    injection H as <-. cbn [get_path].
    rewrite list_lookup_insert_eq by (eapply lookup_lt_Some; eauto). simpl. eauto.
Qed.

Lemma set_path_is_Some (c : val) (path : list nat) (x : val) :
  is_Some (get_path c path) → is_Some (set_path c path x).
Proof.
  revert c. induction path as [|i path IH]; intros c [y H]; simpl in *; eauto.
  destruct c; try discriminate.
  destruct (l !! i) as [f|] eqn:Hf; simpl in *; [|discriminate].
  destruct (IH f) as [f' ->]; eauto.
Qed.

Lemma load_store (h h' : heap) (p : ptr) (x : val) :
  store h p x = Some h' → load h' p = Some x.
Proof.
  unfold store, load. intros H.
  destruct (h !! ploc p) as [c|] eqn:Hc; simpl in H; [|discriminate].
  destruct (set_path c (ppath p) x) as [c'|] eqn:Hs; simpl in H; [|discriminate].
  injection H as <-.
  rewrite list_lookup_insert_eq by (eapply lookup_lt_Some; eauto). simpl.
  eapply get_set_path; eauto.
Qed.

Lemma store_length (h h' : heap) (p : ptr) (x : val) :
  store h p x = Some h' → length h' = length h.
Proof.
  unfold store. intros H.
  destruct (h !! ploc p) as [c|]; simpl in H; [|discriminate].
  destruct (set_path c (ppath p) x) as [c'|]; simpl in H; [|discriminate].
  injection H as <-. apply length_insert.
Qed.

Lemma store_is_Some (h : heap) (p : ptr) (x : val) :
  is_Some (load h p) → is_Some (store h p x).
Proof.
  unfold store, load. intros [y H].
  destruct (h !! ploc p) as [c|]; simpl in *; [|discriminate].
  destruct (set_path_is_Some c (ppath p) x) as [c' ->]; eauto.
Qed.

(** ** [reflect] on variables *)

Lemma Value_get_lval (m : string) (t : type) (p : ptr) (ro : bool) (h : heap) (x : val) :
  load h p = Some x → Value_get m (Lval t p ro) h = (h, Ret x).
Proof. unfold Value_get. intros ->. reflexivity. Qed.

Lemma type_eqb_true (t : type) : type_eqb t t = true.
Proof. apply type_eqb_refl. Qed.

Lemma directlyAssignable_refl (t : type) : directlyAssignable t t = true.
Proof. unfold directlyAssignable. rewrite type_eqb_refl. reflexivity. Qed.

Lemma assignTo_direct (V T : type) (xv : val) (ro : bool) :
  directlyAssignable T V = true →
  assignTo (Direct V xv ro) T = ret xv.
Proof.
  intros H. unfold assignTo, Value_get, Value_Type. rewrite !bind_ret, H. reflexivity.
Qed.

Lemma assignTo_not (V T : type) (xv : val) (ro : bool) :
  directlyAssignable T V = false → type_Kind T ≠ KInterface →
  assignTo (Direct V xv ro) T = throw (NotAssignable V T).
Proof.
  intros H Hi. unfold assignTo, Value_get, Value_Type, implements.
  rewrite !bind_ret, H, bool_decide_eq_false_2 by done. reflexivity.
Qed.

(** Setting an exported variable to a value of an assignable type stores
    the value. *)
Lemma Value_Set_store (T V : type) (p : ptr) (xv : val) (h h' : heap) :
  directlyAssignable T V = true → store h p xv = Some h' →
  Value_Set (Lval T p false) (Direct V xv false) h = (h', Ret tt).
Proof.
  intros Ha Hs. unfold Value_Set. simpl.
  rewrite assignTo_direct, bind_ret by done. rewrite Hs. reflexivity.
Qed.

Lemma Value_Set_not_assignable (T V : type) (p : ptr) (xv : val) (h : heap) :
  directlyAssignable T V = false → type_Kind T ≠ KInterface →
  Value_Set (Lval T p false) (Direct V xv false) h = (h, Panics (NotAssignable V T)).
Proof.
  intros Ha Hi. unfold Value_Set. simpl.
  rewrite assignTo_not by done. reflexivity.
Qed.

(** ** The loop of [parseStruct] *)

Lemma Value_Field_lval (T : type) (p : ptr) (ro : bool) (i : nat) (n : string) (ft : type) :
  type_Kind T = KStruct → struct_fields T !! i = Some (n, ft) →
  Value_Field (Lval T p ro) i = ret (Lval ft (field_ptr p i) (ro || negb (exported n))).
Proof.
  intros Hs Hf. unfold Value_Field. rewrite decide_True by done. rewrite Hf. reflexivity.
Qed.

Lemma index_lookup {A} (l : list A) (i : nat) (x : A) :
  l !! i = Some x → index l i = ret x.
Proof. unfold index. intros ->. reflexivity. Qed.

Lemma index_out {A} (l : list A) (i : nat) :
  l !! i = None → index l i = throw (IndexOutOfRange i (length l)).
Proof. unfold index. intros ->. reflexivity. Qed.

Section structField_at.
Variable pStruct : list any → any → M (option error).
Variable pSlice : list any → any → M (option error).
Variable pPointer : list any → Value → M (option error).

Lemma structField_at (decoded : list any) (T : type) (p : ptr) (i : nat)
    (n : string) (ft : type) (di : any) :
  type_Kind T = KStruct → struct_fields T !! i = Some (n, ft) →
  decoded !! i = Some di →
  structField pStruct pSlice pPointer decoded (Lval T p false) i
  = bindField pStruct pSlice pPointer
      (Lval ft (field_ptr p i) (negb (exported n))) di.
Proof.
  intros Hs Hf Hd. unfold structField.
  rewrite (Value_Field_lval T p false i n ft), bind_ret by done.
  rewrite (index_lookup decoded i di), bind_ret by done. reflexivity.
Qed.
End structField_at.

(** ** Fields of pointer type *)

Lemma kind_ptr_underlying (t e : type) :
  type_Kind t = KPtr → type_Elem t = Some e → underlying t = PtrTo e.
Proof.
  unfold type_Elem.
  induction t; simpl; try discriminate; auto.
  intros _ [= ->]. reflexivity.
Qed.

Lemma Type_Elem_some (t e : type) : type_Elem t = Some e → Type_Elem t = ret e.
Proof. unfold Type_Elem. intros ->. reflexivity. Qed.

Lemma type_String_big_Int : type_String big_Int = "big.Int".
Proof. reflexivity. Qed.

Lemma type_String_common_Address : type_String common_Address = "common.Address".
Proof. reflexivity. Qed.

Lemma is_plain_pointer_big_Int (ft : type) :
  type_Kind ft = KPtr → type_Elem ft = Some big_Int →
  is_plain_pointer ft = ret false.
Proof.
  intros Hk He. unfold is_plain_pointer. rewrite decide_True by done.
  rewrite (Type_Elem_some ft big_Int), bind_ret by done. reflexivity.
Qed.

Lemma is_plain_pointer_not_ptr (ft : type) :
  type_Kind ft ≠ KPtr → is_plain_pointer ft = ret false.
Proof. intros Hk. unfold is_plain_pointer. rewrite decide_False by done. reflexivity. Qed.

Lemma directlyAssignable_ptr (ft e : type) :
  type_Kind ft = KPtr → type_Elem ft = Some e →
  directlyAssignable ft (PtrTo e) = true.
Proof.
  intros Hk He. unfold directlyAssignable. simpl.
  rewrite (kind_ptr_underlying ft e), type_eqb_refl, andb_false_r by done.
  apply orb_true_r.
Qed.

Section big_Int_field.
Variable pStruct : list any → any → M (option error).
Variable pSlice : list any → any → M (option error).
Variable pPointer : list any → Value → M (option error).

(** The dispatch on a field whose type is a pointer to [big.Int]. *)
Lemma bindField_big_Int (ft : type) (fp : ptr) (ro : bool) (di : any) :
  type_Kind ft = KPtr → type_Elem ft = Some big_Int →
  bindField pStruct pSlice pPointer (Lval ft fp ro) di
  = match assert_ok di (PtrTo big_Int) with
    | Some bi => Value_Set (Lval ft fp ro) (Direct (PtrTo big_Int) bi false) ;;; ret None
    | None => ret (Some (TypeMismatch di))
    end.
Proof.
  intros Hk He. unfold bindField. unfold Value_Type at 1. rewrite bind_ret.
  rewrite is_plain_pointer_big_Int, bind_ret by done.
  simpl Value_Kind. rewrite Hk. simpl.
  rewrite (Type_Elem_some ft big_Int), bind_ret by done.
  rewrite type_String_big_Int. reflexivity.
Qed.

(** C7: a struct field declared as a pointer to [big.Int] is assigned
    the node itself, by reference, exactly when the node is already a
    [*big.Int]; a node of any other representation makes the binder
    return the type-mismatch error, and nothing is written. *)
Theorem structField_big_Int
    (decoded : list any) (T : type) (p : ptr) (i : nat) (n : string)
    (ft : type) (di : any) (h : heap) :
  type_Kind T = KStruct → struct_fields T !! i = Some (n, ft) →
  exported n = true →
  type_Kind ft = KPtr → type_Elem ft = Some big_Int →
  decoded !! i = Some di →
  (∀ bi h', di = Some (PtrTo big_Int, bi) →
     store h (field_ptr p i) bi = Some h' →
     structField pStruct pSlice pPointer decoded (Lval T p false) i h = (h', Ret None)
     ∧ load h' (field_ptr p i) = Some bi ∧ length h' = length h)
  ∧ (assert_ok di (PtrTo big_Int) = None →
     structField pStruct pSlice pPointer decoded (Lval T p false) i h
     = (h, Ret (Some (TypeMismatch di))))
  ∧ (∀ h', structField pStruct pSlice pPointer decoded (Lval T p false) i h = (h', Ret None) →
     ∃ bi, di = Some (PtrTo big_Int, bi)).
Proof.
  intros Hs Hf Hx Hk He Hd.
  rewrite (structField_at _ _ _ decoded T p i n ft di) by done.
  rewrite bindField_big_Int by done. rewrite Hx. simpl negb.
  split; [|split].
  - intros bi h' -> Hst. simpl.
    erewrite bind_run
      by (apply Value_Set_store; [apply directlyAssignable_ptr|]; eauto).
    split; [reflexivity|]. split; [eapply load_store | eapply store_length]; eauto.
  - intros ->. reflexivity.
  - intros h'. destruct di as [[vt bi]|]; simpl; [|discriminate].
    destruct (type_eqb vt (PtrTo big_Int)) eqn:E; [|discriminate].
    apply type_eqb_eq in E as ->. eauto.
Qed.
End big_Int_field.

Lemma structField_big_Int_witness :
  structField (parseStruct 0) (parseSlice 0) (parsePointer 0)
    [seven] (Lval Wallet_t (Ptr 0 []) false) 0 wallet_heap
  = ([VStruct [VPtr (Some (Ptr 1 []))]; VStruct [VBool false; VSlice [VInt 7]]], Ret None).
Proof.
  apply (proj1 (structField_big_Int (parseStruct 0) (parseSlice 0) (parsePointer 0)
                  [seven] Wallet_t (Ptr 0 []) 0 "Amount" (PtrTo big_Int) seven wallet_heap
                  eq_refl eq_refl eq_refl eq_refl eq_refl eq_refl)
           (VPtr (Some (Ptr 1 []))) _ eq_refl eq_refl).
Defined.

(** ** Scalar fields *)

Section scalar_field.
Variable pStruct : list any → any → M (option error).
Variable pSlice : list any → any → M (option error).
Variable pPointer : list any → Value → M (option error).

(** The dispatch on a scalar field and a node that is not nil. *)
Lemma bindField_scalar (ft : type) (fp : ptr) (ro : bool) (vt : type) (x : val) :
  scalar_type ft →
  bindField pStruct pSlice pPointer (Lval ft fp ro) (Some (vt, x))
  = if type_eqb vt ft then Value_Set (Lval ft fp ro) (Direct vt x false) ;;; ret None
    else match convertOp ft vt with
         | Some op =>
             Value_Set (Lval ft fp ro) (Direct ft (convert_val op vt ft x) false) ;;;
             ret None
         | None => ret (Some (ConversionFailure (Some (vt, x)) ft))
         end.
Proof.
  intros (Hp & Hs & Hl & Ha & Hc). unfold bindField.
  unfold Value_Type at 1. rewrite bind_ret.
  rewrite is_plain_pointer_not_ptr, bind_ret by done.
  simpl Value_Kind. rewrite !decide_False by done.
  rewrite !bool_decide_eq_false_2 by done.
  apply String.eqb_neq in Hc. rewrite Hc. simpl.
  unfold Value_Type at 1. rewrite bind_ret.
  destruct (type_eqb vt ft); [reflexivity|].
  unfold Value_CanConvert, Value_Convert, Value_Type, Value_get.
  rewrite !bind_ret.
  destruct (convertOp ft vt) as [op|]; simpl; rewrite ?bind_ret; reflexivity.
Qed.

(** A scalar field given a node of another type that converts to the
    field's type is assigned the converted value. *)
Lemma structField_converts
    (decoded : list any) (T : type) (p : ptr) (i : nat) (n : string)
    (ft vt : type) (x : val) (op : cvt) (h h' : heap) :
  type_Kind T = KStruct → struct_fields T !! i = Some (n, ft) →
  exported n = true → scalar_type ft →
  decoded !! i = Some (Some (vt, x)) → vt ≠ ft →
  convertOp ft vt = Some op →
  store h (field_ptr p i) (convert_val op vt ft x) = Some h' →
  structField pStruct pSlice pPointer decoded (Lval T p false) i h = (h', Ret None).
Proof.
  intros Hs Hf Hx Hsc Hd Hne Hop Hst.
  rewrite (structField_at _ _ _ decoded T p i n ft (Some (vt, x))) by done.
  rewrite bindField_scalar by done. rewrite Hx. simpl negb.
  apply type_eqb_neq in Hne. rewrite Hne, Hop.
  erewrite bind_run
    by (apply Value_Set_store; [apply directlyAssignable_refl|]; eauto).
  reflexivity.
Qed.

(** C4, as the code has it: a scalar field whose declared type differs
    from the node's dynamic type is assigned the node's value converted
    by Go's conversion when the dynamic type converts to the declared
    type, and the binder returns the conversion-failure error when it
    does not.  Whether the types convert is decided on the types alone,
    and an integer is converted by wrapping it to the width of the
    declared type. *)
Theorem structField_scalar_conversion
    (decoded : list any) (T : type) (p : ptr) (i : nat) (n : string)
    (ft vt : type) (x : val) (h : heap) :
  type_Kind T = KStruct → struct_fields T !! i = Some (n, ft) →
  exported n = true → scalar_type ft →
  decoded !! i = Some (Some (vt, x)) → vt ≠ ft →
  (∀ op h', convertOp ft vt = Some op →
     store h (field_ptr p i) (convert_val op vt ft x) = Some h' →
     structField pStruct pSlice pPointer decoded (Lval T p false) i h = (h', Ret None))
  ∧ (convertOp ft vt = None →
     structField pStruct pSlice pPointer decoded (Lval T p false) i h
     = (h, Ret (Some (ConversionFailure (Some (vt, x)) ft))))
  ∧ (∀ sv wv s w, int_kind (type_Kind vt) = Some (sv, wv) →
     int_kind (type_Kind ft) = Some (s, w) →
     convertOp ft vt = Some CvtInt
     ∧ convert_val CvtInt vt ft x = VInt (wrap s w (val_Z x))).
Proof.
  intros Hs Hf Hx Hsc Hd Hne.
  split; [|split].
  - intros op h' Hop Hst. eapply structField_converts; eauto.
  - rewrite (structField_at _ _ _ decoded T p i n ft (Some (vt, x))) by done.
    rewrite bindField_scalar by done. rewrite Hx. simpl negb.
    apply type_eqb_neq in Hne. rewrite Hne.
    intros ->. reflexivity.
  - intros sv wv s w Hv Ht. unfold convertOp, convert_val.
    rewrite Hv, Ht. auto.
Qed.

(** A scalar field given a node of its own type is assigned the node's
    value as it is. *)
Lemma structField_scalar_same
    (decoded : list any) (T : type) (p : ptr) (i : nat) (n : string)
    (ft : type) (x : val) (h h' : heap) :
  type_Kind T = KStruct → struct_fields T !! i = Some (n, ft) →
  exported n = true → scalar_type ft →
  decoded !! i = Some (Some (ft, x)) →
  store h (field_ptr p i) x = Some h' →
  structField pStruct pSlice pPointer decoded (Lval T p false) i h = (h', Ret None).
Proof.
  intros Hs Hf Hx Hsc Hd Hst.
  rewrite (structField_at _ _ _ decoded T p i n ft (Some (ft, x))) by done.
  rewrite bindField_scalar by done. rewrite Hx, type_eqb_refl. simpl negb.
  erewrite bind_run
    by (apply Value_Set_store; [apply directlyAssignable_refl|]; eauto).
  reflexivity.
Qed.
End scalar_field.

Lemma scalar_type_uint8 : scalar_type (Basic TUint8).
Proof. repeat split; try discriminate. Qed.

Lemma structField_scalar_conversion_witness :
  structField (parseStruct 0) (parseSlice 0) (parsePointer 0)
    [i64 300] (Lval Small_t (Ptr 0 []) false) 0 [zero Small_t]
  = ([VStruct [VInt 44]], Ret None).
Proof.
  apply (proj1 (structField_scalar_conversion (parseStruct 0) (parseSlice 0) (parsePointer 0)
                  [i64 300] Small_t (Ptr 0 []) 0 "Level" (Basic TUint8) (Basic TInt64)
                  (VInt 300) [zero Small_t]
                  eq_refl eq_refl eq_refl scalar_type_uint8 eq_refl ltac:(discriminate))
           CvtInt _ eq_refl eq_refl).
Defined.

(** C4 as the specification words it does not hold: no value of type
    [uint8] is the integer 300, so no lossless conversion of the node
    exists, and yet the binder does not fail: it stores 44. *)
Lemma lossy_conversion_is_accepted :
  ¬ fits (Basic TUint8) 300
  ∧ Parse 1 [i64 300] (ref Small_t (Ptr 0 [])) [zero Small_t]
    = ([VStruct [VInt 44]], Ret None).
Proof. split; [vm_compute; intros [_ H]; discriminate H | reflexivity]. Qed.

(** ** Sequences of scalars and scalar indirections *)

Lemma basic_kind_underlying (t : type) :
  type_Kind t ≠ KPtr → type_Kind t ≠ KStruct → type_Kind t ≠ KSlice →
  type_Kind t ≠ KArray → type_Kind t ≠ KInterface →
  ∃ b, underlying t = Basic b.
Proof. induction t; simpl; intros; try contradiction; eauto. Qed.

Lemma basic_kinded_named (t : type) :
  basic_kinded t → hasName t = true ∧ ∃ b, underlying t = Basic b.
Proof.
  intros ((Hp & Hs & Hl & Ha & _) & Hi & Hv). split.
  - destruct t; simpl in *; try contradiction; reflexivity.
  - apply basic_kind_underlying; assumption.
Qed.

Lemma not_named_underlying (t : type) : hasName t = false → underlying t = t.
Proof. destruct t; simpl; try discriminate; reflexivity. Qed.

(** A value whose type differs from a bool, integer or string type is not
    assignable to it. *)
Lemma basic_kinded_not_assignable (ft vt : type) :
  basic_kinded ft → vt ≠ ft → directlyAssignable ft vt = false.
Proof.
  intros Hb Hne. destruct (basic_kinded_named ft Hb) as [Hn [b Hu]].
  unfold directlyAssignable.
  assert (type_eqb ft vt = false) as -> by (apply type_eqb_neq; congruence).
  rewrite Hn, Hu. destruct (hasName vt) eqn:Hv; [reflexivity|].
  rewrite (not_named_underlying vt Hv). cbn [orb andb negb].
  apply type_eqb_neq. intros <-. discriminate.
Qed.

Lemma parseSlice_head (fuel : nat) (decoded : list any) (pt rt E : type) (p : ptr) :
  type_Kind pt = KPtr → type_Elem pt = Some rt →
  type_Kind rt = KSlice → type_Elem rt = Some E →
  parseSlice (S fuel) decoded (Some (pt, VPtr (Some p)))
  = for_each (sliceElem (parseStruct fuel) (parseSlice fuel) (parsePointer fuel)
                (Lval rt p false) rt E) decoded.
Proof.
  intros Hp He Hs Hse. rewrite parseSlice_S.
  unfold parseSlice_body, not_pointer_or_nil, ValueOf, Value_Kind.
  rewrite decide_True by done.
  rewrite Value_IsNil_direct, bind_ret by done. simpl.
  rewrite (Value_Elem_direct pt rt), bind_ret by done.
  rewrite decide_True by done.
  unfold Value_Type. rewrite bind_ret.
  rewrite (Type_Elem_some rt E), bind_ret by done. reflexivity.
Qed.

Lemma for_each_cons {A} (body : A → M (option error)) (x : A) (l : list A) :
  for_each body (x :: l)
  = let* e := body x in
    match e with
    | Some err => ret (Some err)
    | None => for_each body l
    end.
Proof. reflexivity. Qed.

Lemma for_each_nil {A} (body : A → M (option error)) : for_each body [] = ret None.
Proof. reflexivity. Qed.

(** [reflect.Append] to a slice variable: the element is made assignable
    and put after the elements the variable holds. *)
Lemma reflect_Append_lval (rt E V : type) (p : ptr) (xv : val) (old : list val) (h : heap) :
  type_Kind rt = KSlice → type_Elem rt = Some E →
  load h p = Some (VSlice old) →
  reflect_Append (Lval rt p false) (Direct V xv false) h
  = (let* xv' := assignTo (Direct V xv false) E in
     ret (Direct rt (VSlice (old ++ [xv'])) false)) h.
Proof.
  intros Hs He Hl. unfold reflect_Append, Value_ro, Value_Kind.
  rewrite decide_True by done. cbv iota.
  rewrite (bind_run (Value_get "Append" (Lval rt p false)) _ h h (VSlice old))
    by (apply Value_get_lval; eauto).
  unfold Value_Type. rewrite bind_ret.
  rewrite (Type_Elem_some rt E), bind_ret by done. reflexivity.
Qed.

Section scalar_elements.
Variable pStruct : list any → any → M (option error).
Variable pSlice : list any → any → M (option error).
Variable pPointer : list any → Value → M (option error).



End scalar_elements.

Lemma store_app (h h' e : heap) (p : ptr) (x : val) :
  store h p x = Some h' → store (h ++ e) p x = Some (h' ++ e).
Proof.
  unfold store. intros H.
  destruct (h !! ploc p) as [c|] eqn:Hc; simpl in H; [|discriminate].
  destruct (set_path c (ppath p) x) as [c'|] eqn:Hs; simpl in H; [|discriminate].
  injection H as <-. pose proof (lookup_lt_Some _ _ _ Hc) as Hlt.
  rewrite lookup_app_l, Hc by done. simpl. rewrite Hs. simpl.
  rewrite insert_app_l by done. reflexivity.
Qed.

Lemma load_app (h e : heap) (p : ptr) (x : val) :
  load h p = Some x → load (h ++ e) p = Some x.
Proof.
  unfold load. intros H.
  destruct (h !! ploc p) as [c|] eqn:Hc; simpl in H; [|discriminate].
  rewrite lookup_app_l, Hc by (eapply lookup_lt_Some; eauto). exact H.
Qed.

Lemma Value_IsNil_lval (t : type) (p : ptr) (ro : bool) (q : option ptr) (h : heap) :
  type_Kind t = KPtr → load h p = Some (VPtr q) →
  Value_IsNil (Lval t p ro) h = (h, Ret (bool_decide (q = None))).
Proof.
  intros Hk Hl. unfold Value_IsNil.
  rewrite (bind_run (Value_get "IsNil" (Lval t p ro)) _ h h (VPtr q))
    by (apply Value_get_lval; eauto).
  unfold Value_Kind. rewrite Hk. reflexivity.
Qed.

Lemma Value_Elem_lval (t e : type) (p q : ptr) (ro : bool) (h : heap) :
  type_Kind t = KPtr → type_Elem t = Some e → load h p = Some (VPtr (Some q)) →
  Value_Elem (Lval t p ro) h = (h, Ret (Lval e q ro)).
Proof.
  intros Hk He Hl. unfold Value_Elem.
  rewrite (bind_run (Value_get "Elem" (Lval t p ro)) _ h h (VPtr (Some q)))
    by (apply Value_get_lval; eauto).
  unfold Value_Type. rewrite bind_ret. unfold Value_Kind. rewrite Hk.
  rewrite (Type_Elem_some t e), bind_ret by done. reflexivity.
Qed.

Lemma reflect_New_run (t : type) (h : heap) :
  reflect_New t h
  = (h ++ [zero t], Ret (Direct (PtrTo t) (VPtr (Some (Ptr (length h) []))) false)).
Proof. reflexivity. Qed.


Lemma kind_underlying (t : type) : type_Kind (underlying t) = type_Kind t.
Proof. induction t; simpl; auto. Qed.

Lemma directlyAssignable_kind (T V : type) :
  directlyAssignable T V = true → type_Kind T = type_Kind V.
Proof.
  unfold directlyAssignable. intros [H | H]%orb_prop.
  - apply type_eqb_eq in H. congruence.
  - apply andb_prop in H as [_ H]. apply type_eqb_eq in H.
    rewrite <- (kind_underlying T), <- (kind_underlying V). congruence.
Qed.


Section interface_elements.
Variable pStruct : list any → any → M (option error).
Variable pSlice : list any → any → M (option error).
Variable pPointer : list any → Value → M (option error).

End interface_elements.




(** C6: the indirection binder does not assign the one inner decoded
    value.  Bound to [{ p: *uint64 }], the node list [[5]] allocates the
    pointee and then panics, because what is assigned to the pointee is
    the node list itself; bound through a pointer to [any], the pointee
    receives the node list [[5]] and not the value 5. *)
Theorem parsePointer_assigns_node_list :
  Parse 2 [u64 5] (ref Boxed_t (Ptr 0 [])) [zero Boxed_t]
  = ([VStruct [VPtr (Some (Ptr 1 []))]; VInt 0],
     Panics (NotAssignable any_slice (Basic TUint64)))
  ∧ parsePointer 1 [u64 5] (Lval (PtrTo Iface) (Ptr 0 []) false) [VPtr None]
    = ([VPtr (Some (Ptr 1 [])); VIface (Some (any_slice, anys_val [u64 5]))],
       Ret None).
Proof. split; reflexivity. Qed.

(** ** Sequences of sequences *)

Lemma bind_assoc {A B C} (m : M A) (f : A → M B) (g : B → M C) (h : heap) :
  bind (bind m f) g h = bind m (fun x => bind (f x) g) h.
Proof. unfold bind. destruct (m h) as [h1 [a|p| |]]; reflexivity. Qed.

Lemma bind_ext {A B} (m : M A) (k k' : A → M B) (h : heap) :
  (∀ a h1, k a h1 = k' a h1) → bind m k h = bind m k' h.
Proof. intros H. unfold bind. destruct (m h) as [h1 [a|p| |]]; auto. Qed.

Lemma Value_Addr_Interface (rt : type) (p : ptr) (k : any → M (option error)) :
  (let* a := Value_Addr (Lval rt p false) in let* ai := Value_Interface a in k ai)
  = k (ref rt p).
Proof. reflexivity. Qed.

Section nested_elements.
Variable pStruct : list any → any → M (option error).
Variable pSlice : list any → any → M (option error).
Variable pPointer : list any → Value → M (option error).

(** The loop body of [parseSlice] for an element type that is a slice
    or an array: the recursive call is given the address of the very
    sequence being bound. *)
Lemma sliceElem_nested (rt E : type) (p : ptr) (di : any) :
  type_Kind E = KSlice ∨ type_Kind E = KArray →
  sliceElem pStruct pSlice pPointer (Lval rt p false) rt E di
  = let* l := assert_anys di in
    let* err := pSlice l (ref rt p) in
    ret (wrap_err ("[parseSlice] error parsing slice field " +:+ type_Name rt +:+ ": ") err).
Proof.
  intros HE. unfold sliceElem.
  rewrite is_plain_pointer_not_ptr, bind_ret
    by (destruct HE as [-> | ->]; discriminate).
  rewrite decide_False by (destruct HE as [-> | ->]; discriminate).
  assert (bool_decide (type_Kind E = KSlice) || bool_decide (type_Kind E = KArray) = true)
    as -> by (destruct HE as [-> | ->]; reflexivity).
  reflexivity.
Qed.
End nested_elements.

Lemma assert_anys_cases (di : any) (h : heap) :
  (∃ l, assert_anys di h = (h, Ret l))
  ∨ assert_anys di h = (h, Panics (InterfaceConversion (TypeOf di) any_slice))
  ∨ assert_anys di h = (h, Fault).
Proof.
  unfold assert_anys, assert_type, assert_ok.
  destruct di as [[t v]|]; [|right; left; reflexivity].
  destruct (type_eqb t any_slice); [|right; left; reflexivity].
  destruct v; eauto.
Qed.

Section sequence_of_sequences.
Variables (rt E : type) (p : ptr).
Hypothesis rt_slice : type_Kind rt = KSlice.
Hypothesis rt_elem : type_Elem rt = Some E.
Hypothesis E_sequence : type_Kind E = KSlice ∨ type_Kind E = KArray.

Lemma parseSlice_nested_cons (fuel : nat) (di : any) (rest : list any) (h : heap) :
  parseSlice (S fuel) (di :: rest) (ref rt p) h
  = (let* l := assert_anys di in
     let* err := parseSlice fuel l (ref rt p) in
     match err with
     | Some e =>
         ret (Some (Wrapf ("[parseSlice] error parsing slice field "
                           +:+ type_Name rt +:+ ": ") e))
     | None => parseSlice (S fuel) rest (ref rt p)
     end) h.
Proof.
  unfold ref. rewrite !(parseSlice_head fuel _ (PtrTo rt) rt E p) by done.
  rewrite for_each_cons, sliceElem_nested by done.
  rewrite bind_assoc. apply bind_ext. intros l h1.
  rewrite bind_assoc. apply bind_ext. intros [e|] h2; reflexivity.
Qed.

(** Binding to a sequence of sequences writes nothing and returns no
    error. *)
Lemma parseSlice_nested_inert (fuel : nat) :
  ∀ (decoded : list any) (h h' : heap) (o : outcome (option error)),
    parseSlice fuel decoded (ref rt p) h = (h', o) →
    h' = h ∧ ∀ e, o ≠ Ret (Some e).
Proof.
  induction fuel as [|fuel IH]; intros decoded.
  - intros h h' o [= <- <-]. split; [reflexivity | discriminate].
  - induction decoded as [|di rest IHl]; intros h h' o.
    + unfold ref. rewrite (parseSlice_head fuel _ (PtrTo rt) rt E p) by done.
      intros [= <- <-]. split; [reflexivity | discriminate].
    + rewrite parseSlice_nested_cons.
      destruct (assert_anys_cases di h) as [[l Hl] | [Hl | Hl]].
      * rewrite (bind_run _ _ h h l Hl). unfold bind.
        destruct (parseSlice fuel l (ref rt p) h) as [h1 o1] eqn:Hn.
        destruct (IH l h h1 o1 Hn) as [-> Ho1].
        destruct o1 as [[e|]| | |].
        -- destruct (Ho1 e eq_refl).
        -- apply IHl.
        -- intros [= <- <-]. split; [reflexivity | discriminate].
        -- intros [= <- <-]. split; [reflexivity | discriminate].
        -- intros [= <- <-]. split; [reflexivity | discriminate].
      * rewrite (bind_panics _ _ h h _ Hl).
        intros [= <- <-]. split; [reflexivity | discriminate].
      * unfold bind. rewrite Hl.
        intros [= <- <-]. split; [reflexivity | discriminate].
Qed.

(** C5, as the code has it: for a nested node list bound as an element
    of a sequence of sequences, the sequence binder calls itself with
    the same outer sequence as target and allocates no inner sequence;
    the recursive call dispatches on the same element type again, so no
    element is appended at any depth: the memory is left as it was
    whatever the outcome, no error is returned, and a nested node that
    is not a node list panics. *)
Theorem parseSlice_nested :
  (∀ fuel di rest h,
     parseSlice (S fuel) (di :: rest) (ref rt p) h
     = (let* l := assert_anys di in
        let* err := parseSlice fuel l (ref rt p) in
        match err with
        | Some e =>
            ret (Some (Wrapf ("[parseSlice] error parsing slice field "
                              +:+ type_Name rt +:+ ": ") e))
        | None => parseSlice (S fuel) rest (ref rt p)
        end) h)
  ∧ (∀ fuel decoded h h' o,
     parseSlice fuel decoded (ref rt p) h = (h', o) →
     h' = h ∧ ∀ e, o ≠ Ret (Some e))
  ∧ (∀ fuel di rest h,
     assert_ok di any_slice = None →
     parseSlice (S fuel) (di :: rest) (ref rt p) h
     = (h, Panics (InterfaceConversion (TypeOf di) any_slice))).
Proof.
  split; [|split].
  - apply parseSlice_nested_cons.
  - intros fuel. apply parseSlice_nested_inert.
  - intros fuel di rest h Hd. rewrite parseSlice_nested_cons.
    apply bind_panics. unfold assert_anys, assert_type. rewrite Hd. reflexivity.
Qed.
End sequence_of_sequences.

Lemma parseSlice_nested_witness :
  parseSlice 1 [u64 1] (ref Matrix_t (Ptr 0 [])) [VSlice []]
  = ([VSlice []], Panics (InterfaceConversion (Some (Basic TUint64)) any_slice)).
Proof.
  apply (proj2 (proj2 (parseSlice_nested Matrix_t (SliceOf (Basic TUint64)) (Ptr 0 [])
                         eq_refl eq_refl (or_introl eq_refl)))
           0 (u64 1) [] [VSlice []] eq_refl).
Defined.

(** C5 as the specification words it does not hold: the elements of a
    nested node list are not accumulated in the outer sequence.  The
    nested list [[1]] panics at its element and the outer sequence stays
    empty; the nested list [[[]]] is bound with success and the outer
    sequence stays empty as well. *)
Lemma nested_elements_are_not_accumulated :
  parseSlice 3 [lst [u64 1]] (ref Matrix_t (Ptr 0 [])) [VSlice []]
  = ([VSlice []], Panics (InterfaceConversion (Some (Basic TUint64)) any_slice))
  ∧ parseSlice 3 [lst [lst []]] (ref Matrix_t (Ptr 0 [])) [VSlice []]
    = ([VSlice []], Ret None).
Proof. split; reflexivity. Qed.

(** ** Writes and their footprint *)

Lemma set_path_twice (c c1 : val) (path : list nat) (x y : val) :
  set_path c path x = Some c1 → set_path c1 path y = set_path c path y.
Proof.
  revert c c1. induction path as [|i path IH]; intros c c1 H; simpl in *; [done|].
  destruct c; try discriminate.
  destruct (l !! i) as [f|] eqn:Hf; simpl in H; [|discriminate].
  destruct (set_path f path x) as [f1|] eqn:Hs; simpl in H; [|discriminate].
  injection H as <-. cbn [set_path].
  rewrite list_lookup_insert_eq by (eapply lookup_lt_Some; eauto). simpl.
  rewrite (IH f f1 Hs). destruct (set_path f path y); simpl; [|done].
  rewrite list_insert_insert_eq. reflexivity.
Qed.

Lemma store_twice (h h1 : heap) (q : ptr) (x y : val) :
  store h q x = Some h1 → store h1 q y = store h q y.
Proof.
  unfold store. intros H.
  destruct (h !! ploc q) as [c|] eqn:Hc; simpl in H; [|discriminate].
  destruct (set_path c (ppath q) x) as [c1|] eqn:Hs; simpl in H; [|discriminate].
  injection H as <-.
  rewrite list_lookup_insert_eq by (eapply lookup_lt_Some; eauto). simpl.
  rewrite (set_path_twice c c1 _ x y Hs).
  destruct (set_path c (ppath q) y); simpl; [|done].
  rewrite list_insert_insert_eq. reflexivity.
Qed.

Lemma set_path_get (c : val) (path : list nat) (x : val) :
  get_path c path = Some x → set_path c path x = Some c.
Proof.
  revert c. induction path as [|i path IH]; intros c H; simpl in *; [congruence|].
  destruct c; try discriminate.
  destruct (l !! i) as [f|] eqn:Hf; simpl in *; [|discriminate].
  rewrite (IH f H). simpl. rewrite list_insert_id by done. reflexivity.
Qed.

Lemma store_load (h : heap) (q : ptr) (x : val) :
  load h q = Some x → store h q x = Some h.
Proof.
  unfold store, load. intros H.
  destruct (h !! ploc q) as [c|] eqn:Hc; simpl in *; [|discriminate].
  rewrite (set_path_get c _ x H). simpl. rewrite list_insert_id by done. reflexivity.
Qed.

Lemma store_valid (h h' : heap) (q : ptr) (x : val) :
  store h q x = Some h' → ploc q < length h.
Proof.
  unfold store. intros H.
  destruct (h !! ploc q) as [c|] eqn:Hc; simpl in H; [|discriminate].
  eapply lookup_lt_Some; eauto.
Qed.

Lemma load_valid (h : heap) (q : ptr) (x : val) :
  load h q = Some x → ploc q < length h.
Proof.
  unfold load. intros H.
  destruct (h !! ploc q) as [c|] eqn:Hc; simpl in H; [|discriminate].
  eapply lookup_lt_Some; eauto.
Qed.

(** A write below the end of [h] in [h ++ e] is a write in [h]. *)
Lemma store_app_inv (h e h' : heap) (q : ptr) (x : val) :
  ploc q < length h → store (h ++ e) q x = Some h' →
  ∃ b, store h q x = Some b ∧ h' = b ++ e.
Proof.
  unfold store. intros Hlt H. rewrite lookup_app_l in H by done.
  destruct (h !! ploc q) as [c|] eqn:Hc; simpl in *; [|discriminate].
  destruct (set_path c (ppath q) x) as [c'|]; simpl in *; [|discriminate].
  injection H as <-. rewrite insert_app_l by done. eauto.
Qed.

(** A write at or after the end of [h] in [h ++ e] leaves [h] alone. *)
Lemma store_app_fresh (h e h' : heap) (c : ptr) (x : val) :
  (length h ≤ ploc c)%nat → store (h ++ e) c x = Some h' →
  ∃ e', h' = h ++ e' ∧ length e' = length e.
Proof.
  unfold store. intros Hge H.
  destruct ((h ++ e) !! ploc c) as [w|] eqn:Hc; simpl in *; [|discriminate].
  destruct (set_path w (ppath c) x) as [w'|]; simpl in *; [|discriminate].
  injection H as <-. rewrite insert_app_r_alt by done.
  eexists. split; [reflexivity|]. apply length_insert.
Qed.

Lemma load_app_fresh (h e : heap) (c : ptr) :
  (length h ≤ ploc c)%nat → load (h ++ e) c = load e (Ptr (ploc c - length h) (ppath c)).
Proof. intros Hge. unfold load. simpl. rewrite lookup_app_r by done. reflexivity. Qed.

Lemma load_app_inv (h e : heap) (q : ptr) :
  ploc q < length h → load (h ++ e) q = load h q.
Proof. intros Hlt. unfold load. rewrite lookup_app_l by done. reflexivity. Qed.

(** Paths that end in a field. *)
Lemma get_path_snoc (c : val) (path : list nat) (i : nat) :
  get_path c (path ++ [i])
  = v ← get_path c path; match v with VStruct vs => vs !! i | _ => None end.
Proof.
  revert c. induction path as [|j path IH]; intros c; simpl.
  - destruct c; try reflexivity. destruct (l !! i); reflexivity.
  - destruct c; try reflexivity. destruct (l !! j) as [f|]; simpl; [apply IH | reflexivity].
Qed.

Lemma set_path_snoc (c : val) (path : list nat) (i : nat) (x : val) (vs : list val) :
  get_path c path = Some (VStruct vs) → i < length vs →
  set_path c (path ++ [i]) x = set_path c path (VStruct (<[i:=x]> vs)).
Proof.
  revert c. induction path as [|j path IH]; intros c H Hi; simpl in *.
  - injection H as ->. destruct (lookup_lt_is_Some_2 vs i Hi) as [f ->]. reflexivity.
  - destruct c; try discriminate.
    destruct (l !! j) as [f|]; simpl in *; [|discriminate].
    rewrite (IH f H Hi). reflexivity.
Qed.

Lemma load_field (h : heap) (q : ptr) (i : nat) (vs : list val) :
  load h q = Some (VStruct vs) → load h (field_ptr q i) = vs !! i.
Proof.
  unfold load, field_ptr. simpl. intros H.
  destruct (h !! ploc q) as [c|]; simpl in *; [|discriminate].
  rewrite get_path_snoc, H. reflexivity.
Qed.

Lemma store_field (h : heap) (q : ptr) (i : nat) (x : val) (vs : list val) :
  load h q = Some (VStruct vs) → i < length vs →
  store h (field_ptr q i) x = store h q (VStruct (<[i:=x]> vs)).
Proof.
  unfold load, store, field_ptr. simpl. intros H Hi.
  destruct (h !! ploc q) as [c|]; simpl in *; [|discriminate].
  rewrite (set_path_snoc c _ i x vs H Hi). reflexivity.
Qed.

(** *** [rewritten_at] *)

Lemma rewritten_refl (q : ptr) (h : heap) : is_Some (load h q) → rewritten_at q h h.
Proof.
  intros [x Hx]. exists x, h, []. split; [apply store_load, Hx | symmetry; apply app_nil_r].
Qed.

Lemma rewritten_alloc (q : ptr) (h h1 e : heap) :
  rewritten_at q h h1 → rewritten_at q h (h1 ++ e).
Proof.
  intros (v & b & ext & Hs & ->). exists v, b, (ext ++ e).
  split; [done | symmetry; apply app_assoc].
Qed.

Lemma rewritten_store (q : ptr) (h h1 h2 : heap) (x : val) :
  rewritten_at q h h1 → store h1 q x = Some h2 → rewritten_at q h h2.
Proof.
  intros (v & b & ext & Hs & ->) H.
  apply store_app_inv in H as (b' & Hb' & ->);
    [|rewrite (store_length _ _ _ _ Hs); eapply store_valid; eauto].
  rewrite (store_twice _ _ _ _ _ Hs) in Hb'. exists x, b', ext. done.
Qed.

Lemma rewritten_store_fresh (q c : ptr) (h h1 h2 : heap) (x : val) :
  rewritten_at q h h1 → (length h ≤ ploc c)%nat → store h1 c x = Some h2 →
  rewritten_at q h h2.
Proof.
  intros (v & b & ext & Hs & ->) Hge H.
  apply store_app_fresh in H as (e' & -> & _);
    [|rewrite (store_length _ _ _ _ Hs); done].
  exists v, b, e'. done.
Qed.

Lemma rewritten_trans (q : ptr) (h h1 h2 : heap) :
  rewritten_at q h h1 → rewritten_at q h1 h2 → rewritten_at q h h2.
Proof.
  intros H1 (v & b & ext & Hs & ->).
  apply rewritten_alloc. eapply rewritten_store; eauto.
Qed.

Lemma rewritten_trans_fresh (q c : ptr) (h h1 h2 : heap) :
  rewritten_at q h h1 → (length h ≤ ploc c)%nat → rewritten_at c h1 h2 →
  rewritten_at q h h2.
Proof.
  intros H1 Hge (v & b & ext & Hs & ->).
  apply rewritten_alloc. eapply rewritten_store_fresh; eauto.
Qed.

Lemma rewritten_length (q : ptr) (h h' : heap) :
  rewritten_at q h h' → (length h ≤ length h')%nat.
Proof.
  intros (v & b & ext & Hs & ->). rewrite length_app, (store_length _ _ _ _ Hs). lia.
Qed.

Lemma rewritten_valid (q : ptr) (h h' : heap) :
  rewritten_at q h h' → ploc q < length h.
Proof. intros (v & b & ext & Hs & ->). eapply store_valid; eauto. Qed.

(** A variable other than the rewritten one, in another cell of the old
    memory, keeps its value. *)
Lemma rewritten_load_other (q r : ptr) (h h' : heap) :
  rewritten_at q h h' → ploc r < length h → ploc r ≠ ploc q →
  load h' r = load h r.
Proof.
  intros (v & b & ext & Hs & ->) Hlt Hne.
  rewrite load_app_inv by (rewrite (store_length _ _ _ _ Hs); done).
  unfold store in Hs. unfold load.
  destruct (h !! ploc q) as [c|]; simpl in Hs; [|discriminate].
  destruct (set_path c (ppath q) v) as [c'|]; simpl in Hs; [|discriminate].
  injection Hs as <-. rewrite list_lookup_insert_ne by done. reflexivity.
Qed.

(** ** Computations that do not write *)

Lemma pure_ret {A} (a : A) : pure (ret a).
Proof. intros h. reflexivity. Qed.

Lemma pure_throw {A} (p : panic) : pure (@throw A p).
Proof. intros h. reflexivity. Qed.

Lemma pure_fault {A} : pure (@fault A).
Proof. intros h. reflexivity. Qed.

Lemma pure_bind {A B} (m : M A) (k : A → M B) :
  pure m → (∀ a, pure (k a)) → pure (bind m k).
Proof.
  intros Hm Hk h. unfold bind. specialize (Hm h).
  destruct (m h) as [h1 [a|p| |]]; simpl in *; subst; auto. apply Hk.
Qed.

Lemma pure_from_option {A} (o : option A) (p : panic) : pure (from_option o p).
Proof. destruct o; [apply pure_ret | apply pure_throw]. Qed.

Lemma pure_Value_get (m : string) (v : Value) : pure (Value_get m v).
Proof.
  destruct v; try apply pure_ret; try apply pure_throw.
  intros h. unfold Value_get. destruct (load h p); reflexivity.
Qed.

Lemma pure_Value_Type (v : Value) : pure (Value_Type v).
Proof. destruct v; try apply pure_ret; apply pure_throw. Qed.

Lemma pure_Type_Elem (t : type) : pure (Type_Elem t).
Proof. apply pure_from_option. Qed.

Ltac pure_tac :=
  repeat first
    [ apply pure_ret | apply pure_throw | apply pure_fault
    | apply pure_from_option | apply pure_Value_get | apply pure_Value_Type
    | apply pure_Type_Elem | assumption
    | apply pure_bind; [|intros ?]
    | match goal with
      | |- pure (match ?x with _ => _ end) => destruct x
      end ].

Lemma pure_Value_IsNil (v : Value) : pure (Value_IsNil v).
Proof. unfold Value_IsNil. pure_tac. Qed.

Lemma pure_Value_Elem (v : Value) : pure (Value_Elem v).
Proof. unfold Value_Elem. pure_tac. Qed.

Lemma pure_Value_NumField (v : Value) : pure (Value_NumField v).
Proof. unfold Value_NumField. pure_tac. Qed.

Lemma pure_Value_Field (v : Value) (i : nat) : pure (Value_Field v i).
Proof. unfold Value_Field. pure_tac. Qed.

Lemma pure_assignTo (x : Value) (t : type) : pure (assignTo x t).
Proof. unfold assignTo. pure_tac. Qed.

Lemma pure_Value_Interface (v : Value) : pure (Value_Interface v).
Proof. unfold Value_Interface. pure_tac. Qed.

Lemma pure_Value_Addr (v : Value) : pure (Value_Addr v).
Proof. unfold Value_Addr. pure_tac. Qed.

Lemma pure_reflect_Append (s x : Value) : pure (reflect_Append s x).
Proof. unfold reflect_Append. pure_tac; try apply pure_assignTo. Qed.

Lemma pure_Value_CanConvert (v : Value) (t : type) : pure (Value_CanConvert v t).
Proof. unfold Value_CanConvert. pure_tac. Qed.

Lemma pure_Value_Convert (v : Value) (t : type) : pure (Value_Convert v t).
Proof. unfold Value_Convert. pure_tac. Qed.

Lemma pure_index {A} (l : list A) (i : nat) : pure (index l i).
Proof. apply pure_from_option. Qed.

Lemma pure_assert_type (x : any) (t : type) : pure (assert_type x t).
Proof. apply pure_from_option. Qed.

Lemma pure_assert_anys (x : any) : pure (assert_anys x).
Proof. unfold assert_anys. pure_tac; try apply pure_assert_type. Qed.

Lemma pure_assert_string (x : any) : pure (assert_string x).
Proof. unfold assert_string. pure_tac; try apply pure_assert_type. Qed.

Lemma pure_rtype_String (t : option type) : pure (rtype_String t).
Proof. unfold rtype_String. pure_tac. Qed.

Lemma pure_is_plain_pointer (t : type) : pure (is_plain_pointer t).
Proof. unfold is_plain_pointer. pure_tac. Qed.

Lemma pure_not_pointer_or_nil (v : Value) : pure (not_pointer_or_nil v).
Proof. unfold not_pointer_or_nil. pure_tac; try apply pure_Value_IsNil. Qed.

Create HintDb pure.

#[global] Hint Resolve pure_ret pure_throw pure_fault pure_from_option
  pure_Value_get pure_Value_Type pure_Type_Elem pure_Value_IsNil pure_Value_Elem
  pure_Value_NumField pure_Value_Field pure_assignTo pure_Value_Interface
  pure_Value_Addr pure_reflect_Append pure_Value_CanConvert pure_Value_Convert
  pure_index pure_assert_type pure_assert_anys pure_assert_string
  pure_rtype_String pure_is_plain_pointer pure_not_pointer_or_nil : pure.

(** The run of a sequence whose head does not write. *)
Lemma bind_pure_inv {A B} (m : M A) (k : A → M B) (h h' : heap) (o : outcome B) :
  pure m → bind m k h = (h', o) →
  (∃ a, m h = (h, Ret a) ∧ k a h = (h', o)) ∨ (h' = h ∧ ∀ b, o ≠ Ret b).
Proof.
  intros Hm. unfold bind. specialize (Hm h).
  destruct (m h) as [h1 [a|p| |]]; simpl in Hm; subst h1.
  - left. eauto.
  - intros [= <- <-]. right. split; [reflexivity | discriminate].
  - intros [= <- <-]. right. split; [reflexivity | discriminate].
  - intros [= <- <-]. right. split; [reflexivity | discriminate].
Qed.

Lemma bind_inv {A B} (m : M A) (k : A → M B) (h h' : heap) (o : outcome B) :
  bind m k h = (h', o) →
  (∃ a h1, m h = (h1, Ret a) ∧ k a h1 = (h', o))
  ∨ (∃ o1, m h = (h', o1) ∧ (∀ a, o1 ≠ Ret a) ∧ ∀ b, o ≠ Ret b).
Proof.
  unfold bind. destruct (m h) as [h1 [a|p| |]].
  - left. eauto.
  - intros [= <- <-]. right. eexists. repeat split; discriminate.
  - intros [= <- <-]. right. eexists. repeat split; discriminate.
  - intros [= <- <-]. right. eexists. repeat split; discriminate.
Qed.

Lemma pure_run {A} (m : M A) (h h' : heap) (o : outcome A) :
  pure m → m h = (h', o) → h' = h.
Proof. intros Hm H. specialize (Hm h). rewrite H in Hm. exact Hm. Qed.

Lemma ret_inv {A} (a : A) (h h' : heap) (o : outcome A) :
  ret a h = (h', o) → h' = h ∧ o = Ret a.
Proof. intros [= <- <-]. auto. Qed.

(** What [Value.Set] does to the memory. *)
Lemma Value_Set_inv (v x : Value) (h h' : heap) (o : outcome unit) :
  Value_Set v x h = (h', o) →
  (h' = h ∧ o ≠ Ret tt)
  ∨ (∃ t p xv, v = Lval t p false ∧ assignTo x t h = (h, Ret xv)
               ∧ store h p xv = Some h' ∧ o = Ret tt).
Proof.
  unfold Value_Set.
  destruct v as [|t v ro|t p ro];
    try (destruct ro); try (intros [= <- <-]; left; split; [reflexivity|discriminate]).
  destruct x as [|xt xv xro|xt xp xro];
    try (intros [= <- <-]; left; split; [reflexivity|discriminate]).
  - simpl Value_ro. destruct xro;
      [intros [= <- <-]; left; split; [reflexivity|discriminate]|].
    intros H. apply bind_pure_inv in H as [(xv' & Ha & H) | (-> & Ho)]; [| |auto with pure].
    + destruct (store h p xv') eqn:Hs; injection H as <- <-.
      * right. eauto 10.
      * left. split; [reflexivity|discriminate].
    + left. split; [reflexivity|apply Ho].
  - simpl Value_ro. destruct xro;
      [intros [= <- <-]; left; split; [reflexivity|discriminate]|].
    intros H. apply bind_pure_inv in H as [(xv' & Ha & H) | (-> & Ho)]; [| |auto with pure].
    + destruct (store h p xv') eqn:Hs; injection H as <- <-.
      * right. eauto 10.
      * left. split; [reflexivity|discriminate].
    + left. split; [reflexivity|apply Ho].
Qed.

(** ** Zero values *)

Lemma zero_ptr (t : type) : type_Kind t = KPtr → zero t = VPtr None.
Proof. induction t as [[]| | | | | |]; simpl; try discriminate; auto. Qed.

Lemma zero_slice (t : type) : type_Kind t = KSlice → zero t = VSlice [].
Proof. induction t as [[]| | | | | |]; simpl; try discriminate; auto. Qed.

Lemma zero_struct (t : type) :
  type_Kind t = KStruct →
  zero t = VStruct (map (fun f => zero (snd f)) (struct_fields t)).
Proof.
  unfold struct_fields.
  induction t as [[]| | | | | |]; simpl; try discriminate; auto.
Qed.

(** ** The footprint of the binder

    Each of the three functions, called on a target that holds the zero
    value of its type (or, for [parseSlice], on any sequence), writes to
    its target and to the storage it allocates, and to nothing else. *)

Lemma keeps_pure {A} (G : heap → Prop) (m : M A) (h : heap) :
  pure m → G h → keeps G m h.
Proof. intros Hm HG h' o H. rewrite (pure_run m h h' o Hm H). exact HG. Qed.

Lemma keeps_ret {A} (G : heap → Prop) (a : A) (h : heap) : G h → keeps G (ret a) h.
Proof. apply keeps_pure, pure_ret. Qed.

Lemma keeps_bind {A B} (G : heap → Prop) (m : M A) (k : A → M B) (h : heap) :
  keeps G m h →
  (∀ a h1, m h = (h1, Ret a) → keeps G (k a) h1) →
  keeps G (bind m k) h.
Proof.
  intros Hm Hk h' o H.
  apply bind_inv in H as [(a & h1 & Hr & H) | (o1 & Hr & _)]; [|eapply Hm; eauto].
  eapply Hk; eauto.
Qed.

Lemma keeps_bind_pure {A B} (G : heap → Prop) (m : M A) (k : A → M B) (h : heap) :
  pure m → G h →
  (∀ a, m h = (h, Ret a) → keeps G (k a) h) →
  keeps G (bind m k) h.
Proof.
  intros Hm HG Hk. apply keeps_bind; [apply keeps_pure; assumption|].
  intros a h1 Hr. pose proof (pure_run m h h1 _ Hm Hr) as ->. auto.
Qed.

Ltac kpure :=
  apply keeps_bind_pure; [solve [auto with pure] | solve [eauto] | intros ? ?].

Lemma Value_Interface_lval (t : type) (p : ptr) (x : val) (h : heap) :
  type_Kind t ≠ KInterface → load h p = Some x →
  Value_Interface (Lval t p false) h = (h, Ret (Some (t, x))).
Proof.
  intros Hk Hl. unfold Value_Interface, Value_ro.
  rewrite (bind_run (Value_get "Interface" (Lval t p false)) _ h h x)
    by (apply Value_get_lval; eauto).
  unfold Value_Type. rewrite bind_ret. unfold Value_Kind.
  destruct (type_Kind t); try contradiction; reflexivity.
Qed.

Lemma Type_Elem_inv (t e : type) (h h' : heap) :
  Type_Elem t h = (h', Ret e) → type_Elem t = Some e.
Proof.
  unfold Type_Elem. destruct (type_Elem t); [|discriminate].
  intros [_ [= ->]]%ret_inv. reflexivity.
Qed.

(** Allocating a pointee and setting the pointer variable to it. *)
Lemma New_Set_inv (ft e : type) (fq : ptr) (ro : bool) (h h1 : heap) (u : unit) :
  type_Kind ft = KPtr → type_Elem ft = Some e →
  (let* np := reflect_New e in Value_Set (Lval ft fq ro) np) h = (h1, Ret u) →
  ro = false
  ∧ store (h ++ [zero e]) fq (VPtr (Some (Ptr (length h) []))) = Some h1.
Proof.
  intros Hk He H.
  rewrite (bind_run (reflect_New e) _ h _ _ (reflect_New_run e h)) in H.
  apply Value_Set_inv in H as [[_ Ho] | (t & p & xv & [= -> -> ->] & Ha & Hs & _)].
  - destruct u. contradiction.
  - rewrite assignTo_direct in Ha by (apply directlyAssignable_ptr; done).
    apply ret_inv in Ha as [_ [= <-]]. auto.
Qed.

Lemma keeps_bind_ret {A B} (G : heap → Prop) (m : M A) (f : A → B) (h : heap) :
  keeps G m h → keeps G (let* x := m in ret (f x)) h.
Proof.
  intros K. apply keeps_bind; [exact K|].
  intros a h1 Hr. apply keeps_ret. eapply K; eauto.
Qed.

Lemma Value_Interface_direct_inv (t : type) (p : ptr) (ro : bool) (a : any) (h h' : heap) :
  Value_Interface (Direct (PtrTo t) (VPtr (Some p)) ro) h = (h', Ret a) →
  a = ref t p.
Proof.
  unfold Value_Interface, Value_ro, Value_get, Value_Type, Value_Kind.
  destruct ro; [discriminate|]. rewrite !bind_ret. simpl.
  intros [_ [= ->]]%ret_inv. reflexivity.
Qed.

Section frame_bodies.
Variable pStruct : list any → any → M (option error).
Variable pSlice : list any → any → M (option error).
Variable pPointer : list any → Value → M (option error).

Hypothesis pStruct_frame :
  ∀ decoded pt T q h,
    type_Kind pt = KPtr → type_Elem pt = Some T → load h q = Some (zero T) →
    keeps (rewritten_at q h) (pStruct decoded (Some (pt, VPtr (Some q)))) h.
Hypothesis pSlice_frame :
  ∀ decoded pt rt q h,
    type_Kind pt = KPtr → type_Elem pt = Some rt → is_Some (load h q) →
    (type_Kind rt = KSlice → ∃ old, load h q = Some (VSlice old)) →
    keeps (rewritten_at q h) (pSlice decoded (Some (pt, VPtr (Some q)))) h.
Hypothesis pPointer_frame :
  ∀ decoded ft fq ro h,
    type_Kind ft = KPtr → load h fq = Some (VPtr None) →
    keeps (rewritten_at fq h) (pPointer decoded (Lval ft fq ro)) h.

(** A write to the field itself. *)
Lemma Value_Set_frame (ft : type) (fq : ptr) (ro : bool) (x : Value) (h0 h : heap) :
  rewritten_at fq h0 h → keeps (rewritten_at fq h0) (Value_Set (Lval ft fq ro) x) h.
Proof.
  intros G h' o H.
  apply Value_Set_inv in H as [[-> _] | (t & p & xv & [= -> -> ->] & _ & Hs & _)].
  - exact G.
  - eapply rewritten_store; eauto.
Qed.

Lemma Set_then_ret_frame (ft : type) (fq : ptr) (ro : bool) (x : Value)
    (r : option error) (h0 h : heap) :
  rewritten_at fq h0 h →
  keeps (rewritten_at fq h0) (Value_Set (Lval ft fq ro) x ;;; ret r) h.
Proof.
  intros G. apply keeps_bind; [apply Value_Set_frame, G|].
  intros a h1 Hr. apply keeps_ret. eapply Value_Set_frame; eauto.
Qed.

(** A pointer field that holds nil, to a struct: lines 38 to 41. *)
Lemma bindField_new_struct_frame (ft e : type) (fq : ptr) (ro : bool) (di : any) (h : heap) :
  type_Kind ft = KPtr → type_Elem ft = Some e → load h fq = Some (VPtr None) →
  keeps (rewritten_at fq h)
    (let* isnil := Value_IsNil (Lval ft fq ro) in
     (if isnil then let* np := reflect_New e in Value_Set (Lval ft fq ro) np
      else ret tt) ;;;
     let* l := assert_anys di in
     let* fi := Value_Interface (Lval ft fq ro) in
     pStruct l fi) h.
Proof.
  intros Hk He Hz.
  assert (rewritten_at fq h h) as G by (apply rewritten_refl; eauto).
  kpure. rewrite (Value_IsNil_lval ft fq ro None h Hk Hz) in H.
  injection H as <-.
  apply keeps_bind.
  { apply keeps_bind.
    - intros h' o. rewrite reflect_New_run. intros [= <- <-].
      apply rewritten_alloc, G.
    - intros np h1. rewrite reflect_New_run. intros [= <- <-].
      apply Value_Set_frame, rewritten_alloc, G. }
  intros u h1 Hr. apply New_Set_inv in Hr as [-> Hst]; [|done..].
  assert (rewritten_at fq h h1) as G1.
  { eapply rewritten_store; [apply rewritten_alloc, G | exact Hst]. }
  kpure. kpure.
  pose proof (load_store _ _ _ _ Hst) as Hl1.
  rewrite (Value_Interface_lval ft fq _ h1 ltac:(rewrite Hk; discriminate) Hl1) in H0.
  injection H0 as <-.
  intros h' o Hrun.
  eapply (rewritten_trans_fresh fq (Ptr (length h) [])); [exact G1 | simpl; lia |].
  eapply pStruct_frame; eauto.
  pose proof (load_valid _ _ _ Hz) as Hlt.
  destruct (store_app_inv h [zero e] h1 fq _ Hlt Hst) as (b & Hb & ->).
  rewrite load_app_fresh by (simpl; rewrite (store_length _ _ _ _ Hb); done).
  simpl. rewrite (store_length _ _ _ _ Hb), Nat.sub_diag. reflexivity.
Qed.

(** The dispatch on a field that holds the zero value of its type
    writes to the field and to new storage only. *)
Lemma bindField_frame (ft : type) (fq : ptr) (ro : bool) (di : any) (h : heap) :
  load h fq = Some (zero ft) →
  keeps (rewritten_at fq h) (bindField pStruct pSlice pPointer (Lval ft fq ro) di) h.
Proof.
  intros Hz.
  assert (rewritten_at fq h h) as G by (apply rewritten_refl; eauto).
  unfold bindField. unfold Value_Type at 1. rewrite bind_ret.
  kpure. destruct a.
  - (* a pointer to a type that is not special *)
    unfold is_plain_pointer in H.
    destruct (decide (type_Kind ft = KPtr)) as [Hk|]; [|discriminate].
    kpure. apply Type_Elem_inv in H0. rewrite (zero_ptr ft Hk) in Hz.
    apply keeps_bind_ret.
    destruct (decide (type_Kind a = KStruct)).
    + apply bindField_new_struct_frame; done.
    + apply pPointer_frame; done.
  - unfold Value_Kind.
    destruct (decide (type_Kind ft = KStruct)).
    { (* a struct *)
      kpure. unfold Value_Addr. rewrite bind_ret. kpure.
      apply Value_Interface_direct_inv in H1 as ->.
      apply keeps_bind_ret. apply (pStruct_frame _ (PtrTo ft) ft); done. }
    destruct (bool_decide (type_Kind ft = KSlice) || bool_decide (type_Kind ft = KArray)).
    { (* a slice or an array *)
      kpure. destruct (_ || _).
      { kpure. apply Set_then_ret_frame, G. }
      destruct (String.eqb a "string").
      { destruct (String.eqb _ "common.Address").
        - kpure. apply Set_then_ret_frame, G.
        - apply Set_then_ret_frame, G. }
      kpure. unfold Value_Addr. rewrite bind_ret. kpure.
      apply Value_Interface_direct_inv in H2 as ->.
      apply keeps_bind_ret. apply (pSlice_frame _ (PtrTo ft) ft); eauto.
      intros Hs. rewrite (zero_slice ft Hs) in Hz. eauto. }
    destruct (decide (type_Kind ft = KPtr)).
    { (* a pointer to a special leaf *)
      kpure. destruct (String.eqb _ "big.Int").
      { destruct (assert_ok di (PtrTo big_Int)).
        - apply Set_then_ret_frame, G.
        - apply keeps_ret, G. }
      destruct (String.eqb _ "common.Address"); [|apply keeps_ret, G].
      kpure. apply keeps_bind.
      - intros h' o [= <- <-]. apply rewritten_alloc, G.
      - intros addr h1 [= <- <-]. apply Set_then_ret_frame, rewritten_alloc, G. }
    destruct (String.eqb _ "common.Address").
    { kpure. apply Set_then_ret_frame, G. }
    kpure. destruct (type_eqb a ft); [apply Set_then_ret_frame, G|].
    kpure. destruct a0; [|apply keeps_ret, G].
    kpure. apply Set_then_ret_frame, G.
Qed.
End frame_bodies.

Lemma keeps_weaken {A} (G G' : heap → Prop) (m : M A) (h : heap) :
  (∀ h', G h' → G' h') → keeps G m h → keeps G' m h.
Proof. intros HG K h' o H. eauto. Qed.

(** A rewrite of one field of a struct that has been rewritten is a
    rewrite of the struct. *)
Lemma rewritten_field (q : ptr) (i : nat) (vs : list val) (h0 b ext h' : heap) :
  store h0 q (VStruct vs) = Some b → i < length vs →
  rewritten_at (field_ptr q i) (b ++ ext) h' →
  ∃ x b' ext', store h0 q (VStruct (<[i:=x]> vs)) = Some b' ∧ h' = b' ++ ext'.
Proof.
  intros Hb Hi (x & b1 & e1 & Hs & ->).
  apply store_app_inv in Hs as (b2 & Hb2 & ->);
    [|simpl; rewrite (store_length _ _ _ _ Hb); eapply store_valid; eauto].
  rewrite (store_field b q i x vs) in Hb2 by (eauto using load_store).
  rewrite (store_twice _ _ _ _ _ Hb) in Hb2.
  exists x, b2, (ext ++ e1). split; [done | symmetry; apply app_assoc].
Qed.

Section parseStruct_frame.
Variable pStruct : list any → any → M (option error).
Variable pSlice : list any → any → M (option error).
Variable pPointer : list any → Value → M (option error).

Hypothesis pStruct_frame :
  ∀ decoded pt T q h,
    type_Kind pt = KPtr → type_Elem pt = Some T → load h q = Some (zero T) →
    keeps (rewritten_at q h) (pStruct decoded (Some (pt, VPtr (Some q)))) h.
Hypothesis pSlice_frame :
  ∀ decoded pt rt q h,
    type_Kind pt = KPtr → type_Elem pt = Some rt → is_Some (load h q) →
    (type_Kind rt = KSlice → ∃ old, load h q = Some (VSlice old)) →
    keeps (rewritten_at q h) (pSlice decoded (Some (pt, VPtr (Some q)))) h.
Hypothesis pPointer_frame :
  ∀ decoded ft fq ro h,
    type_Kind ft = KPtr → load h fq = Some (VPtr None) →
    keeps (rewritten_at fq h) (pPointer decoded (Lval ft fq ro)) h.

(** The head of [parseStruct], over any functions for the nested
    calls. *)
Lemma parseStruct_body_head (decoded : list any) (pt T : type) (p : ptr) :
  type_Kind pt = KPtr → type_Elem pt = Some T → type_Kind T = KStruct →
  parseStruct_body pStruct pSlice pPointer decoded (Some (pt, VPtr (Some p)))
  = if negb (length decoded =? length (struct_fields T))%nat
       && negb (String.eqb (type_String T) "big.Int")
       && negb (String.eqb (type_String T) "common.Address")
    then ret (Some ShapeMismatch)
    else for_each (structField pStruct pSlice pPointer decoded (Lval T p false))
           (seq 0 (length (struct_fields T))).
Proof.
  intros Hp He Hs.
  unfold parseStruct_body, not_pointer_or_nil, ValueOf, Value_Kind.
  rewrite decide_True by done.
  rewrite Value_IsNil_direct, bind_ret by done. simpl.
  rewrite (Value_Elem_direct pt T), bind_ret by done.
  rewrite decide_True by done.
  rewrite Value_NumField_struct, bind_ret by done. reflexivity.
Qed.

Lemma parseStruct_body_not_struct (decoded : list any) (pt T : type) (p : ptr) :
  type_Kind pt = KPtr → type_Elem pt = Some T → type_Kind T ≠ KStruct →
  parseStruct_body pStruct pSlice pPointer decoded (Some (pt, VPtr (Some p)))
  = ret (Some (Errorf "[parseStruct] v must be a struct pointer")).
Proof.
  intros Hp He Hs.
  unfold parseStruct_body, not_pointer_or_nil, ValueOf, Value_Kind.
  rewrite decide_True by done.
  rewrite Value_IsNil_direct, bind_ret by done. simpl.
  rewrite (Value_Elem_direct pt T), bind_ret by done.
  rewrite decide_False by done. reflexivity.
Qed.

Section loop.
Variables (decoded : list any) (T : type) (q : ptr) (h0 : heap).
Hypothesis T_struct : type_Kind T = KStruct.

Local Abbreviation at_field := (fields_from T q h0).

Lemma structField_frame (i : nat) (h : heap) :
  i < length (struct_fields T) → at_field i h →
  keeps (at_field (S i)) (structField pStruct pSlice pPointer decoded (Lval T q false) i) h.
Proof.
  intros Hi (vs & b & ext & Hb & -> & Hlen & Hz).
  assert (at_field (S i) (b ++ ext)) as G.
  { exists vs, b, ext. repeat split; auto. intros j Hj. apply Hz. lia. }
  destruct (lookup_lt_is_Some_2 _ _ Hi) as [[n ft] Hf].
  unfold structField.
  rewrite (Value_Field_lval T q false i n ft), bind_ret by done.
  kpure.
  assert (load (b ++ ext) (field_ptr q i) = Some (zero ft)) as Hl.
  { rewrite load_app_inv
      by (simpl; rewrite (store_length _ _ _ _ Hb); eapply store_valid; eauto).
    rewrite (load_field b q i vs) by (eauto using load_store).
    rewrite Hz, Hf by done. reflexivity. }
  eapply keeps_weaken; [|apply (bindField_frame pStruct pSlice pPointer); eauto].
  intros h' Hr.
  destruct (rewritten_field q i vs h0 b ext h' Hb) as (x & b' & ext' & Hb' & ->);
    [lia | exact Hr |].
  exists (<[i:=x]> vs), b', ext'. repeat split; auto.
  - rewrite length_insert. exact Hlen.
  - intros j Hj. rewrite list_lookup_insert_ne by lia. apply Hz. lia.
Qed.

Lemma fields_loop_frame (k : nat) :
  ∀ i h, i + k = length (struct_fields T) → at_field i h →
    keeps (rewritten_at q h0)
      (for_each (structField pStruct pSlice pPointer decoded (Lval T q false)) (seq i k)) h.
Proof.
  induction k as [|k IH]; intros i h Hik G.
  - simpl seq. rewrite for_each_nil. apply keeps_ret.
    destruct G as (vs & b & ext & Hb & -> & _). exists (VStruct vs), b, ext. done.
  - simpl seq. rewrite for_each_cons.
    apply keeps_bind.
    + eapply keeps_weaken; [|apply structField_frame; [lia | exact G]].
      intros h' (vs & b & ext & Hb & -> & _). exists (VStruct vs), b, ext. done.
    + intros e h1 Hr.
      pose proof (structField_frame i h ltac:(lia) G h1 _ Hr) as G1.
      destruct e as [err|].
      * apply keeps_ret. destruct G1 as (vs & b & ext & Hb & -> & _).
        exists (VStruct vs), b, ext. done.
      * apply IH; [lia | exact G1].
Qed.
End loop.

Lemma parseStruct_body_frame (decoded : list any) (pt T : type) (q : ptr) (h : heap) :
  type_Kind pt = KPtr → type_Elem pt = Some T → load h q = Some (zero T) →
  keeps (rewritten_at q h)
    (parseStruct_body pStruct pSlice pPointer decoded (Some (pt, VPtr (Some q)))) h.
Proof.
  intros Hp He Hz.
  assert (rewritten_at q h h) as G by (apply rewritten_refl; eauto).
  destruct (decide (type_Kind T = KStruct)) as [Hs|Hs].
  - rewrite (parseStruct_body_head decoded pt T q) by done.
    destruct (_ && _); [apply keeps_ret, G|].
    apply (fields_loop_frame decoded T q h Hs _ 0); [reflexivity|].
    rewrite (zero_struct T Hs) in Hz.
    eexists _, h, []. split; [apply store_load, Hz|].
    split; [symmetry; apply app_nil_r|]. split; [apply length_map|].
    intros j _. apply list_lookup_fmap.
  - rewrite (parseStruct_body_not_struct decoded pt T q) by done.
    apply keeps_ret, G.
Qed.
End parseStruct_frame.

(** A write to new storage. *)
Lemma Set_fresh_frame (t : type) (c : ptr) (ro : bool) (x : Value) (r : option error)
    (q : ptr) (h0 h : heap) :
  rewritten_at q h0 h → length h0 ≤ ploc c →
  keeps (rewritten_at q h0) (Value_Set (Lval t c ro) x ;;; ret r) h.
Proof.
  intros G Hc.
  assert (keeps (rewritten_at q h0) (Value_Set (Lval t c ro) x) h) as K.
  { intros h' o H.
    apply Value_Set_inv in H as [[-> _] | (t' & p & xv & [= -> -> ->] & _ & Hs & _)].
    - exact G.
    - eapply rewritten_store_fresh; eauto. }
  apply keeps_bind; [exact K|].
  intros a h1 Hr. apply keeps_ret. eapply K; eauto.
Qed.

Section parsePointer_frame.
Variable pStruct : list any → any → M (option error).
Variable pSlice : list any → any → M (option error).

Hypothesis pStruct_frame :
  ∀ decoded pt T q h,
    type_Kind pt = KPtr → type_Elem pt = Some T → load h q = Some (zero T) →
    keeps (rewritten_at q h) (pStruct decoded (Some (pt, VPtr (Some q)))) h.
Hypothesis pSlice_frame :
  ∀ decoded pt rt q h,
    type_Kind pt = KPtr → type_Elem pt = Some rt → is_Some (load h q) →
    (type_Kind rt = KSlice → ∃ old, load h q = Some (VSlice old)) →
    keeps (rewritten_at q h) (pSlice decoded (Some (pt, VPtr (Some q)))) h.

(** [parsePointer] on a pointer variable that holds nil. *)
Lemma parsePointer_body_frame_nil (decoded : list any) (ft : type) (fq : ptr)
    (ro : bool) (h : heap) :
  type_Kind ft = KPtr → load h fq = Some (VPtr None) →
  keeps (rewritten_at fq h)
    (parsePointer_body pStruct pSlice decoded (Lval ft fq ro)) h.
Proof.
  intros Hk Hz.
  assert (rewritten_at fq h h) as G by (apply rewritten_refl; eauto).
  unfold parsePointer_body, Value_Kind. rewrite decide_True by done.
  unfold Value_Type at 1. rewrite bind_ret.
  kpure. apply Type_Elem_inv in H. rename a into e.
  kpure. rewrite (Value_IsNil_lval ft fq ro None h Hk Hz) in H0.
  injection H0 as <-.
  apply keeps_bind.
  { apply keeps_bind.
    - intros h' o. rewrite reflect_New_run. intros [= <- <-].
      apply rewritten_alloc, G.
    - intros np h1. rewrite reflect_New_run. intros [= <- <-].
      apply Value_Set_frame, rewritten_alloc, G. }
  intros u h1 Hr. apply New_Set_inv in Hr as [-> Hst]; [|done..].
  assert (rewritten_at fq h h1) as G1.
  { eapply rewritten_store; [apply rewritten_alloc, G | exact Hst]. }
  pose proof (load_store _ _ _ _ Hst) as Hl1.
  pose proof (load_valid _ _ _ Hz) as Hlt.
  assert (load h1 (Ptr (length h) []) = Some (zero e)) as Hc.
  { destruct (store_app_inv h [zero e] h1 fq _ Hlt Hst) as (b & Hb & ->).
    rewrite load_app_fresh by (simpl; rewrite (store_length _ _ _ _ Hb); done).
    simpl. rewrite (store_length _ _ _ _ Hb), Nat.sub_diag. reflexivity. }
  assert (keeps (rewritten_at fq h)
            (let* el := Value_Elem (Lval ft fq false) in
             Value_Set el (Direct any_slice (anys_val decoded) false) ;;; ret (@None error)) h1)
    as Kdefault.
  { kpure. rewrite (Value_Elem_lval ft e fq _ false h1 Hk H Hl1) in H0.
    injection H0 as <-. apply Set_fresh_frame; [exact G1 | simpl; lia]. }
  destruct (type_Kind e) eqn:Hke; try exact Kdefault.
  - (* an array *)
    unfold Value_Addr. rewrite bind_ret. kpure.
    apply Value_Interface_direct_inv in H0 as ->.
    apply keeps_bind_ret.
    eapply keeps_weaken; [intros h'; apply (rewritten_trans fq h h1 h' G1)|].
    apply (pSlice_frame _ (PtrTo ft) ft); eauto. rewrite Hk. discriminate.
  - (* a slice *)
    unfold Value_Addr. rewrite bind_ret. kpure.
    apply Value_Interface_direct_inv in H0 as ->.
    apply keeps_bind_ret.
    eapply keeps_weaken; [intros h'; apply (rewritten_trans fq h h1 h' G1)|].
    apply (pSlice_frame _ (PtrTo ft) ft); eauto. rewrite Hk. discriminate.
  - (* a struct *)
    kpure.
    rewrite (Value_Interface_lval ft fq _ h1 ltac:(rewrite Hk; discriminate) Hl1) in H0.
    injection H0 as <-. apply keeps_bind_ret.
    eapply keeps_weaken;
      [intros h' Hr;
       apply (rewritten_trans_fresh fq (Ptr (length h) []) h h1 h' G1 (Nat.le_refl _) Hr)|].
    apply (pStruct_frame _ ft e); done.
Qed.

(** [parsePointer] on a pointer to new storage that holds a zero
    value. *)
Lemma parsePointer_body_frame_new (decoded : list any) (pt e : type) (q : ptr) (h : heap) :
  type_Kind pt = KPtr → type_Elem pt = Some e → load h q = Some (zero e) →
  keeps (rewritten_at q h)
    (parsePointer_body pStruct pSlice decoded (Direct pt (VPtr (Some q)) false)) h.
Proof.
  intros Hk He Hz.
  assert (rewritten_at q h h) as G by (apply rewritten_refl; eauto).
  unfold parsePointer_body, Value_Kind. rewrite decide_True by done.
  unfold Value_Type at 1. rewrite bind_ret.
  rewrite (Type_Elem_some pt e), bind_ret by done.
  rewrite Value_IsNil_direct, bind_ret by done. simpl bool_decide. cbv iota.
  rewrite bind_ret.
  assert (keeps (rewritten_at q h)
            (let* el := Value_Elem (Direct pt (VPtr (Some q)) false) in
             Value_Set el (Direct any_slice (anys_val decoded) false) ;;; ret (@None error)) h)
    as Kdefault.
  { rewrite (Value_Elem_direct pt e), bind_ret by done.
    apply Set_then_ret_frame, G. }
  destruct (type_Kind e) eqn:Hke; try exact Kdefault.
  - apply keeps_pure; [|exact G]. unfold Value_Addr. rewrite bind_throw. apply pure_throw.
  - apply keeps_pure; [|exact G]. unfold Value_Addr. rewrite bind_throw. apply pure_throw.
  - kpure.
    assert (a = Some (pt, VPtr (Some q))) as ->.
    { revert H. unfold Value_Interface, Value_ro, Value_get, Value_Type, Value_Kind.
      rewrite !bind_ret, Hk. intros [_ [= ->]]%ret_inv. reflexivity. }
    apply keeps_bind_ret. apply (pStruct_frame _ pt e); done.
Qed.
End parsePointer_frame.

(** ** The sequence binder *)

Lemma ensures_bind {A B} (Q : heap → outcome B → Prop) (G : heap → Prop)
    (m : M A) (k : A → M B) (h : heap) :
  keeps G m h →
  (∀ h' o, G h' → (∀ b, o ≠ Ret b) → Q h' o) →
  (∀ a h1, m h = (h1, Ret a) → ensures Q (k a) h1) →
  ensures Q (bind m k) h.
Proof.
  intros Km Hfail Hk h' o H.
  apply bind_inv in H as [(a & h1 & Hr & H) | (o1 & Hr & _ & Ho)].
  - eapply Hk; eauto.
  - apply Hfail; [eapply Km; eauto | exact Ho].
Qed.

Lemma ensures_bind_pure {A B} (Q : heap → outcome B → Prop)
    (m : M A) (k : A → M B) (h : heap) :
  pure m →
  (∀ o, (∀ b, o ≠ Ret b) → Q h o) →
  (∀ a, m h = (h, Ret a) → ensures Q (k a) h) →
  ensures Q (bind m k) h.
Proof.
  intros Hm Hfail Hk.
  apply (ensures_bind Q (fun h' => h' = h)).
  - intros h' o H. eapply pure_run; eauto.
  - intros h' o -> Ho. auto.
  - intros a h1 Hr. pose proof (pure_run m h h1 _ Hm Hr) as ->. auto.
Qed.

Lemma store_other_value (h b : heap) (q : ptr) (x y : val) :
  store h q x = Some b → ∃ b', store h q y = Some b'.
Proof.
  intros Hs. rewrite <- (store_twice h b q x y Hs).
  apply store_is_Some. rewrite (load_store _ _ _ _ Hs). eauto.
Qed.

Lemma assignTo_element (E : type) (di : any) (h h' : heap) (x : val) :
  assignTo (ValueOf di) E h = (h', Ret x) → element_of E di = Some x.
Proof.
  destruct di as [[vt v]|]; [|discriminate]. simpl ValueOf.
  unfold assignTo, Value_get, Value_Type, Value_Kind, element_of.
  rewrite !bind_ret.
  destruct (directlyAssignable E vt); [intros [_ [= ->]]%ret_inv; reflexivity|].
  destruct (implements E vt); [|discriminate].
  destruct (type_Kind vt); intros [_ [= ->]]%ret_inv; reflexivity.
Qed.

Lemma element_of_basic (E : type) (di : any) (x : val) :
  basic_kinded E → element_of E di = Some x → di = Some (E, x).
Proof.
  intros Hb. destruct di as [[vt v]|]; [|discriminate]. unfold element_of.
  destruct (type_eqb vt E) eqn:Heq;
    [apply type_eqb_eq in Heq as -> | apply type_eqb_neq in Heq; rename Heq into Hne].
  - rewrite directlyAssignable_refl. intros [= ->]. reflexivity.
  - rewrite (basic_kinded_not_assignable E vt Hb Hne).
    unfold implements. rewrite bool_decide_eq_false_2 by apply Hb. discriminate.
Qed.

Lemma reflect_Append_inv (rt E : type) (p : ptr) (x s : Value) (cur : list val)
    (h h' : heap) :
  type_Elem rt = Some E → load h p = Some (VSlice cur) →
  reflect_Append (Lval rt p false) x h = (h', Ret s) →
  ∃ xv, assignTo x E h = (h, Ret xv) ∧ s = Direct rt (VSlice (cur ++ [xv])) false.
Proof.
  intros He Hl. unfold reflect_Append, Value_ro, Value_Kind.
  destruct (decide (type_Kind rt = KSlice)); [|discriminate].
  rewrite (bind_run (Value_get "Append" (Lval rt p false)) _ h h (VSlice cur))
    by (apply Value_get_lval; eauto).
  unfold Value_Type. rewrite bind_ret.
  rewrite (Type_Elem_some rt E), bind_ret by done.
  destruct x as [|xt xv xro|xt xp xro]; [discriminate| |];
    (destruct xro; [discriminate|]); intros H;
    apply bind_pure_inv in H as [(xv' & Ha & H) | (_ & Ho)]; auto with pure;
    try (destruct (Ho s eq_refl));
    apply ret_inv in H as [_ [= ->]]; eauto.
Qed.

Section parseSlice_elements.
Variable pStruct : list any → any → M (option error).
Variable pSlice : list any → any → M (option error).
Variable pPointer : list any → Value → M (option error).

Hypothesis pStruct_frame :
  ∀ decoded pt T q h,
    type_Kind pt = KPtr → type_Elem pt = Some T → load h q = Some (zero T) →
    keeps (rewritten_at q h) (pStruct decoded (Some (pt, VPtr (Some q)))) h.
Hypothesis pPointer_frame_new :
  ∀ decoded pt e q h,
    type_Kind pt = KPtr → type_Elem pt = Some e → load h q = Some (zero e) →
    keeps (rewritten_at q h) (pPointer decoded (Direct pt (VPtr (Some q)) false)) h.

Variables (rt E : type) (p : ptr) (h0 : heap).
Hypothesis rt_slice : type_Kind rt = KSlice.
Hypothesis rt_elem : type_Elem rt = Some E.
Hypothesis E_flat : ¬ sequence_kind E.

Local Abbreviation holds := (holds p h0).

Lemma holds_load (cur : list val) (h : heap) :
  holds cur h → load h p = Some (VSlice cur).
Proof.
  intros (b & ext & Hb & ->). apply load_app. eapply load_store; eauto.
Qed.

Lemma holds_alloc (cur : list val) (h e : heap) : holds cur h → holds cur (h ++ e).
Proof.
  intros (b & ext & Hb & ->). exists b, (ext ++ e).
  split; [done | symmetry; apply app_assoc].
Qed.

(** Writes to storage allocated after [h] do not reach the target. *)
Lemma holds_fresh (cur : list val) (h e h' : heap) (c : ptr) :
  holds cur h → length h ≤ ploc c → rewritten_at c (h ++ e) h' → holds cur h'.
Proof.
  intros (b & ext & Hb & ->) Hc (v & b1 & ext1 & Hs & ->).
  rewrite <- app_assoc in Hs.
  apply store_app_fresh in Hs as (e' & -> & _);
    [|rewrite length_app in Hc; lia].
  exists b, (e' ++ ext1). split; [done | symmetry; apply app_assoc].
Qed.

Lemma holds_append (cur : list val) (h : heap) (x : val) :
  holds cur h →
  ∃ h2, store h p (VSlice (cur ++ [x])) = Some h2 ∧ holds (cur ++ [x]) h2.
Proof.
  intros (b & ext & Hb & ->).
  destruct (store_other_value h0 b p _ (VSlice (cur ++ [x])) Hb) as [b' Hb'].
  exists (b' ++ ext). split.
  - apply store_app. rewrite (store_twice _ _ _ _ _ Hb). exact Hb'.
  - exists b', ext. done.
Qed.

(** [rve.Set(reflect.Append(rve, x))]: the element is put after the
    elements the target holds, or nothing is written. *)
Lemma Append_Set_ensures (cur : list val) (x : Value) (h : heap) :
  holds cur h →
  ensures
    (fun h' o =>
       (holds cur h' ∧ o ≠ Ret None)
       ∨ (∃ xv, holds (cur ++ [xv]) h' ∧ o = Ret None
                ∧ assignTo x E h = (h, Ret xv)))
    (let* s := reflect_Append (Lval rt p false) x in
     Value_Set (Lval rt p false) s ;;; ret (@None error)) h.
Proof.
  intros G. apply ensures_bind_pure; [auto with pure | |].
  - intros o Ho. left. split; [exact G | apply Ho].
  - intros s Hs.
    apply (reflect_Append_inv rt E p x s cur h h rt_elem (holds_load cur h G)) in Hs
      as (xv & Ha & ->).
    destruct (holds_append cur h xv G) as (h2 & Hst & G2).
    intros h' o.
    rewrite (bind_run _ _ h h2 tt
               (Value_Set_store rt rt p _ h h2 (directlyAssignable_refl rt) Hst)).
    intros [= <- <-]. right. eauto.
Qed.

Local Abbreviation step_post := (step_post E p h0).

Lemma step_post_fail (cur : list val) (di : any) (h' : heap) (o : outcome (option error)) :
  holds cur h' → (∀ b, o ≠ Ret b) → step_post cur di h' o.
Proof. intros G Ho. left. split; [exact G | apply Ho]. Qed.

(** One turn of the loop of [parseSlice]: on success exactly one
    element is put after the elements the target holds; otherwise the
    target is as it was. *)
Lemma sliceElem_step (cur : list val) (di : any) (h : heap) :
  holds cur h →
  ensures (step_post cur di)
    (sliceElem pStruct pSlice pPointer (Lval rt p false) rt E di) h.
Proof.
  intros G. unfold sliceElem.
  apply ensures_bind_pure; [auto with pure | intros; apply step_post_fail; done |].
  intros plain Hplain. destruct plain.
  - (* a pointer to a type that is not special *)
    unfold is_plain_pointer in Hplain.
    destruct (decide (type_Kind E = KPtr)) as [Hk|]; [|discriminate].
    apply ensures_bind_pure; [auto with pure | intros; apply step_post_fail; done |].
    intros e He. apply Type_Elem_inv in He.
    apply (ensures_bind _ (holds cur)).
    { intros h' o. rewrite reflect_New_run. intros [= <- <-]. apply holds_alloc, G. }
    { apply step_post_fail. }
    intros np h1. rewrite reflect_New_run. intros [= <- <-].
    pose proof (holds_alloc cur h [zero e] G) as G1.
    apply ensures_bind_pure; [auto with pure | intros; apply step_post_fail; done |].
    intros l _.
    assert (keeps (holds cur)
              (pPointer l (Direct (PtrTo e) (VPtr (Some (Ptr (length h) []))) false))
              (h ++ [zero e])) as K.
    { eapply keeps_weaken;
        [intros h' Hr; apply (holds_fresh cur h [zero e] h' (Ptr (length h) []) G
                                (Nat.le_refl _) Hr)|].
      apply (pPointer_frame_new _ (PtrTo e) e); try done.
      rewrite load_app_fresh by (simpl; lia). simpl. rewrite Nat.sub_diag. reflexivity. }
    apply (ensures_bind _ (holds cur)); [exact K | apply step_post_fail |].
    intros err h2 Hr. pose proof (K h2 _ Hr) as G2.
    destruct err as [err|].
    { intros h' o [= <- <-]. left. split; [exact G2 | discriminate]. }
    intros h' o Hrun.
    destruct (Append_Set_ensures cur _ h2 G2 h' o Hrun)
      as [[G' Ho] | (xv & G' & -> & _)]; [left; done|].
    right. exists xv. repeat split; try done.
    intros (Hp & _). contradiction.
  - destruct (decide (type_Kind E = KStruct)) as [Hs|Hs].
    { (* a struct *)
      apply (ensures_bind _ (holds cur)).
      { intros h' o. rewrite reflect_New_run. intros [= <- <-]. apply holds_alloc, G. }
      { apply step_post_fail. }
      intros np h1. rewrite reflect_New_run. intros [= <- <-].
      pose proof (holds_alloc cur h [zero E] G) as G1.
      apply ensures_bind_pure; [auto with pure | intros; apply step_post_fail; done |].
      intros l _.
      apply ensures_bind_pure; [auto with pure | intros; apply step_post_fail; done |].
      intros ni Hni. apply Value_Interface_direct_inv in Hni as ->.
      assert (keeps (holds cur) (pStruct l (ref E (Ptr (length h) [])))
                (h ++ [zero E])) as K.
      { eapply keeps_weaken;
          [intros h' Hr; apply (holds_fresh cur h [zero E] h' (Ptr (length h) []) G
                                  (Nat.le_refl _) Hr)|].
        apply (pStruct_frame _ (PtrTo E) E); try done.
        rewrite load_app_fresh by (simpl; lia). simpl. rewrite Nat.sub_diag. reflexivity. }
      apply (ensures_bind _ (holds cur)); [exact K | apply step_post_fail |].
      intros err h2 Hr. pose proof (K h2 _ Hr) as G2.
      destruct err as [err|].
      { intros h' o [= <- <-]. left. split; [exact G2 | discriminate]. }
      rewrite (Value_Elem_direct (PtrTo E) E), bind_ret by done.
      intros h' o Hrun.
      destruct (Append_Set_ensures cur _ h2 G2 h' o Hrun)
        as [[G' Ho] | (xv & G' & -> & _)]; [left; done|].
      right. exists xv. repeat split; try done.
      intros (_ & Hn & _). contradiction. }
    destruct (bool_decide (type_Kind E = KSlice) || bool_decide (type_Kind E = KArray)) eqn:Hn.
    { exfalso. apply E_flat. unfold sequence_kind.
      apply orb_prop in Hn as [Hn | Hn]; apply bool_decide_eq_true_1 in Hn; auto. }
    (* a scalar *)
    intros h' o Hrun.
    destruct (Append_Set_ensures cur _ h G h' o Hrun)
      as [[G' Ho] | (xv & G' & -> & Ha)]; [left; done|].
    right. exists xv. repeat split; try done.
    intros _. eapply assignTo_element; eauto.
Qed.

(** The loop of [parseSlice]. *)
Lemma slice_loop (decoded : list any) :
  ∀ cur h, holds cur h →
    ensures
      (fun h' o =>
         ∃ new, holds (cur ++ new) h' ∧ length new ≤ length decoded
                ∧ (o = Ret None →
                   length new = length decoded
                   ∧ (scalar_type E →
                      Forall2 (fun di x => element_of E di = Some x) decoded new)))
      (for_each (sliceElem pStruct pSlice pPointer (Lval rt p false) rt E) decoded) h.
Proof.
  induction decoded as [|di rest IH]; intros cur h G h' o.
  - rewrite for_each_nil. intros [= <- <-]. exists [].
    rewrite app_nil_r. repeat split; auto.
  - rewrite for_each_cons. intros H.
    apply bind_inv in H as [(e & h1 & Hr & H) | (o1 & Hr & Ho1 & Ho)].
    + destruct (sliceElem_step cur di h G h1 _ Hr) as [[G1 Hne] | (x & G1 & [= ->] & Hx)].
      * destruct e as [err|]; [|contradiction].
        injection H as <- <-. exists []. rewrite app_nil_r.
        repeat split; [exact G1 | simpl; lia | discriminate | discriminate].
      * destruct (IH (cur ++ [x]) h1 G1 h' o H) as (new & G' & Hlen & Hok).
        exists (x :: new). rewrite <- app_assoc in G'. simpl in G'.
        split; [exact G'|]. split; [simpl; lia|].
        intros Ho. destruct (Hok Ho) as [Hl HF]. split; [simpl; lia|].
        intros Hsc. constructor; auto.
    + destruct (sliceElem_step cur di h G h' _ Hr) as [[G1 _] | (x & _ & -> & _)].
      * exists []. rewrite app_nil_r.
        split; [exact G1|]. split; [simpl; lia|].
        intros Heq. destruct (Ho None Heq).
      * destruct (Ho1 None eq_refl).
Qed.
End parseSlice_elements.

Lemma kind_slice_elem (rt : type) : type_Kind rt = KSlice → ∃ E, type_Elem rt = Some E.
Proof.
  unfold type_Elem. induction rt as [[]| | | | | |]; simpl; try discriminate; eauto.
Qed.

Lemma parseSlice_not_slice (fuel : nat) (decoded : list any) (pt rt : type) (p : ptr) :
  type_Kind pt = KPtr → type_Elem pt = Some rt → type_Kind rt ≠ KSlice →
  parseSlice (S fuel) decoded (Some (pt, VPtr (Some p)))
  = ret (Some (Errorf "[parseSlice] v must be a slice pointer")).
Proof.
  intros Hp He Hs. rewrite parseSlice_S.
  unfold parseSlice_body, not_pointer_or_nil, ValueOf, Value_Kind.
  rewrite decide_True by done.
  rewrite Value_IsNil_direct, bind_ret by done. simpl.
  rewrite (Value_Elem_direct pt rt), bind_ret by done.
  rewrite decide_False by done. reflexivity.
Qed.

Lemma for_each_app {A} (body : A → M (option error)) (l1 l2 : list A) (h h' : heap) :
  for_each body (l1 ++ l2) h = (h', Ret None) →
  ∃ h1, for_each body l1 h = (h1, Ret None) ∧ for_each body l2 h1 = (h', Ret None).
Proof.
  revert h. induction l1 as [|x l1 IH]; intros h; simpl app.
  - intros H. exists h. split; [reflexivity | exact H].
  - rewrite !for_each_cons. intros H.
    apply bind_inv in H as [(e & h1 & Hr & H) | (o1 & _ & _ & Ho)];
      [|destruct (Ho None eq_refl)].
    destruct e as [err|]; [discriminate|].
    destruct (IH h1 H) as (h2 & H1 & H2). exists h2. split; [|exact H2].
    rewrite (bind_run _ _ h h1 None Hr). exact H1.
Qed.

(** In the model, where a slice is the list of its elements: called on
    a target that holds the zero value of its type, each of the three
    functions writes to the target and to new storage only. *)
Lemma binder_frames (n : nat) :
  (∀ decoded pt T q h,
     type_Kind pt = KPtr → type_Elem pt = Some T → load h q = Some (zero T) →
     keeps (rewritten_at q h) (parseStruct n decoded (Some (pt, VPtr (Some q)))) h)
  ∧ (∀ decoded pt rt q h,
     type_Kind pt = KPtr → type_Elem pt = Some rt → is_Some (load h q) →
     (type_Kind rt = KSlice → ∃ old, load h q = Some (VSlice old)) →
     keeps (rewritten_at q h) (parseSlice n decoded (Some (pt, VPtr (Some q)))) h)
  ∧ (∀ decoded ft fq ro h,
     type_Kind ft = KPtr → load h fq = Some (VPtr None) →
     keeps (rewritten_at fq h) (parsePointer n decoded (Lval ft fq ro)) h)
  ∧ (∀ decoded pt e q h,
     type_Kind pt = KPtr → type_Elem pt = Some e → load h q = Some (zero e) →
     keeps (rewritten_at q h) (parsePointer n decoded (Direct pt (VPtr (Some q)) false)) h).
Proof.
  induction n as [|n (IHS & IHL & IHN & IHD)].
  - repeat split; intros; intros h' o [= <- <-]; apply rewritten_refl; eauto.
  - repeat split.
    + intros decoded pt T q h Hp He Hz. rewrite parseStruct_S.
      eapply parseStruct_body_frame; eassumption.
    + intros decoded pt rt q h Hp He Hv Hold.
      destruct (decide (type_Kind rt = KSlice)) as [Hs|Hs].
      * destruct (kind_slice_elem rt Hs) as [E HE]. destruct (Hold Hs) as [old Hl].
        rewrite (parseSlice_head n decoded pt rt E q) by done.
        destruct (decide (type_Kind E = KSlice)) as [HS|HS];
          [|destruct (decide (type_Kind E = KArray)) as [HA|HA]].
        -- rewrite <- (parseSlice_head n decoded (PtrTo rt) rt E q) by done.
           intros h' o Hr.
           apply (parseSlice_nested_inert rt E q Hs HE (or_introl HS)) in Hr as [-> _].
           apply rewritten_refl, Hv.
        -- rewrite <- (parseSlice_head n decoded (PtrTo rt) rt E q) by done.
           intros h' o Hr.
           apply (parseSlice_nested_inert rt E q Hs HE (or_intror HA)) in Hr as [-> _].
           apply rewritten_refl, Hv.
        -- intros h' o Hr.
           assert (¬ sequence_kind E) as Hflat by (intros [|]; contradiction).
           destruct (slice_loop _ _ _ IHS IHD rt E q h HE Hflat decoded old h
                       ltac:(exists h, []; split;
                               [apply store_load, Hl | symmetry; apply app_nil_r])
                       h' o Hr) as (new & (b & ext & Hb & ->) & _).
           exists (VSlice (old ++ new)), b, ext. done.
      * rewrite (parseSlice_not_slice n decoded pt rt q) by done.
        apply keeps_ret, rewritten_refl, Hv.
    + intros decoded ft fq ro h Hk Hz. rewrite parsePointer_S.
      eapply parsePointer_body_frame_nil; eassumption.
    + intros decoded pt e q h Hk He Hz. rewrite parsePointer_S.
      eapply parsePointer_body_frame_new; eassumption.
Qed.

(** C9, as the code has it.  Whatever the outcome of a call of the
    sequence binder, the elements present in the target before the call
    are still there, in their order, followed by at most one new element
    per node.  A call that succeeds on a target whose elements are not
    themselves sequences appends exactly one element per node, and in
    node order: for scalar elements the appended elements are the nodes'
    values, and for any element type a run on [d1 ++ d2] is a run on
    [d1] followed by a run on [d2]. *)
Theorem parseSlice_appends
    (fuel : nat) (decoded : list any) (pt rt E : type) (p : ptr)
    (old : list val) (h h' : heap) (o : outcome (option error)) :
  type_Kind pt = KPtr → type_Elem pt = Some rt →
  type_Kind rt = KSlice → type_Elem rt = Some E →
  load h p = Some (VSlice old) →
  parseSlice fuel decoded (Some (pt, VPtr (Some p))) h = (h', o) →
  ∃ new,
    load h' p = Some (VSlice (old ++ new))
    ∧ length new ≤ length decoded
    ∧ (o = Ret None → ¬ sequence_kind E →
       length new = length decoded
       ∧ (scalar_type E → Forall2 (fun di x => element_of E di = Some x) decoded new))
    ∧ (o = Ret None → ∀ d1 d2, decoded = d1 ++ d2 →
       ∃ h1, parseSlice fuel d1 (Some (pt, VPtr (Some p))) h = (h1, Ret None)
             ∧ parseSlice fuel d2 (Some (pt, VPtr (Some p))) h1 = (h', Ret None)).
Proof.
  intros Hp He Hs HE Hl Hr.
  assert (∀ new b ext (P : Prop),
            store h p (VSlice (old ++ new)) = Some b → h' = b ++ ext → P →
            load h' p = Some (VSlice (old ++ new)) ∧ P) as pack.
  { intros new b ext P Hb -> HP. split; [|exact HP].
    apply load_app. eapply load_store; eauto. }
  assert (store h p (VSlice (old ++ [])) = Some h) as Hid
    by (rewrite app_nil_r; apply store_load, Hl).
  destruct fuel as [|n].
  { injection Hr as <- <-. exists []. apply (pack [] h []); auto using app_nil_r.
    split; [simpl; lia|]. split; discriminate. }
  assert (o = Ret None → ∀ d1 d2, decoded = d1 ++ d2 →
          ∃ h1, parseSlice (S n) d1 (Some (pt, VPtr (Some p))) h = (h1, Ret None)
                ∧ parseSlice (S n) d2 (Some (pt, VPtr (Some p))) h1 = (h', Ret None))
    as Hsplit.
  { intros -> d1 d2 ->. revert Hr.
    rewrite !(parseSlice_head n _ pt rt E p) by done. apply for_each_app. }
  destruct (decide (type_Kind E = KSlice)) as [HS|HS];
    [|destruct (decide (type_Kind E = KArray)) as [HA|HA]].
  - rewrite (parseSlice_head n decoded pt rt E p) in Hr by done.
    rewrite <- (parseSlice_head n decoded (PtrTo rt) rt E p) in Hr by done.
    apply (parseSlice_nested_inert rt E p Hs HE (or_introl HS)) in Hr as [-> _].
    exists []. apply (pack [] h []); auto using app_nil_r.
    split; [simpl; lia|]. split; [|exact Hsplit].
    intros _ Hflat. destruct Hflat. left. exact HS.
  - rewrite (parseSlice_head n decoded pt rt E p) in Hr by done.
    rewrite <- (parseSlice_head n decoded (PtrTo rt) rt E p) in Hr by done.
    apply (parseSlice_nested_inert rt E p Hs HE (or_intror HA)) in Hr as [-> _].
    exists []. apply (pack [] h []); auto using app_nil_r.
    split; [simpl; lia|]. split; [|exact Hsplit].
    intros _ Hflat. destruct Hflat. right. exact HA.
  - assert (¬ sequence_kind E) as Hflat by (intros [|]; contradiction).
    rewrite (parseSlice_head n decoded pt rt E p) in Hr by done.
    destruct (binder_frames n) as (IHS & _ & _ & IHD).
    destruct (slice_loop _ _ _ IHS IHD rt E p h HE Hflat decoded old h
                ltac:(exists h, []; split;
                        [apply store_load, Hl | symmetry; apply app_nil_r])
                h' o Hr) as (new & (b & ext & Hb & ->) & Hlen & Hok).
    exists new. apply (pack new b ext); [exact Hb | reflexivity |].
    split; [exact Hlen|]. split; [|exact Hsplit].
    intros Ho _. apply Hok, Ho.
Qed.

(** Two nodes bound to a sequence of [uint64] that holds one element. *)
Lemma parseSlice_appends_witness :
  ∃ new,
    load [VSlice [VInt 9; VInt 1; VInt 2]] (Ptr 0 []) = Some (VSlice ([VInt 9] ++ new))
    ∧ length new ≤ 2
    ∧ (Ret None = Ret (@None error) → ¬ sequence_kind (Basic TUint64) →
       length new = 2
       ∧ (scalar_type (Basic TUint64) →
          Forall2 (fun di x => element_of (Basic TUint64) di = Some x) [u64 1; u64 2] new))
    ∧ (Ret None = Ret (@None error) → ∀ d1 d2, [u64 1; u64 2] = d1 ++ d2 →
       ∃ h1, parseSlice 1 d1 (ref (SliceOf (Basic TUint64)) (Ptr 0 [])) [VSlice [VInt 9]]
             = (h1, Ret None)
             ∧ parseSlice 1 d2 (ref (SliceOf (Basic TUint64)) (Ptr 0 [])) h1
               = ([VSlice [VInt 9; VInt 1; VInt 2]], Ret None)).
Proof.
  exact (parseSlice_appends 1 [u64 1; u64 2] (PtrTo (SliceOf (Basic TUint64)))
           (SliceOf (Basic TUint64)) (Basic TUint64) (Ptr 0 []) [VInt 9]
           [VSlice [VInt 9]] [VSlice [VInt 9; VInt 1; VInt 2]] (Ret None)
           eq_refl eq_refl eq_refl eq_refl eq_refl eq_refl).
Defined.

(** C9 as the specification words it does not hold: a call of the
    sequence binder on a sequence of sequences succeeds on one node, an
    empty node list, and appends no element. *)
Lemma nested_node_appends_nothing :
  parseSlice 2 [lst []] (ref Matrix_t (Ptr 0 [])) [VSlice []] = ([VSlice []], Ret None).
Proof. reflexivity. Qed.

(** ** The errors of the composite binder *)

Lemma Set_then_ret_None (v x : Value) (h h' : heap) (o : outcome (option error)) :
  (Value_Set v x ;;; ret None) h = (h', o) → ∀ e, o ≠ Ret (Some e).
Proof.
  intros H e ->.
  apply bind_inv in H as [(a & h1 & _ & H) | (o1 & _ & _ & Ho)].
  - apply ret_inv in H as [_ [=]].
  - destruct (Ho _ eq_refl).
Qed.

Ltac inv_bind H :=
  let a := fresh "a" in let h1 := fresh "h" in let Hr := fresh "Hr" in
  let Ho := fresh "Ho" in
  apply bind_inv in H as [(a & h1 & Hr & H) | (? & _ & _ & Ho)];
  [|exfalso; exact (Ho _ eq_refl)].

Lemma for_each_error {A} (body : A → M (option error)) (l : list A)
    (h h' : heap) (e : error) :
  for_each body l h = (h', Ret (Some e)) →
  ∃ x h1, In x l ∧ body x h1 = (h', Ret (Some e)).
Proof.
  revert h. induction l as [|x l IH]; intros h.
  - rewrite for_each_nil. intros [_ [=]]%ret_inv.
  - rewrite for_each_cons. intros H. inv_bind H. destruct a as [err|].
    + apply ret_inv in H as [-> [= ->]]. exists x, h. split; [left; reflexivity | exact Hr].
    + destruct (IH _ H) as (y & h1 & Hy & Hb). exists y, h1. split; [right|]; assumption.
Qed.


(** The prefix of a wrapped error gives the name of the field's type:
    for the field [Inner] of type [Pair] it reads "Pair". *)
Lemma wrapped_error_names_the_type :
  Parse 2 [lst [u64 1]] (ref Outer_t (Ptr 0 [])) [zero Outer_t]
  = ([zero Outer_t],
     Ret (Some (Wrapf "[parseStruct] error parsing struct field Pair: " ShapeMismatch))).
Proof. reflexivity. Qed.

(** ** Accesses that are not checked *)

Lemma for_each_ok {A} (body : A → M (option error)) (l : list A) (h h' : heap) :
  for_each body l h = (h', Ret None) →
  ∀ x, In x l → ∃ h1 h2, body x h1 = (h2, Ret None).
Proof.
  revert h. induction l as [|y l IH]; intros h H x Hx; [destruct Hx|].
  rewrite for_each_cons in H. inv_bind H.
  destruct a as [err|]; [apply ret_inv in H as [_ [=]]|].
  destruct Hx as [<- | Hx]; eauto.
Qed.

Lemma assert_type_mismatch (x : any) (T : type) (h : heap) :
  assert_ok x T = None →
  assert_type x T h = (h, Panics (InterfaceConversion (TypeOf x) T)).
Proof. unfold assert_type. intros ->. reflexivity. Qed.

Lemma assert_anys_mismatch (x : any) (h : heap) :
  assert_ok x any_slice = None →
  assert_anys x h = (h, Panics (InterfaceConversion (TypeOf x) any_slice)).
Proof. intros H. unfold assert_anys. rewrite (bind_panics _ _ h h _ (assert_type_mismatch x _ h H)). reflexivity. Qed.

Lemma assert_string_mismatch (x : any) (h : heap) :
  assert_ok x (Basic TString) = None →
  assert_string x h = (h, Panics (InterfaceConversion (TypeOf x) (Basic TString))).
Proof. intros H. unfold assert_string. rewrite (bind_panics _ _ h h _ (assert_type_mismatch x _ h H)). reflexivity. Qed.

Section unchecked.
Variable pStruct : list any → any → M (option error).
Variable pSlice : list any → any → M (option error).
Variable pPointer : list any → Value → M (option error).

Lemma structField_out_of_range (decoded : list any) (T : type) (p : ptr) (i : nat) (h : heap) :
  type_Kind T = KStruct → i < length (struct_fields T) → length decoded ≤ i →
  structField pStruct pSlice pPointer decoded (Lval T p false) i h
  = (h, Panics (IndexOutOfRange i (length decoded))).
Proof.
  intros Hs Hi Hd. destruct (lookup_lt_is_Some_2 _ _ Hi) as [[n ft] Hf].
  unfold structField.
  rewrite (Value_Field_lval T p false i n ft), bind_ret by done.
  rewrite index_out by (apply lookup_ge_None_2; done). reflexivity.
Qed.

(** A field that is a struct: the node is taken for a node list. *)
Lemma bindField_struct_panics (ft : type) (fp : ptr) (ro : bool) (di : any) (h : heap) :
  type_Kind ft = KStruct → assert_ok di any_slice = None →
  bindField pStruct pSlice pPointer (Lval ft fp ro) di h
  = (h, Panics (InterfaceConversion (TypeOf di) any_slice)).
Proof.
  intros Hk Hd. unfold bindField. unfold Value_Type at 1. rewrite bind_ret.
  rewrite is_plain_pointer_not_ptr, bind_ret by (rewrite Hk; discriminate).
  unfold Value_Kind. rewrite decide_True by done.
  apply bind_panics, assert_anys_mismatch, Hd.
Qed.

(** A field that is a slice or an array: a node that is neither a
    byte slice nor a string is taken for a node list, and the type of a
    nil node is asked for its name. *)
Lemma bindField_sequence_panics (ft : type) (fp : ptr) (ro : bool) (di : any) (h : heap) :
  type_Kind ft = KSlice ∨ type_Kind ft = KArray →
  (di = None →
   bindField pStruct pSlice pPointer (Lval ft fp ro) di h = (h, Panics NilDereference))
  ∧ (∀ vt x, di = Some (vt, x) →
     type_String vt ≠ "[]uint8" → type_String vt ≠ "[]byte" →
     type_String vt ≠ "string" → type_eqb vt any_slice = false →
     bindField pStruct pSlice pPointer (Lval ft fp ro) di h
     = (h, Panics (InterfaceConversion (Some vt) any_slice))).
Proof.
  intros Hk.
  assert (bindField pStruct pSlice pPointer (Lval ft fp ro) di
          = let* vs := rtype_String (TypeOf di) in
            if String.eqb vs "[]uint8" || String.eqb vs "[]byte" then
              let* b := assert_type di bytes_type in
              Value_Set (Lval ft fp ro) (Direct bytes_type b false) ;;; ret None
            else if String.eqb vs "string" then
              if String.eqb (TrimPrefix (type_String ft) "*") "common.Address" then
                let* str := assert_string di in
                Value_Set (Lval ft fp ro) (Direct common_Address (HexToAddress str) false) ;;;
                ret None
              else Value_Set (Lval ft fp ro) (ValueOf di) ;;; ret None
            else
              let* l := assert_anys di in
              let* a := Value_Addr (Lval ft fp ro) in
              let* ai := Value_Interface a in
              let* err := pSlice l ai in
              ret (wrap_err ("[parseStruct] error parsing slice field "
                             +:+ type_Name ft +:+ ": ") err)) as ->.
  { unfold bindField. unfold Value_Type at 1. rewrite bind_ret.
    rewrite is_plain_pointer_not_ptr, bind_ret
      by (destruct Hk as [-> | ->]; discriminate).
    unfold Value_Kind.
    rewrite decide_False by (destruct Hk as [-> | ->]; discriminate).
    assert (bool_decide (type_Kind ft = KSlice) || bool_decide (type_Kind ft = KArray) = true)
      as -> by (destruct Hk as [-> | ->]; reflexivity).
    reflexivity. }
  split.
  - intros ->. reflexivity.
  - intros vt x -> H1 H2 H3 H4. simpl TypeOf. unfold rtype_String. rewrite bind_ret.
    apply String.eqb_neq in H1, H2, H3. rewrite H1, H2, H3. simpl.
    apply bind_panics.
    apply (assert_anys_mismatch (Some (vt, x))). simpl. rewrite H4. reflexivity.
Qed.

(** A field that is a pointer to [common.Address]: the node is taken
    for a string. *)
Lemma bindField_address_pointer_panics (ft e : type) (fp : ptr) (ro : bool)
    (di : any) (h : heap) :
  type_Kind ft = KPtr → type_Elem ft = Some e →
  type_String e = "common.Address" → assert_ok di (Basic TString) = None →
  bindField pStruct pSlice pPointer (Lval ft fp ro) di h
  = (h, Panics (InterfaceConversion (TypeOf di) (Basic TString))).
Proof.
  intros Hk He Hn Hd. unfold bindField. unfold Value_Type at 1. rewrite bind_ret.
  unfold is_plain_pointer. rewrite decide_True by done.
  rewrite (Type_Elem_some ft e), bind_ret by done. rewrite Hn. simpl. rewrite bind_ret.
  unfold Value_Kind. rewrite Hk. simpl.
  rewrite bind_ret, Hn. simpl.
  apply bind_panics, assert_string_mismatch, Hd.
Qed.
End unchecked.

(** C10: not every shape violation is returned as an error.  For a
    target that is a special leaf type the node count is not checked and
    the loop indexes the node list at every field: a node list shorter
    than the fields never binds with success, and the empty one makes the
    first access panic.  A node that is not what an unchecked type
    assertion takes it for (a node list, a string, a byte slice) makes the
    binder panic. *)
Theorem unchecked_accesses_panic (fuel : nat) (pt T : type) (p : ptr) :
  type_Kind pt = KPtr → type_Elem pt = Some T → type_Kind T = KStruct →
  (special_leaf T → struct_fields T ≠ [] → ∀ h,
     parseStruct (S fuel) [] (Some (pt, VPtr (Some p))) h
     = (h, Panics (IndexOutOfRange 0 0)))
  ∧ (special_leaf T → ∀ decoded h h' o,
     length decoded < length (struct_fields T) →
     parseStruct (S fuel) decoded (Some (pt, VPtr (Some p))) h = (h', o) →
     o ≠ Ret None)
  ∧ (∀ decoded i n ft di h,
     struct_fields T !! i = Some (n, ft) → decoded !! i = Some di →
     let run := structField (parseStruct fuel) (parseSlice fuel) (parsePointer fuel)
                  decoded (Lval T p false) i h in
     (type_Kind ft = KStruct → assert_ok di any_slice = None →
      run = (h, Panics (InterfaceConversion (TypeOf di) any_slice)))
     ∧ (type_Kind ft = KSlice ∨ type_Kind ft = KArray → di = None →
        run = (h, Panics NilDereference))
     ∧ (type_Kind ft = KSlice ∨ type_Kind ft = KArray →
        ∀ vt x, di = Some (vt, x) →
        type_String vt ≠ "[]uint8" → type_String vt ≠ "[]byte" →
        type_String vt ≠ "string" → type_eqb vt any_slice = false →
        run = (h, Panics (InterfaceConversion (Some vt) any_slice)))
     ∧ (type_Kind ft = KPtr → type_Elem ft = Some common_Address →
        assert_ok di (Basic TString) = None →
        run = (h, Panics (InterfaceConversion (TypeOf di) (Basic TString)))))
  ∧ (∀ x U h, assert_ok x U = None →
     assert_type x U h = (h, Panics (InterfaceConversion (TypeOf x) U))).
Proof.
  intros Hp He Hs. split; [|split; [|split]].
  - intros Hsp Hne h.
    rewrite (parseStruct_special fuel [] pt T p Hp He Hs Hsp).
    destruct (struct_fields T) as [|f fs] eqn:Hf; [contradiction|].
    simpl length. simpl seq. rewrite for_each_cons.
    apply bind_panics. apply structField_out_of_range; [done | rewrite Hf; simpl; lia | simpl; lia].
  - intros Hsp decoded h h' o Hlen Hr ->.
    rewrite (parseStruct_special fuel decoded pt T p Hp He Hs Hsp) in Hr.
    destruct (for_each_ok _ _ _ _ Hr (length decoded)) as (h1 & h2 & Hstep).
    { apply in_seq. lia. }
    rewrite structField_out_of_range in Hstep by (done || lia). discriminate.
  - intros decoded i n ft di h Hf Hd run. subst run.
    rewrite (structField_at _ _ _ decoded T p i n ft di) by done.
    split; [|split; [|split]].
    + apply bindField_struct_panics.
    + intros Hk. apply (bindField_sequence_panics _ _ _ ft _ _ di h Hk).
    + intros Hk. apply (bindField_sequence_panics _ _ _ ft _ _ di h Hk).
    + intros Hk Hel. apply (bindField_address_pointer_panics _ _ _ ft common_Address); done.
  - intros x U h. apply assert_type_mismatch.
Qed.

(** The empty node list bound to a [big.Int]. *)
Lemma unchecked_accesses_panic_witness :
  Parse 1 [] (ref big_Int (Ptr 0 [])) [zero big_Int]
  = ([zero big_Int], Panics (IndexOutOfRange 0 0)).
Proof.
  apply (proj1 (unchecked_accesses_panic 0 (PtrTo big_Int) big_Int (Ptr 0 [])
                  eq_refl eq_refl eq_refl)).
  - left. reflexivity.
  - discriminate.
Defined.

(** ** Fuel: the binder terminates *)

Lemma live_ret {A} (a : A) : live (ret a).
Proof. intros h. discriminate. Qed.

Lemma live_throw {A} (p : panic) : live (@throw A p).
Proof. intros h. discriminate. Qed.

Lemma live_fault {A} : live (@fault A).
Proof. intros h. discriminate. Qed.

Lemma live_bind {A B} (m : M A) (k : A → M B) :
  live m → (∀ a, live (k a)) → live (bind m k).
Proof.
  intros Hm Hk h. unfold bind. specialize (Hm h).
  destruct (m h) as [h1 [a|p| |]]; simpl in *; try discriminate; auto. apply Hk.
Qed.

Lemma live_from_option {A} (o : option A) (p : panic) : live (from_option o p).
Proof. destruct o; [apply live_ret | apply live_throw]. Qed.

Lemma live_Value_get (m : string) (v : Value) : live (Value_get m v).
Proof.
  destruct v; try apply live_ret; try apply live_throw.
  intros h. unfold Value_get. destruct (load h p); discriminate.
Qed.

Lemma live_Value_Type (v : Value) : live (Value_Type v).
Proof. destruct v; try apply live_ret; apply live_throw. Qed.

Lemma live_Type_Elem (t : type) : live (Type_Elem t).
Proof. apply live_from_option. Qed.

Ltac live_tac :=
  repeat first
    [ apply live_ret | apply live_throw | apply live_fault
    | apply live_from_option | apply live_Value_get | apply live_Value_Type
    | apply live_Type_Elem | assumption
    | apply live_bind; [|intros ?]
    | match goal with
      | |- live (match ?x with _ => _ end) => destruct x
      end ].

Lemma live_Value_IsNil (v : Value) : live (Value_IsNil v).
Proof. unfold Value_IsNil. live_tac. Qed.

Lemma live_Value_Elem (v : Value) : live (Value_Elem v).
Proof. unfold Value_Elem. live_tac. Qed.

Lemma live_Value_NumField (v : Value) : live (Value_NumField v).
Proof. unfold Value_NumField. live_tac. Qed.

Lemma live_Value_Field (v : Value) (i : nat) : live (Value_Field v i).
Proof. unfold Value_Field. live_tac. Qed.

Lemma live_assignTo (x : Value) (t : type) : live (assignTo x t).
Proof. unfold assignTo. live_tac. Qed.

Lemma live_Value_Set (v x : Value) : live (Value_Set v x).
Proof.
  unfold Value_Set. destruct v as [|? ? []|? ? []]; try apply live_throw.
  destruct x; try apply live_throw; (destruct (Value_ro _); [apply live_throw|]);
    (apply live_bind; [apply live_assignTo|]);
    intros xv h; destruct (store h p xv); discriminate.
Qed.

Lemma live_alloc (v : val) : live (alloc v).
Proof. intros h. discriminate. Qed.

Lemma live_reflect_New (t : type) : live (reflect_New t).
Proof. unfold reflect_New. apply live_bind; [apply live_alloc | intros; apply live_ret]. Qed.

Lemma live_Value_Interface (v : Value) : live (Value_Interface v).
Proof. unfold Value_Interface. live_tac. Qed.

Lemma live_Value_Addr (v : Value) : live (Value_Addr v).
Proof. unfold Value_Addr. live_tac. Qed.

Lemma live_reflect_Append (s x : Value) : live (reflect_Append s x).
Proof. unfold reflect_Append. live_tac; try apply live_assignTo. Qed.

Lemma live_Value_CanConvert (v : Value) (t : type) : live (Value_CanConvert v t).
Proof. unfold Value_CanConvert. live_tac. Qed.

Lemma live_Value_Convert (v : Value) (t : type) : live (Value_Convert v t).
Proof. unfold Value_Convert. live_tac. Qed.

Lemma live_index {A} (l : list A) (i : nat) : live (index l i).
Proof. apply live_from_option. Qed.

Lemma live_assert_type (x : any) (t : type) : live (assert_type x t).
Proof. apply live_from_option. Qed.

Lemma live_assert_anys (x : any) : live (assert_anys x).
Proof. unfold assert_anys. live_tac; try apply live_assert_type. Qed.

Lemma live_assert_string (x : any) : live (assert_string x).
Proof. unfold assert_string. live_tac; try apply live_assert_type. Qed.

Lemma live_rtype_String (t : option type) : live (rtype_String t).
Proof. unfold rtype_String. live_tac. Qed.

Lemma live_is_plain_pointer (t : type) : live (is_plain_pointer t).
Proof. unfold is_plain_pointer. live_tac. Qed.

Lemma live_not_pointer_or_nil (v : Value) : live (not_pointer_or_nil v).
Proof. unfold not_pointer_or_nil. live_tac; try apply live_Value_IsNil. Qed.

Create HintDb live.

#[global] Hint Resolve live_ret live_throw live_fault live_from_option
  live_Value_get live_Value_Type live_Type_Elem live_Value_IsNil live_Value_Elem
  live_Value_NumField live_Value_Field live_assignTo live_Value_Set live_alloc
  live_reflect_New live_Value_Interface live_Value_Addr live_reflect_Append
  live_Value_CanConvert live_Value_Convert live_index live_assert_type
  live_assert_anys live_assert_string live_rtype_String live_is_plain_pointer
  live_not_pointer_or_nil : live.

(** The rule that keeps the value a computation returned. *)
Lemma live_bind_run {A B} (m : M A) (k : A → M B) (h : heap) :
  snd (m h) ≠ OutOfFuel →
  (∀ a h1, m h = (h1, Ret a) → snd (k a h1) ≠ OutOfFuel) →
  snd (bind m k h) ≠ OutOfFuel.
Proof.
  intros Hm Hk. unfold bind.
  destruct (m h) as [h1 [a|p| |]]; simpl in *; try discriminate; auto.
Qed.

Lemma live_for_each {A} (body : A → M (option error)) (l : list A) (h : heap) :
  (∀ x h1, In x l → snd (body x h1) ≠ OutOfFuel) →
  snd (for_each body l h) ≠ OutOfFuel.
Proof.
  revert h. induction l as [|x l IH]; intros h Hb; [discriminate|].
  rewrite for_each_cons. apply live_bind_run; [apply Hb; left; reflexivity|].
  intros [err|] h1 _; [discriminate|]. apply IH. intros y h2 Hy. apply Hb. right. exact Hy.
Qed.

(** *** Depth *)

Lemma list_max_le_elem (l : list nat) (x : nat) : In x l → x ≤ list_max l.
Proof.
  induction l as [|y l IH]; intros Hx; [destruct Hx|]. simpl.
  destruct Hx as [-> | Hx]; [lia | specialize (IH Hx); lia].
Qed.

Lemma any_depth_lookup (decoded : list any) (i : nat) (di : any) :
  decoded !! i = Some di → any_depth di ≤ nodes_depth decoded.
Proof.
  intros H. apply list_max_le_elem, in_map, list_elem_of_In.
  eapply list_elem_of_lookup_2; eauto.
Qed.

Lemma any_depth_In (decoded : list any) (di : any) :
  In di decoded → any_depth di ≤ nodes_depth decoded.
Proof. intros H. apply list_max_le_elem, in_map, H. Qed.

Lemma nodes_depth_val_any (vs : list val) :
  nodes_depth (map val_any vs) ≤ list_max (map val_depth vs).
Proof.
  unfold nodes_depth. induction vs as [|v vs IH]; simpl; [lia|].
  assert (any_depth (val_any v) ≤ val_depth v)
    by (destruct v as [| | | | | | |[[]|]]; simpl; lia).
  lia.
Qed.

(** The node list a node is asserted to be is less deep than the node. *)
Lemma assert_anys_depth (di : any) (l : list any) (h h' : heap) :
  assert_anys di h = (h', Ret l) → nodes_depth l < any_depth di.
Proof.
  unfold assert_anys, assert_type, assert_ok, from_option.
  destruct di as [[t v]|]; [|discriminate].
  destruct (type_eqb t any_slice); [|discriminate].
  rewrite bind_ret. destruct v as [| | | |vs| | |]; try discriminate.
  intros [_ [= ->]]%ret_inv. simpl. pose proof (nodes_depth_val_any vs). lia.
Qed.

Lemma nodes_depth_singleton (di : any) : nodes_depth [di] = any_depth di.
Proof. unfold nodes_depth. simpl. lia. Qed.

Lemma live_at {A} (m : M A) (h : heap) : live m → snd (m h) ≠ OutOfFuel.
Proof. intros H. apply H. Qed.

Ltac live_prim :=
  apply live_at;
  repeat first
    [ solve [auto with live]
    | apply live_bind; [|intros ?]
    | match goal with
      | |- live (match ?x with _ => _ end) => destruct x
      end ].

Ltac lstep := apply live_bind_run; [solve [live_prim] | intros ? ? ?].

Lemma Value_Field_lval_inv (T : type) (p : ptr) (ro : bool) (i : nat) (f : Value)
    (h h' : heap) :
  Value_Field (Lval T p ro) i h = (h', Ret f) → ∃ ft fq ro', f = Lval ft fq ro'.
Proof.
  unfold Value_Field. destruct (decide (type_Kind T = KStruct)); [|discriminate].
  destruct (struct_fields T !! i) as [[n ft]|]; [|discriminate].
  intros [_ [= ->]]%ret_inv. eauto.
Qed.

Lemma index_inv {A} (l : list A) (i : nat) (x : A) (h h' : heap) :
  index l i h = (h', Ret x) → l !! i = Some x.
Proof.
  unfold index. destruct (l !! i); [|discriminate].
  intros [_ [= ->]]%ret_inv. reflexivity.
Qed.

Lemma is_plain_pointer_inv (t : type) (h h' : heap) :
  is_plain_pointer t h = (h', Ret true) → type_Kind t = KPtr.
Proof.
  unfold is_plain_pointer. destruct (decide (type_Kind t = KPtr)); [done | discriminate].
Qed.

Section live_bodies.
Variable pStruct : list any → any → M (option error).
Variable pSlice : list any → any → M (option error).
Variable pPointer : list any → Value → M (option error).
Variable k : nat.

Hypothesis pStruct_live :
  ∀ l a h, nodes_depth l < k → snd (pStruct l a h) ≠ OutOfFuel.
Hypothesis pSlice_live :
  ∀ l a h, nodes_depth l < k → snd (pSlice l a h) ≠ OutOfFuel.
Hypothesis pPointer_live_field :
  ∀ l ft fq ro e h,
    type_Kind ft = KPtr → type_Elem ft = Some e → type_Kind e ≠ KStruct →
    snd (pPointer l (Lval ft fq ro) h) ≠ OutOfFuel.
Hypothesis pPointer_live :
  ∀ l v h, nodes_depth l < k → snd (pPointer l v h) ≠ OutOfFuel.

Lemma bindField_live (ft : type) (fq : ptr) (ro : bool) (di : any) (h : heap) :
  any_depth di ≤ k →
  snd (bindField pStruct pSlice pPointer (Lval ft fq ro) di h) ≠ OutOfFuel.
Proof.
  intros Hd. unfold bindField. unfold Value_Type at 1. rewrite bind_ret.
  lstep. destruct a.
  - apply is_plain_pointer_inv in H. lstep. apply Type_Elem_inv in H0.
    apply live_bind_run; [|intros; discriminate].
    destruct (decide (type_Kind a = KStruct)); [|eapply pPointer_live_field; eauto].
    lstep. lstep. lstep. lstep.
    apply pStruct_live. apply assert_anys_depth in H3. lia.
  - destruct (decide (Value_Kind (Lval ft fq ro) = KStruct)).
    { lstep. lstep. lstep. apply live_bind_run; [|intros; discriminate].
      apply pStruct_live. apply assert_anys_depth in H0. lia. }
    destruct (_ || _).
    { lstep. destruct (_ || _); [live_prim|].
      destruct (String.eqb a "string").
      { destruct (String.eqb _ "common.Address"); live_prim. }
      lstep. lstep. lstep. apply live_bind_run; [|intros; discriminate].
      apply pSlice_live. apply assert_anys_depth in H1. lia. }
    destruct (decide (Value_Kind (Lval ft fq ro) = KPtr)).
    { lstep. destruct (String.eqb _ "big.Int").
      { destruct (assert_ok di (PtrTo big_Int)); live_prim. }
      destruct (String.eqb _ "common.Address"); live_prim. }
    destruct (String.eqb _ "common.Address"); [live_prim|].
    lstep. destruct (type_eqb a ft); [live_prim|].
    lstep. destruct a0; live_prim.
Qed.

Lemma structField_live (decoded : list any) (T : type) (q : ptr) (ro : bool)
    (i : nat) (h : heap) :
  nodes_depth decoded ≤ k →
  snd (structField pStruct pSlice pPointer decoded (Lval T q ro) i h) ≠ OutOfFuel.
Proof.
  intros Hd. unfold structField. lstep. lstep.
  apply Value_Field_lval_inv in H as (ft & fq & ro' & ->).
  apply bindField_live. apply index_inv in H0.
  pose proof (any_depth_lookup decoded i _ H0). lia.
Qed.
End live_bodies.

Lemma not_pointer_or_nil_inv (rv : Value) (h h' : heap) :
  not_pointer_or_nil rv h = (h', Ret false) → Value_Kind rv = KPtr.
Proof.
  unfold not_pointer_or_nil. destruct (decide (Value_Kind rv = KPtr)); [done | discriminate].
Qed.

Lemma Value_Elem_ptr_inv (rv rve : Value) (h h' : heap) :
  Value_Kind rv = KPtr → Value_Elem rv h = (h', Ret rve) →
  rve = Zero ∨ ∃ t p ro, rve = Lval t p ro.
Proof.
  intros Hk. unfold Value_Elem. intros H.
  apply bind_inv in H as [(x & h1 & _ & H) | (? & _ & _ & Ho)]; [|destruct (Ho _ eq_refl)].
  apply bind_inv in H as [(t & h2 & _ & H) | (? & _ & _ & Ho)]; [|destruct (Ho _ eq_refl)].
  rewrite Hk in H. destruct x as [| | |[q|]| | | |]; try discriminate.
  - apply bind_inv in H as [(e & h3 & _ & H) | (? & _ & _ & Ho)]; [|destruct (Ho _ eq_refl)].
    apply ret_inv in H as [_ [= ->]]. eauto.
  - apply ret_inv in H as [_ [= ->]]. auto.
Qed.

Section live_functions.
Variable pStruct : list any → any → M (option error).
Variable pSlice : list any → any → M (option error).
Variable pPointer : list any → Value → M (option error).
Variable k : nat.

Hypothesis pStruct_live :
  ∀ l a h, nodes_depth l < k → snd (pStruct l a h) ≠ OutOfFuel.
Hypothesis pSlice_live :
  ∀ l a h, nodes_depth l < k → snd (pSlice l a h) ≠ OutOfFuel.
Hypothesis pPointer_live_field :
  ∀ l ft fq ro e h,
    type_Kind ft = KPtr → type_Elem ft = Some e → type_Kind e ≠ KStruct →
    snd (pPointer l (Lval ft fq ro) h) ≠ OutOfFuel.
Hypothesis pPointer_live :
  ∀ l v h, nodes_depth l < k → snd (pPointer l v h) ≠ OutOfFuel.

Lemma parseStruct_body_live (decoded : list any) (v : any) (h : heap) :
  nodes_depth decoded ≤ k →
  snd (parseStruct_body pStruct pSlice pPointer decoded v h) ≠ OutOfFuel.
Proof.
  intros Hd. unfold parseStruct_body. lstep. destruct a; [discriminate|].
  apply not_pointer_or_nil_inv in H. lstep.
  destruct (decide (Value_Kind a = KStruct)) as [Hs|]; [|discriminate].
  apply (Value_Elem_ptr_inv _ _ _ _ H) in H0 as [-> | (t & p & ro & ->)];
    [discriminate|].
  lstep. lstep. destruct (_ && _); [discriminate|].
  apply live_for_each. intros i h4 _.
  apply (structField_live pStruct pSlice pPointer k); assumption.
Qed.

Lemma sliceElem_live (rve : Value) (rt E : type) (di : any) (h : heap) :
  any_depth di ≤ k →
  snd (sliceElem pStruct pSlice pPointer rve rt E di h) ≠ OutOfFuel.
Proof.
  intros Hd. unfold sliceElem. lstep. destruct a.
  - lstep. lstep. lstep.
    apply live_bind_run.
    + apply pPointer_live. apply assert_anys_depth in H2. lia.
    + intros [err|] h4 _; [discriminate | live_prim].
  - destruct (decide (type_Kind E = KStruct)).
    { lstep. lstep. lstep.
      apply live_bind_run.
      + apply pStruct_live. apply assert_anys_depth in H1. lia.
      + intros [err|] h4 _; [discriminate | live_prim]. }
    destruct (_ || _); [|live_prim].
    lstep. lstep. lstep. apply live_bind_run; [|intros; discriminate].
    apply pSlice_live. apply assert_anys_depth in H0. lia.
Qed.

Lemma parseSlice_body_live (decoded : list any) (v : any) (h : heap) :
  nodes_depth decoded ≤ k →
  snd (parseSlice_body pStruct pSlice pPointer decoded v h) ≠ OutOfFuel.
Proof.
  intros Hd. unfold parseSlice_body. lstep. destruct a; [discriminate|].
  lstep. destruct (decide (Value_Kind a = KSlice)); [|discriminate].
  lstep. lstep. apply live_for_each. intros di h5 Hi.
  apply sliceElem_live. pose proof (any_depth_In decoded di Hi). lia.
Qed.
End live_functions.

(** [parsePointer] over functions that do not run out of fuel on the same
    node list. *)
Lemma parsePointer_body_live
    (pStruct pSlice : list any → any → M (option error))
    (decoded : list any) (v : Value) (h : heap) :
  (∀ a h1, snd (pStruct decoded a h1) ≠ OutOfFuel) →
  (∀ a h1, snd (pSlice decoded a h1) ≠ OutOfFuel) →
  snd (parsePointer_body pStruct pSlice decoded v h) ≠ OutOfFuel.
Proof.
  intros HS HL. unfold parsePointer_body.
  destruct (decide (Value_Kind v = KPtr)); [|discriminate].
  lstep. lstep. lstep. lstep.
  destruct (type_Kind a0); try solve [live_prim].
  - lstep. lstep. apply live_bind_run; [apply HL | intros; discriminate].
  - lstep. lstep. apply live_bind_run; [apply HL | intros; discriminate].
  - lstep. apply live_bind_run; [apply HS | intros; discriminate].
Qed.

(** [parsePointer] called by [parseStruct]: the pointee is not a struct,
    and two units of fuel are enough. *)
Lemma parsePointer_field_live
    (m : nat) (decoded : list any) (ft e : type) (fq : ptr) (ro : bool) (h : heap) :
  type_Kind ft = KPtr → type_Elem ft = Some e → type_Kind e ≠ KStruct →
  snd (parsePointer (S (S m)) decoded (Lval ft fq ro) h) ≠ OutOfFuel.
Proof.
  intros Hk He Hs. rewrite parsePointer_S. unfold parsePointer_body.
  destruct (decide (Value_Kind (Lval ft fq ro) = KPtr)); [|discriminate].
  unfold Value_Type at 1. rewrite bind_ret.
  rewrite (Type_Elem_some ft e), bind_ret by done.
  lstep. lstep.
  assert (∀ g, snd ((let* a := Value_Addr (Lval ft fq ro) in
                      let* ai := Value_Interface a in
                      let* err := parseSlice (S m) decoded ai in
                      ret (wrap_err ("[parsePointer] error parsing slice field "
                                     +:+ type_Name e +:+ ": ") err)) g) ≠ OutOfFuel)
    as Hseq.
  { intros g. unfold Value_Addr. rewrite bind_ret. lstep.
    apply Value_Interface_direct_inv in H1 as ->.
    unfold ref. rewrite (parseSlice_not_slice m decoded (PtrTo ft) ft fq)
      by (try done; rewrite Hk; discriminate).
    discriminate. }
  destruct (type_Kind e); try contradiction; try apply Hseq; solve [live_prim].
Qed.

(** Fuel in proportion to the depth of the node list is enough. *)
Lemma binder_live (k : nat) :
  (∀ n decoded v h, 2 * k + 3 ≤ n → nodes_depth decoded ≤ k →
     snd (parseStruct n decoded v h) ≠ OutOfFuel)
  ∧ (∀ n decoded v h, 2 * k + 3 ≤ n → nodes_depth decoded ≤ k →
     snd (parseSlice n decoded v h) ≠ OutOfFuel)
  ∧ (∀ n decoded v h, 2 * k + 4 ≤ n → nodes_depth decoded ≤ k →
     snd (parsePointer n decoded v h) ≠ OutOfFuel).
Proof.
  induction k as [k IH] using lt_wf_ind.
  assert (∀ n, 2 * k + 2 ≤ n →
            (∀ l a h, nodes_depth l < k → snd (parseStruct n l a h) ≠ OutOfFuel)
            ∧ (∀ l a h, nodes_depth l < k → snd (parseSlice n l a h) ≠ OutOfFuel)
            ∧ (∀ l ft fq ro e h,
                 type_Kind ft = KPtr → type_Elem ft = Some e → type_Kind e ≠ KStruct →
                 snd (parsePointer n l (Lval ft fq ro) h) ≠ OutOfFuel)
            ∧ (∀ l v h, nodes_depth l < k → snd (parsePointer n l v h) ≠ OutOfFuel))
    as Hcalls.
  { intros n Hn. repeat split.
    - intros l a h Hl. apply (proj1 (IH _ Hl)); lia.
    - intros l a h Hl. apply (proj1 (proj2 (IH _ Hl))); lia.
    - intros l ft fq ro e h Hk He Hs.
      destruct n as [|[|m]]; [lia..|]. eapply parsePointer_field_live; eauto.
    - intros l v h Hl. apply (proj2 (proj2 (IH _ Hl))); lia. }
  assert ((∀ n decoded v h, 2 * k + 3 ≤ n → nodes_depth decoded ≤ k →
             snd (parseStruct n decoded v h) ≠ OutOfFuel)
          ∧ (∀ n decoded v h, 2 * k + 3 ≤ n → nodes_depth decoded ≤ k →
             snd (parseSlice n decoded v h) ≠ OutOfFuel)) as [HS HL].
  { split; intros n decoded v h Hn Hd; (destruct n as [|n]; [lia|]);
      destruct (Hcalls n ltac:(lia)) as (H1 & H2 & H3 & H4).
    - rewrite parseStruct_S. eapply parseStruct_body_live; eauto.
    - rewrite parseSlice_S. eapply parseSlice_body_live; eauto. }
  split; [exact HS|]. split; [exact HL|].
  intros n decoded v h Hn Hd. destruct n as [|n]; [lia|].
  rewrite parsePointer_S. apply parsePointer_body_live.
  - intros a h1. apply HS; [lia | exact Hd].
  - intros a h1. apply HL; [lia | exact Hd].
Qed.

(** ** The result does not depend on the fuel *)

Lemma refines_refl {A} (m : M A) : refines m m.
Proof. intros h. right. reflexivity. Qed.

Lemma refines_out_of_fuel {A} (m : M A) : refines out_of_fuel m.
Proof. intros h. left. reflexivity. Qed.

Lemma refines_bind {A B} (m m' : M A) (k k' : A → M B) :
  refines m m' → (∀ a, refines (k a) (k' a)) → refines (bind m k) (bind m' k').
Proof.
  intros Hm Hk h. unfold bind. destruct (Hm h) as [H|H].
  - left. destruct (m h) as [h1 [a|p| |]]; simpl in H; try discriminate. reflexivity.
  - rewrite H. destruct (m h) as [h1 [a|p| |]]; auto. apply Hk.
Qed.

Lemma refines_for_each {A} (f f' : A → M (option error)) (l : list A) :
  (∀ x, refines (f x) (f' x)) → refines (for_each f l) (for_each f' l).
Proof.
  intros Hf. induction l as [|x l IH]; simpl; [apply refines_refl|].
  apply refines_bind; [apply Hf|]. intros [err|]; [apply refines_refl | exact IH].
Qed.

Ltac mono :=
  repeat first
    [ apply refines_refl
    | match goal with
      | H : ∀ l a, refines (?f l a) (?g l a) |- refines (?f _ _) (?g _ _) => apply H
      end
    | apply refines_bind; [|intros ?]
    | apply refines_for_each; intros ?
    | match goal with
      | |- refines (if ?c then _ else _) _ => destruct c
      | |- refines (match ?x with _ => _ end) _ => destruct x
      end ].

Section monotone_bodies.
Variables pStruct pStruct' : list any → any → M (option error).
Variables pSlice pSlice' : list any → any → M (option error).
Variables pPointer pPointer' : list any → Value → M (option error).

Hypothesis pStruct_mono : ∀ l a, refines (pStruct l a) (pStruct' l a).
Hypothesis pSlice_mono : ∀ l a, refines (pSlice l a) (pSlice' l a).
Hypothesis pPointer_mono : ∀ l a, refines (pPointer l a) (pPointer' l a).

Lemma bindField_mono (field : Value) (di : any) :
  refines (bindField pStruct pSlice pPointer field di)
          (bindField pStruct' pSlice' pPointer' field di).
Proof. unfold bindField. mono. Qed.

Lemma parseStruct_body_mono (decoded : list any) (v : any) :
  refines (parseStruct_body pStruct pSlice pPointer decoded v)
          (parseStruct_body pStruct' pSlice' pPointer' decoded v).
Proof.
  unfold parseStruct_body, structField.
  pose proof bindField_mono. mono.
Qed.

Lemma parseSlice_body_mono (decoded : list any) (v : any) :
  refines (parseSlice_body pStruct pSlice pPointer decoded v)
          (parseSlice_body pStruct' pSlice' pPointer' decoded v).
Proof. unfold parseSlice_body, sliceElem. mono. Qed.

Lemma parsePointer_body_mono (decoded : list any) (v : Value) :
  refines (parsePointer_body pStruct pSlice decoded v)
          (parsePointer_body pStruct' pSlice' decoded v).
Proof. unfold parsePointer_body. mono. Qed.
End monotone_bodies.

(** More fuel gives the same run wherever less fuel was enough. *)
Lemma binder_fuel_mono (n : nat) :
  ∀ m, n ≤ m →
    (∀ l a, refines (parseStruct n l a) (parseStruct m l a))
    ∧ (∀ l a, refines (parseSlice n l a) (parseSlice m l a))
    ∧ (∀ l a, refines (parsePointer n l a) (parsePointer m l a)).
Proof.
  induction n as [|n IH]; intros m Hm.
  - repeat split; intros; apply refines_out_of_fuel.
  - destruct m as [|m]; [lia|].
    destruct (IH m ltac:(lia)) as (HS & HL & HP).
    repeat split; intros l a.
    + rewrite !parseStruct_S. apply parseStruct_body_mono; assumption.
    + rewrite !parseSlice_S. apply parseSlice_body_mono; assumption.
    + rewrite !parsePointer_S. apply parsePointer_body_mono; assumption.
Qed.

(** [Parse] with fuel in proportion to the depth of the node list
    returns, panics or faults: it does not run out of fuel. *)
Lemma Parse_enough_fuel (n : nat) (decoded : list any) (v : any) (h : heap) :
  2 * nodes_depth decoded + 3 ≤ n →
  snd (Parse n decoded v h) ≠ OutOfFuel.
Proof.
  intros Hn. unfold Parse.
  apply (proj1 (binder_live (nodes_depth decoded))); [exact Hn | reflexivity].
Qed.

(** Above that bound the run of [Parse] is the same for every fuel. *)
Lemma Parse_fuel_independent (n m : nat) (decoded : list any) (v : any) (h : heap) :
  2 * nodes_depth decoded + 3 ≤ n → n ≤ m →
  Parse m decoded v h = Parse n decoded v h.
Proof.
  intros Hn Hm. unfold Parse.
  destruct (proj1 (binder_fuel_mono n m Hm) decoded v h) as [H|H]; [|exact H].
  destruct (Parse_enough_fuel n decoded v h Hn H).
Qed.

(** ** The checks on the target *)

(** X1: [Parse] checks its target before it looks at the nodes.  A nil
    interface, a value that is not a pointer and a nil pointer are
    refused with the error "v must be a pointer"; a non-nil pointer to
    anything but a struct with "v must be a struct pointer".  In both
    cases the memory is left as it was, whatever the node list. *)
Theorem Parse_target_check (n : nat) (decoded : list any) (h : heap) :
  Parse (S n) decoded None h
    = (h, Ret (Some (Errorf "[parseStruct] v must be a pointer")))
  ∧ (∀ t x, type_Kind t ≠ KPtr →
       Parse (S n) decoded (Some (t, x)) h
       = (h, Ret (Some (Errorf "[parseStruct] v must be a pointer"))))
  ∧ (∀ pt, type_Kind pt = KPtr →
       Parse (S n) decoded (Some (pt, VPtr None)) h
       = (h, Ret (Some (Errorf "[parseStruct] v must be a pointer"))))
  ∧ (∀ pt T q, type_Kind pt = KPtr → type_Elem pt = Some T → type_Kind T ≠ KStruct →
       Parse (S n) decoded (Some (pt, VPtr (Some q))) h
       = (h, Ret (Some (Errorf "[parseStruct] v must be a struct pointer")))).
Proof.
  unfold Parse. rewrite parseStruct_S. repeat split.
  - intros t x Hk. unfold parseStruct_body, not_pointer_or_nil, ValueOf, Value_Kind.
    rewrite decide_False by done. reflexivity.
  - intros pt Hk. unfold parseStruct_body, not_pointer_or_nil, ValueOf, Value_Kind.
    rewrite decide_True by done. rewrite Value_IsNil_direct, bind_ret by done.
    reflexivity.
  - intros pt T q Hk He Hs.
    rewrite (parseStruct_body_not_struct _ _ _ decoded pt T q) by done. reflexivity.
Qed.

(** X2: the checks of [parseSlice] on its target.  What is not a non-nil
    pointer is refused with "v must be a pointer", and a pointer to
    anything but a slice, a pointer to an array included, with "v must
    be a slice pointer"; the memory is left as it was.  On a pointer to a
    slice an empty node list binds nothing and succeeds. *)
Theorem parseSlice_target_check (n : nat) (decoded : list any) (h : heap) :
  parseSlice (S n) decoded None h
    = (h, Ret (Some (Errorf "[parseSlice] v must be a pointer")))
  ∧ (∀ t x, type_Kind t ≠ KPtr →
       parseSlice (S n) decoded (Some (t, x)) h
       = (h, Ret (Some (Errorf "[parseSlice] v must be a pointer"))))
  ∧ (∀ pt, type_Kind pt = KPtr →
       parseSlice (S n) decoded (Some (pt, VPtr None)) h
       = (h, Ret (Some (Errorf "[parseSlice] v must be a pointer"))))
  ∧ (∀ pt rt q, type_Kind pt = KPtr → type_Elem pt = Some rt → type_Kind rt ≠ KSlice →
       parseSlice (S n) decoded (Some (pt, VPtr (Some q))) h
       = (h, Ret (Some (Errorf "[parseSlice] v must be a slice pointer"))))
  ∧ (∀ pt rt q, type_Kind pt = KPtr → type_Elem pt = Some rt → type_Kind rt = KSlice →
       parseSlice (S n) [] (Some (pt, VPtr (Some q))) h = (h, Ret None)).
Proof.
  repeat split.
  - intros t x Hk. rewrite parseSlice_S.
    unfold parseSlice_body, not_pointer_or_nil, ValueOf, Value_Kind.
    rewrite decide_False by done. reflexivity.
  - intros pt Hk. rewrite parseSlice_S.
    unfold parseSlice_body, not_pointer_or_nil, ValueOf, Value_Kind.
    rewrite decide_True by done. rewrite Value_IsNil_direct, bind_ret by done.
    reflexivity.
  - intros pt rt q Hk He Hs.
    rewrite (parseSlice_not_slice n decoded pt rt q) by done. reflexivity.
  - intros pt rt q Hk He Hs. destruct (kind_slice_elem rt Hs) as [E HE].
    rewrite (parseSlice_head n [] pt rt E q) by done. reflexivity.
Qed.

(** ** Fields and pointers that are never bound *)

Lemma Value_Set_ro_inv (v x : Value) (h h' : heap) (u : unit) :
  v = Zero ∨ Value_ro v = true → Value_Set v x h = (h', Ret u) → False.
Proof.
  intros Hv H. apply Value_Set_inv in H as [[_ Ho] | (t & p & xv & -> & _)].
  - destruct u. contradiction.
  - destruct Hv; discriminate.
Qed.

Lemma Value_Interface_ro_inv (v : Value) (h h' : heap) (a : any) :
  v = Zero ∨ Value_ro v = true → Value_Interface v h = (h', Ret a) → False.
Proof.
  unfold Value_Interface. intros [-> | Hro]; [discriminate|].
  destruct v; [discriminate | |]; rewrite Hro; discriminate.
Qed.

Lemma Value_Type_inv (v : Value) (t : type) (h h' : heap) :
  Value_Type v h = (h', Ret t) →
  h' = h ∧ ((∃ x ro, v = Direct t x ro) ∨ (∃ p ro, v = Lval t p ro)).
Proof.
  unfold Value_Type. destruct v; [discriminate | |];
    intros [-> [= ->]]%ret_inv; eauto 6.
Qed.

Lemma Value_Elem_ro_inv (v rve : Value) (h h' : heap) :
  Value_ro v = true → Value_Elem v h = (h', Ret rve) →
  rve = Zero ∨ Value_ro rve = true.
Proof.
  intros Hro. unfold Value_Elem. intros H.
  inv_bind H. inv_bind H. rewrite Hro in H.
  destruct (Value_Kind v), a as [| | |[q|]| | | |[[dt dv]|]]; try discriminate.
  - apply ret_inv in H as [_ [= ->]]. auto.
  - apply ret_inv in H as [_ [= ->]]. auto.
  - inv_bind H. apply ret_inv in H as [_ [= ->]]. auto.
  - apply ret_inv in H as [_ [= ->]]. auto.
Qed.

Lemma Value_Addr_inv (v a : Value) (h h' : heap) :
  Value_Addr v h = (h', Ret a) →
  ∃ t p ro, v = Lval t p ro ∧ a = Direct (PtrTo t) (VPtr (Some p)) ro ∧ h' = h.
Proof.
  unfold Value_Addr. destruct v; try discriminate.
  intros [-> [= ->]]%ret_inv. eauto 6.
Qed.

Ltac ro_done :=
  exfalso;
  match goal with
  | H : Value_Set _ _ _ = (_, Ret _) |- _ =>
      eapply Value_Set_ro_inv; [|exact H];
      solve [right; reflexivity | assumption | right; assumption]
  | H : Value_Interface _ _ = (_, Ret _) |- _ =>
      eapply Value_Interface_ro_inv; [|exact H];
      solve [right; reflexivity | assumption | right; assumption]
  end.

(** [parsePointer] on a pointer reached through an unexported field. *)
Lemma parsePointer_ro (n : nat) (decoded : list any) (v : Value) (h : heap) :
  Value_ro v = true → snd (parsePointer n decoded v h) ≠ Ret None.
Proof.
  intros Hro. destruct n as [|n]; [discriminate|].
  rewrite parsePointer_S.
  destruct (parsePointer_body _ _ _ _ _) as [h' o] eqn:H. unfold parsePointer_body in H.
  simpl. intros ->.
  destruct (decide (Value_Kind v = KPtr)); [|discriminate].
  inv_bind H. inv_bind H. inv_bind H. inv_bind H.
  destruct a1; [inv_bind Hr2; ro_done|].
  destruct (type_Kind a0);
    try (inv_bind H;
         match goal with
         | E : Value_Elem _ _ = _ |- _ => apply (Value_Elem_ro_inv _ _ _ _ Hro) in E
         end;
         inv_bind H; ro_done).
  - inv_bind H.
    match goal with
    | E : Value_Addr _ _ = _ |- _ => apply Value_Addr_inv in E as (t & p & ro & -> & -> & ->)
    end.
    inv_bind H. simpl in Hro. subst ro. ro_done.
  - inv_bind H.
    match goal with
    | E : Value_Addr _ _ = _ |- _ => apply Value_Addr_inv in E as (t & p & ro & -> & -> & ->)
    end.
    inv_bind H. simpl in Hro. subst ro. ro_done.
  - inv_bind H. ro_done.
Qed.

(** The dispatch on a field that is not exported never ends in
    success. *)
Lemma bindField_ro (n : nat) (ft : type) (fp : ptr) (di : any) (h : heap) :
  snd (bindField (parseStruct n) (parseSlice n) (parsePointer n) (Lval ft fp true) di h)
  ≠ Ret None.
Proof.
  destruct (bindField _ _ _ _ _ _) as [h' o] eqn:H. simpl. intros ->.
  unfold bindField in H.
  inv_bind H. apply ret_inv in Hr as [-> [= ->]].
  inv_bind H. destruct a.
  - inv_bind H. inv_bind H. apply ret_inv in H as [_ [= H]].
    destruct a0 as [err|]; [discriminate|]. clear H.
    destruct (decide (type_Kind _ = KStruct)).
    + match goal with E : bind _ _ _ = _ |- _ => rename E into H end.
      inv_bind H. inv_bind H.
      destruct a0; [match goal with E : bind _ _ _ = _ |- _ => inv_bind E; ro_done end|].
      inv_bind H. inv_bind H. ro_done.
    + match goal with
      | E : parsePointer _ _ _ ?g = _ |- _ =>
          pose proof (parsePointer_ro n [di] (Lval ft fp true) g eq_refl) as Hp;
          rewrite E in Hp; contradiction
      end.
  - unfold Value_Kind in H.
    destruct (decide (type_Kind ft = KStruct)).
    { inv_bind H. inv_bind H.
      match goal with
      | E : Value_Addr _ _ = _ |- _ => apply Value_Addr_inv in E as (? & ? & ? & [= <- <- <-] & -> & ->)
      end.
      inv_bind H. ro_done. }
    destruct (_ || _).
    { inv_bind H. destruct (_ || _); [inv_bind H; inv_bind H; ro_done|].
      destruct (String.eqb a "string").
      { destruct (String.eqb _ "common.Address"); [inv_bind H|]; inv_bind H; ro_done. }
      inv_bind H. inv_bind H.
      match goal with
      | E : Value_Addr _ _ = _ |- _ => apply Value_Addr_inv in E as (? & ? & ? & [= <- <- <-] & -> & ->)
      end.
      inv_bind H. ro_done. }
    destruct (decide (type_Kind ft = KPtr)).
    { inv_bind H. destruct (String.eqb _ "big.Int").
      { destruct (assert_ok di (PtrTo big_Int)); [inv_bind H; ro_done | discriminate]. }
      destruct (String.eqb _ "common.Address"); [|discriminate].
      inv_bind H. inv_bind H. inv_bind H. ro_done. }
    destruct (String.eqb _ "common.Address"); [inv_bind H; inv_bind H; ro_done|].
    inv_bind H. destruct (type_eqb a ft); [inv_bind H; ro_done|].
    inv_bind H. destruct a0; [|discriminate].
    inv_bind H. inv_bind H. ro_done.
Qed.

Lemma unexported_ascii_exported (name : string) :
  unexported_ascii name = true → exported name = false.
Proof.
  destruct name as [|c name]; [discriminate|]. simpl.
  intros [_ H]%andb_prop. apply negb_true_iff, H.
Qed.

(** X3: a struct with a field that is not exported is never bound.
    Whatever the node list and the memory, [Parse] on a pointer to such a
    struct does not return nil: it returns an error or panics (at the
    latest when it reaches that field, which [reflect] does not let it
    set). *)
Theorem Parse_unexported_field
    (n : nat) (decoded : list any) (pt T : type) (q : ptr) (i : nat)
    (name : string) (ft : type) (h : heap) :
  type_Kind pt = KPtr → type_Elem pt = Some T → type_Kind T = KStruct →
  struct_fields T !! i = Some (name, ft) → unexported_ascii name = true →
  snd (Parse n decoded (Some (pt, VPtr (Some q))) h) ≠ Ret None.
Proof.
  intros Hp He Hs Hf Hx%unexported_ascii_exported. unfold Parse. destruct n as [|n]; [discriminate|].
  rewrite (parseStruct_head n decoded pt T q) by done.
  destruct (_ && _); [discriminate|].
  destruct (for_each _ _ _) as [h' o] eqn:H. simpl. intros ->.
  destruct (for_each_ok _ _ _ _ H i) as (h1 & h2 & Hi);
    [apply in_seq; pose proof (lookup_lt_Some _ _ _ Hf); lia|].
  clear H. rename Hi into H.
  unfold structField in H.
  rewrite (Value_Field_lval T q false i name ft), bind_ret in H by done.
  inv_bind H. rewrite Hx in H. simpl in H.
  pose proof (bindField_ro n ft (field_ptr q i) a h0) as Hb.
  rewrite H in Hb. contradiction.
Qed.

(** A struct with the fields [Count uint64] and [secret uint64], given
    two nodes of the right type. *)
Lemma Parse_unexported_field_witness :
  snd (Parse 3 [u64 1; u64 2]
         (ref (StructOf [("Count", Basic TUint64); ("secret", Basic TUint64)]) (Ptr 0 []))
         [VStruct [VInt 0; VInt 0]])
  ≠ Ret None.
Proof.
  apply (Parse_unexported_field 3 [u64 1; u64 2]
           (PtrTo (StructOf [("Count", Basic TUint64); ("secret", Basic TUint64)]))
           (StructOf [("Count", Basic TUint64); ("secret", Basic TUint64)])
           (Ptr 0 []) 1 "secret" (Basic TUint64));
    reflexivity.
Defined.

(** ** Sequences the binder does not bind *)

Lemma type_String_unfold (t : type) :
  type_String t
  = match t with
    | Basic b => basic_name b
    | Named pkg name _ => pkg +:+ "." +:+ name
    | PtrTo e => "*" +:+ type_String e
    | SliceOf e => "[]" +:+ type_String e
    | ArrayOf n e => "[" +:+ pretty n +:+ "]" +:+ type_String e
    | StructOf fs =>
        match fs with
        | [] => "struct {}"
        | _ =>
            "struct { " +:+
            (fix go (fs : list (string * type)) : string :=
               match fs with
               | [] => ""
               | [(n, ft)] => n +:+ " " +:+ type_String ft
               | (n, ft) :: fs' => n +:+ " " +:+ type_String ft +:+ "; " +:+ go fs'
               end) fs +:+ " }"
        end
    | Iface => "interface {}"
    end.
Proof. destruct t; reflexivity. Qed.

(** Only the predeclared type [string] prints as "string". *)
Lemma type_String_string (t : type) : type_String t = "string" → t = Basic TString.
Proof.
  rewrite type_String_unfold. destruct t as [b|p n u|e|e|k e|fs|]; simpl.
  - destruct b; simpl; intros [=]. reflexivity.
  - intros H. exfalso.
    do 6 (destruct p as [|? p]; simpl in H; [discriminate|]; injection H as _ H).
    destruct p; discriminate.
  - discriminate.
  - discriminate.
  - discriminate.
  - destruct fs; discriminate.
  - discriminate.
Qed.

(** [Value.Set] of a value of another kind into a variable that is not
    of interface kind panics. *)
Lemma Value_Set_other_kind (T V : type) (fp : ptr) (ro : bool) (x : val) (h : heap) :
  type_Kind T ≠ type_Kind V → type_Kind T ≠ KInterface →
  ∃ p, Value_Set (Lval T fp ro) (Direct V x false) h = (h, Panics p).
Proof.
  intros Hk Hi. destruct ro; [eexists; reflexivity|].
  exists (NotAssignable V T). apply Value_Set_not_assignable; [|exact Hi].
  destruct (directlyAssignable T V) eqn:Ha; [|reflexivity].
  apply directlyAssignable_kind in Ha. contradiction.
Qed.

Lemma Set_panics_then (v x : Value) (h : heap) (p : panic) (k : M (option error)) :
  Value_Set v x h = (h, Panics p) → (Value_Set v x ;;; k) h = (h, Panics p).
Proof. intros H. apply bind_panics, H. Qed.

(** The dispatch of [parseStruct] on a field of slice or array kind. *)
Lemma bindField_sequence_head
    (pStruct pSlice : list any → any → M (option error))
    (pPointer : list any → Value → M (option error))
    (ft : type) (fp : ptr) (ro : bool) (di : any) :
  sequence_kind ft →
  bindField pStruct pSlice pPointer (Lval ft fp ro) di
  = let* vs := rtype_String (TypeOf di) in
    if String.eqb vs "[]uint8" || String.eqb vs "[]byte" then
      let* b := assert_type di bytes_type in
      Value_Set (Lval ft fp ro) (Direct bytes_type b false) ;;; ret None
    else if String.eqb vs "string" then
      if String.eqb (TrimPrefix (type_String ft) "*") "common.Address" then
        let* str := assert_string di in
        Value_Set (Lval ft fp ro) (Direct common_Address (HexToAddress str) false) ;;;
        ret None
      else Value_Set (Lval ft fp ro) (ValueOf di) ;;; ret None
    else
      let* l := assert_anys di in
      let* a := Value_Addr (Lval ft fp ro) in
      let* ai := Value_Interface a in
      let* err := pSlice l ai in
      ret (wrap_err ("[parseStruct] error parsing slice field "
                     +:+ type_Name ft +:+ ": ") err).
Proof.
  intros Hk. unfold bindField.
  unfold Value_Type at 1. rewrite bind_ret.
  rewrite is_plain_pointer_not_ptr, bind_ret by (destruct Hk as [-> | ->]; discriminate).
  unfold Value_Kind.
  rewrite decide_False by (destruct Hk as [-> | ->]; discriminate).
  replace (bool_decide (type_Kind ft = KSlice) || bool_decide (type_Kind ft = KArray))
    with true; [reflexivity|].
  destruct Hk as [-> | ->]; reflexivity.
Qed.

(** A node list given to a field of array kind. *)
Lemma bindField_array_nodes (n : nat) (ft : type) (fp : ptr) (l : list val) (h : heap) :
  type_Kind ft = KArray →
  bindField (parseStruct (S n)) (parseSlice (S n)) (parsePointer (S n))
    (Lval ft fp false) (Some (any_slice, VSlice l)) h
  = (h, Ret (Some (Wrapf ("[parseStruct] error parsing slice field "
                          +:+ type_Name ft +:+ ": ")
                     (Errorf "[parseSlice] v must be a slice pointer")))).
Proof.
  intros Hk. rewrite bindField_sequence_head by (right; exact Hk).
  simpl TypeOf. unfold rtype_String. rewrite bind_ret.
  change (type_String any_slice) with "[]interface {}". simpl.
  unfold assert_anys, assert_type, assert_ok, from_option.
  rewrite type_eqb_refl, !bind_ret.
  unfold Value_Addr. rewrite bind_ret.
  unfold Value_Interface, Value_ro, Value_get, Value_Type, Value_Kind.
  rewrite !bind_ret. simpl type_Kind. cbv iota. rewrite bind_ret.
  rewrite <- parseSlice_S.
  rewrite (parseSlice_not_slice n _ (PtrTo ft) ft fp)
    by (try done; rewrite Hk; discriminate).
  rewrite bind_ret. reflexivity.
Qed.

(** What the dispatch of [parseStruct] does on a field of array kind
    whose type does not print as "common.Address": it does not succeed,
    and writes nothing. *)
Lemma bindField_array (n : nat) (ft : type) (fp : ptr) (ro : bool) (di : any) (h : heap) :
  type_Kind ft = KArray →
  TrimPrefix (type_String ft) "*" ≠ "common.Address" →
  ∃ o, bindField (parseStruct (S n)) (parseSlice (S n)) (parsePointer (S n))
         (Lval ft fp ro) di h = (h, o)
       ∧ o ≠ Ret None.
Proof.
  intros Hk Hname. rewrite bindField_sequence_head by (right; exact Hk).
  destruct di as [[vt x]|]; [|eexists; split; [reflexivity | discriminate]].
  simpl TypeOf. unfold rtype_String. rewrite bind_ret.
  destruct (String.eqb (type_String vt) "[]uint8" || String.eqb (type_String vt) "[]byte").
  { unfold assert_type, assert_ok.
    destruct (type_eqb vt bytes_type); [|eexists; split; [reflexivity | discriminate]].
    unfold from_option. rewrite bind_ret.
    destruct (Value_Set_other_kind ft bytes_type fp ro x h) as [p Hp];
      [rewrite Hk; discriminate..|].
    exists (Panics p). split; [apply Set_panics_then, Hp | discriminate]. }
  destruct (String.eqb_spec (type_String vt) "string") as [Hs|Hs].
  { apply type_String_string in Hs as ->.
    destruct (String.eqb_spec (TrimPrefix (type_String ft) "*") "common.Address");
      [contradiction|].
    destruct (Value_Set_other_kind ft (Basic TString) fp ro x h) as [p Hp];
      [rewrite Hk; discriminate..|].
    exists (Panics p). split; [apply Set_panics_then, Hp | discriminate]. }
  destruct (assert_anys_cases (Some (vt, x)) h) as [[l Hl] | [Hl | Hl]].
  - rewrite (bind_run _ _ h h l Hl).
    unfold Value_Addr. rewrite bind_ret.
    destruct ro; [eexists; split; [reflexivity | discriminate]|].
    unfold Value_Interface, Value_ro, Value_get, Value_Type, Value_Kind.
    rewrite !bind_ret. simpl type_Kind. cbv iota. rewrite bind_ret.
    rewrite (parseSlice_not_slice n l (PtrTo ft) ft fp)
      by (try done; rewrite Hk; discriminate).
    rewrite bind_ret. eexists; split; [reflexivity | discriminate].
  - eexists. split; [apply bind_panics, Hl | discriminate].
  - eexists. split; [unfold bind; rewrite Hl; reflexivity | discriminate].
Qed.

(** X4: a field of array kind is never bound, unless its type prints as
    "common.Address".  Whatever node it is given, the turn of the loop of
    [parseStruct] for such a field does not succeed and writes nothing;
    given a node list, which a slice field would bind, it returns the
    error "v must be a slice pointer" of [parseSlice] wrapped as the
    error of a slice field. *)
Theorem array_field_is_never_bound
    (n : nat) (decoded : list any) (T : type) (q : ptr) (i : nat)
    (name : string) (ft : type) (h : heap) :
  type_Kind T = KStruct → struct_fields T !! i = Some (name, ft) →
  type_Kind ft = KArray → TrimPrefix (type_String ft) "*" ≠ "common.Address" →
  snd (structField (parseStruct (S n)) (parseSlice (S n)) (parsePointer (S n))
         decoded (Lval T q false) i h) ≠ Ret None
  ∧ fst (structField (parseStruct (S n)) (parseSlice (S n)) (parsePointer (S n))
           decoded (Lval T q false) i h) = h
  ∧ (∀ l, decoded !! i = Some (lst l) → exported name = true →
       structField (parseStruct (S n)) (parseSlice (S n)) (parsePointer (S n))
         decoded (Lval T q false) i h
       = (h, Ret (Some (Wrapf ("[parseStruct] error parsing slice field "
                               +:+ type_Name ft +:+ ": ")
                          (Errorf "[parseSlice] v must be a slice pointer"))))).
Proof.
  intros Hs Hf Hk Hname.
  destruct (decoded !! i) as [di|] eqn:Hd.
  - rewrite (structField_at _ _ _ decoded T q i name ft di) by done.
    destruct (bindField_array n ft (field_ptr q i) (negb (exported name)) di h Hk Hname)
      as (o & Hp & Ho).
    split; [rewrite Hp; exact Ho|]. split; [rewrite Hp; reflexivity|].
    intros l [= ->] ->. apply bindField_array_nodes, Hk.
  - unfold structField.
    rewrite (Value_Field_lval T q false i name ft), bind_ret by done.
    rewrite index_out by done. rewrite bind_throw.
    repeat split; discriminate.
Qed.

(** The field [Hash [32]byte] given thirty-two bytes as a [[]byte]. *)
Lemma array_field_is_never_bound_witness :
  let T := StructOf [("Hash", ArrayOf 32 (Basic TUint8))] in
  let decoded := [Some (bytes_type, VSlice (repeat (VInt 1) 32))] in
  let h := [zero T] in
  snd (structField (parseStruct 1) (parseSlice 1) (parsePointer 1)
         decoded (Lval T (Ptr 0 []) false) 0 h) ≠ Ret None
  ∧ fst (structField (parseStruct 1) (parseSlice 1) (parsePointer 1)
           decoded (Lval T (Ptr 0 []) false) 0 h) = h
  ∧ (∀ l, decoded !! 0 = Some (lst l) → exported "Hash" = true →
       structField (parseStruct 1) (parseSlice 1) (parsePointer 1)
         decoded (Lval T (Ptr 0 []) false) 0 h
       = (h, Ret (Some (Wrapf ("[parseStruct] error parsing slice field "
                               +:+ type_Name (ArrayOf 32 (Basic TUint8)) +:+ ": ")
                          (Errorf "[parseSlice] v must be a slice pointer"))))).
Proof.
  apply (array_field_is_never_bound 0
           [Some (bytes_type, VSlice (repeat (VInt 1) 32))]
           (StructOf [("Hash", ArrayOf 32 (Basic TUint8))]) (Ptr 0 []) 0
           "Hash" (ArrayOf 32 (Basic TUint8)));
    [reflexivity | reflexivity | reflexivity | vm_compute; discriminate].
Defined.

(** [parsePointer] on a pointer to a slice or an array. *)
Lemma parsePointer_sequence
    (n : nat) (decoded : list any) (v : Value) (pt e : type) (h : heap) :
  Value_Kind v = KPtr → Value_Type v h = (h, Ret pt) → type_Elem pt = Some e →
  sequence_kind e →
  snd (parsePointer n decoded v h) ≠ Ret None.
Proof.
  intros Hk Ht He Hseq. destruct n as [|n]; [discriminate|].
  rewrite parsePointer_S.
  destruct (parsePointer_body _ _ _ _ _) as [h' o] eqn:H. unfold parsePointer_body in H.
  simpl. intros ->.
  rewrite decide_True in H by done.
  rewrite (bind_run _ _ h h pt Ht) in H.
  rewrite (Type_Elem_some pt e He), bind_ret in H.
  inv_bind H. inv_bind H.
  assert ((let* a := Value_Addr v in
           let* ai := Value_Interface a in
           let* err := parseSlice n decoded ai in
           ret (wrap_err ("[parsePointer] error parsing slice field "
                          +:+ type_Name e +:+ ": ") err)) h1 = (h', Ret None)) as H'
    by (destruct Hseq as [Hs | Hs]; rewrite Hs in H; exact H).
  clear H. inv_bind H'.
  apply Value_Addr_inv in Hr1 as (t & p & ro & -> & -> & ->).
  apply Value_Type_inv in Ht as [_ [(? & ? & [=]) | (? & ? & [= <- <- <-])]].
  inv_bind H'. apply Value_Interface_direct_inv in Hr1 as ->.
  inv_bind H'. destruct n as [|n]; [discriminate|].
  unfold ref in Hr1.
  rewrite (parseSlice_not_slice n decoded (PtrTo t) t p) in Hr1
    by (try done; simpl in Hk; rewrite Hk; discriminate).
  apply ret_inv in Hr1 as [_ [= ->]]. discriminate.
Qed.

(** X5: what is behind a pointer to a slice or an array is never bound.
    [parsePointer] passes [parseSlice] the address of the pointer, not
    the pointer, and [parseSlice] refuses it: whatever the nodes and the
    memory, the call does not return nil.  So the turn of the loop of
    [parseStruct] for a field whose type is a pointer to a slice or an
    array (other than [*common.Address]) never succeeds. *)
Theorem pointer_to_sequence_is_never_bound (n : nat) (decoded : list any) (h : heap) :
  (∀ v pt e,
     Value_Kind v = KPtr → Value_Type v h = (h, Ret pt) → type_Elem pt = Some e →
     sequence_kind e →
     snd (parsePointer n decoded v h) ≠ Ret None)
  ∧ (∀ T q i name ft e,
       type_Kind T = KStruct → struct_fields T !! i = Some (name, ft) →
       type_Kind ft = KPtr → type_Elem ft = Some e →
       sequence_kind e → ¬ special_leaf e →
       snd (structField (parseStruct n) (parseSlice n) (parsePointer n)
              decoded (Lval T q false) i h) ≠ Ret None).
Proof.
  split; [intros v pt e; apply parsePointer_sequence|].
  intros T q i name ft e Hs Hf Hk He Hseq Hsp.
  destruct (structField _ _ _ _ _ _ _) as [h' o] eqn:H. simpl. intros ->.
  unfold structField in H.
  rewrite (Value_Field_lval T q false i name ft), bind_ret in H by done.
  inv_bind H. unfold bindField in H.
  unfold Value_Type at 1 in H. rewrite bind_ret in H.
  assert (is_plain_pointer ft = ret true) as Hplain.
  { unfold is_plain_pointer. rewrite decide_True by done.
    rewrite (Type_Elem_some ft e He), bind_ret.
    rewrite special_leaf_eqb in Hsp. apply not_false_is_true in Hsp.
    rewrite Hsp. reflexivity. }
  rewrite Hplain, bind_ret in H.
  rewrite (Type_Elem_some ft e He), bind_ret in H.
  rewrite decide_False in H by (destruct Hseq as [-> | ->]; discriminate).
  inv_bind H.
  pose proof (parsePointer_sequence n [a]
                (Lval ft (field_ptr q i) (false || negb (exported name))) ft e h0
                Hk eq_refl He Hseq) as Hp.
  rewrite Hr0 in Hp. apply ret_inv in H as [_ [= H]].
  destruct a0; [discriminate|]. contradiction.
Qed.

(** ** Nodes that make the binder panic *)

Section edge_nodes.
Variable pStruct : list any → any → M (option error).
Variable pSlice : list any → any → M (option error).
Variable pPointer : list any → Value → M (option error).

(** X6: a nil node bound to a field that is not a pointer makes the
    binder panic, whatever the type of the field: on the type assertion
    for a struct field, on [vType.String()] for a slice or array field,
    on [val.Type()] for a scalar field.  Nothing is written. *)
Theorem nil_node_panics
    (decoded : list any) (T : type) (q : ptr) (i : nat)
    (name : string) (ft : type) (h : heap) :
  type_Kind T = KStruct → struct_fields T !! i = Some (name, ft) →
  type_Kind ft ≠ KPtr → decoded !! i = Some None →
  ∃ p, structField pStruct pSlice pPointer decoded (Lval T q false) i h
       = (h, Panics p).
Proof.
  intros Hs Hf Hk Hd.
  rewrite (structField_at _ _ _ decoded T q i name ft None) by done.
  unfold bindField. unfold Value_Type at 1. rewrite bind_ret.
  rewrite is_plain_pointer_not_ptr, bind_ret by done.
  unfold Value_Kind.
  destruct (decide (type_Kind ft = KStruct)).
  { eexists. apply bind_panics, assert_anys_mismatch. reflexivity. }
  destruct (_ || _); [eexists; reflexivity|].
  rewrite decide_False by done.
  destruct (String.eqb _ "common.Address").
  - eexists. apply bind_panics, assert_string_mismatch. reflexivity.
  - eexists. reflexivity.
Qed.

(** X7: a string node bound to a field of slice or array kind whose
    type does not print as "common.Address" makes the binder panic:
    the string is handed to [Value.Set] as it is, and a string is not
    assignable to a slice or an array.  Nothing is written. *)
Theorem string_node_into_sequence_field
    (decoded : list any) (T : type) (q : ptr) (i : nat)
    (name : string) (ft : type) (s : string) (h : heap) :
  type_Kind T = KStruct → struct_fields T !! i = Some (name, ft) →
  sequence_kind ft → TrimPrefix (type_String ft) "*" ≠ "common.Address" →
  decoded !! i = Some (str s) →
  ∃ p, structField pStruct pSlice pPointer decoded (Lval T q false) i h
       = (h, Panics p).
Proof.
  intros Hs Hf Hk Hname Hd.
  rewrite (structField_at _ _ _ decoded T q i name ft (str s)) by done.
  rewrite bindField_sequence_head by done.
  unfold str. simpl TypeOf. unfold rtype_String. rewrite bind_ret.
  change (type_String (Basic TString)) with "string".
  change (String.eqb "string" "[]uint8" || String.eqb "string" "[]byte") with false.
  change (String.eqb "string" "string") with true. cbv iota.
  destruct (String.eqb_spec (TrimPrefix (type_String ft) "*") "common.Address");
    [contradiction|].
  destruct (Value_Set_other_kind ft (Basic TString) (field_ptr q i)
              (negb (exported name)) (VString s) h) as [p Hp];
    [destruct Hk as [-> | ->]; discriminate..|].
  exists p. apply Set_panics_then, Hp.
Qed.
End edge_nodes.

(** A nil node for the field [Count uint64]. *)
Lemma nil_node_panics_witness :
  ∃ p, structField (parseStruct 0) (parseSlice 0) (parsePointer 0)
         [None] (Lval (StructOf [("Count", Basic TUint64)]) (Ptr 0 []) false) 0
         [VStruct [VInt 0]]
       = ([VStruct [VInt 0]], Panics p).
Proof.
  apply (nil_node_panics (parseStruct 0) (parseSlice 0) (parsePointer 0)
           [None] (StructOf [("Count", Basic TUint64)]) (Ptr 0 []) 0
           "Count" (Basic TUint64));
    [reflexivity | reflexivity | discriminate | reflexivity].
Defined.

(** A hexadecimal string for the field [Data []byte]. *)
Lemma string_node_into_sequence_field_witness :
  ∃ p, structField (parseStruct 0) (parseSlice 0) (parsePointer 0)
         [str "0x0102"] (Lval (StructOf [("Data", bytes_type)]) (Ptr 0 []) false) 0
         [VStruct [VSlice []]]
       = ([VStruct [VSlice []]], Panics p).
Proof.
  apply (string_node_into_sequence_field (parseStruct 0) (parseSlice 0) (parsePointer 0)
           [str "0x0102"] (StructOf [("Data", bytes_type)]) (Ptr 0 []) 0
           "Data" bytes_type "0x0102");
    [reflexivity | reflexivity | left; reflexivity | vm_compute; discriminate | reflexivity].
Defined.

(** ** Pointers to scalars *)

Lemma Value_Elem_type_inv (v : Value) (pt e t : type) (p : ptr) (ro : bool) (h h' : heap) :
  Value_Kind v = KPtr → Value_Type v h = (h, Ret pt) → type_Elem pt = Some e →
  Value_Elem v h = (h', Ret (Lval t p ro)) → t = e.
Proof.
  intros Hk Ht He. unfold Value_Elem. intros H.
  inv_bind H. rewrite Hk in H.
  assert (Value_Type v h0 = (h0, Ret pt)) as Ht'.
  { apply Value_Type_inv in Ht as [_ [(? & ? & ->) | (? & ? & ->)]]; reflexivity. }
  rewrite (bind_run _ _ h0 h0 pt Ht') in H.
  destruct a as [| | |[q|]| | | |]; try discriminate.
  rewrite (Type_Elem_some pt e He), bind_ret in H.
  apply ret_inv in H as [_ [= <- _ _]]. reflexivity.
Qed.

(** [parsePointer] on a pointer to what is not a struct, a slice, an
    array or an interface value: the node list itself is handed to
    [Value.Set], which refuses it. *)
Lemma parsePointer_scalar
    (n : nat) (decoded : list any) (v : Value) (pt e : type) (h : heap) :
  Value_Kind v = KPtr → Value_Type v h = (h, Ret pt) → type_Elem pt = Some e →
  type_Kind e ≠ KStruct → type_Kind e ≠ KSlice → type_Kind e ≠ KArray →
  type_Kind e ≠ KInterface →
  snd (parsePointer n decoded v h) ≠ Ret None.
Proof.
  intros Hk Ht He Hs Hl Ha Hi. destruct n as [|n]; [discriminate|].
  rewrite parsePointer_S.
  destruct (parsePointer_body _ _ _ _ _) as [h' o] eqn:H. unfold parsePointer_body in H.
  simpl. intros ->.
  rewrite decide_True in H by done.
  rewrite (bind_run _ _ h h pt Ht) in H.
  rewrite (Type_Elem_some pt e He), bind_ret in H.
  inv_bind H. inv_bind H.
  assert ((let* x := Value_Elem v in
           Value_Set x (Direct any_slice (anys_val decoded) false) ;;; ret None) h1
          = (h', Ret None)) as H'
    by (destruct (type_Kind e); try contradiction; exact H).
  clear H. inv_bind H'. inv_bind H'.
  apply Value_Set_inv in Hr2 as [[_ Ho] | (t & p & xv & -> & Hx & _)].
  - destruct a2. contradiction.
  - assert (∀ g, Value_Type v g = (g, Ret pt)) as Ht'.
    { intros g.
      apply Value_Type_inv in Ht as [_ [(? & ? & ->) | (? & ? & ->)]]; reflexivity. }
    apply (Value_Elem_type_inv v pt e t p false _ _ Hk (Ht' _) He) in Hr1 as ->.
    rewrite assignTo_not in Hx; [discriminate| |exact Hi].
    destruct (directlyAssignable e any_slice) eqn:Hd; [|reflexivity].
    apply directlyAssignable_kind in Hd. contradiction.
Qed.

(** X8: what is behind a pointer to a scalar is never bound.  For a
    pointer to anything but a struct, a slice, an array or an interface
    value, [parsePointer] hands the node list itself to [Value.Set]; a
    node list is not assignable to such a type, so the call ends in a
    panic, whatever the nodes and the memory.  So the turn of the loop of
    [parseStruct] for a field such as [*uint64] or [*string] never
    succeeds. *)
Theorem pointer_to_scalar_is_never_bound (n : nat) (decoded : list any) (h : heap) :
  (∀ v pt e,
     Value_Kind v = KPtr → Value_Type v h = (h, Ret pt) → type_Elem pt = Some e →
     type_Kind e ≠ KStruct → type_Kind e ≠ KSlice → type_Kind e ≠ KArray →
     type_Kind e ≠ KInterface →
     snd (parsePointer n decoded v h) ≠ Ret None)
  ∧ (∀ T q i name ft e,
       type_Kind T = KStruct → struct_fields T !! i = Some (name, ft) →
       type_Kind ft = KPtr → type_Elem ft = Some e → ¬ special_leaf e →
       type_Kind e ≠ KStruct → type_Kind e ≠ KSlice → type_Kind e ≠ KArray →
       type_Kind e ≠ KInterface →
       snd (structField (parseStruct n) (parseSlice n) (parsePointer n)
              decoded (Lval T q false) i h) ≠ Ret None).
Proof.
  split; [intros v pt e; apply parsePointer_scalar|].
  intros T q i name ft e Hs Hf Hk He Hsp HnS HnL HnA HnI.
  destruct (structField _ _ _ _ _ _ _) as [h' o] eqn:H. simpl. intros ->.
  unfold structField in H.
  rewrite (Value_Field_lval T q false i name ft), bind_ret in H by done.
  inv_bind H. unfold bindField in H.
  unfold Value_Type at 1 in H. rewrite bind_ret in H.
  assert (is_plain_pointer ft = ret true) as Hplain.
  { unfold is_plain_pointer. rewrite decide_True by done.
    rewrite (Type_Elem_some ft e He), bind_ret.
    rewrite special_leaf_eqb in Hsp. apply not_false_is_true in Hsp.
    rewrite Hsp. reflexivity. }
  rewrite Hplain, bind_ret in H.
  rewrite (Type_Elem_some ft e He), bind_ret in H.
  rewrite decide_False in H by done.
  inv_bind H.
  pose proof (parsePointer_scalar n [a]
                (Lval ft (field_ptr q i) (false || negb (exported name))) ft e h0
                Hk eq_refl He HnS HnL HnA HnI) as Hp.
  rewrite Hr0 in Hp. apply ret_inv in H as [_ [= H]].
  destruct a0; [discriminate|]. contradiction.
Qed.

(** ** Termination and footprint *)

(** X9: [Parse] terminates.  Each call that one of the three functions
    makes to another either goes one level down in the nested node lists
    or is the call of [parsePointer] on the same list, which is not
    repeated; so the calls are nested at most [2 * d + 3] deep for nodes
    nested [d] deep.  With that much fuel the run ends (in a result, a
    panic or a fault), and more fuel gives the same run. *)
Theorem Parse_terminates (n m : nat) (decoded : list any) (v : any) (h : heap) :
  2 * nodes_depth decoded + 3 ≤ n →
  snd (Parse n decoded v h) ≠ OutOfFuel
  ∧ (n ≤ m → Parse m decoded v h = Parse n decoded v h).
Proof.
  intros Hn.
  assert (snd (Parse n decoded v h) ≠ OutOfFuel) as Hlive.
  { unfold Parse.
    apply (proj1 (binder_live (nodes_depth decoded))); [exact Hn | reflexivity]. }
  split; [exact Hlive|]. intros Hm. unfold Parse in *.
  destruct (proj1 (binder_fuel_mono n m Hm) decoded v h) as [H|H]; [|exact H].
  contradiction.
Qed.

Lemma Parse_terminates_witness :
  snd (Parse 5 record_nodes (ref Record_t (Ptr 0 [])) [zero Record_t]) ≠ OutOfFuel
  ∧ (5 ≤ 9 →
     Parse 9 record_nodes (ref Record_t (Ptr 0 [])) [zero Record_t]
     = Parse 5 record_nodes (ref Record_t (Ptr 0 [])) [zero Record_t]).
Proof.
  apply (Parse_terminates 5 9 record_nodes (ref Record_t (Ptr 0 [])) [zero Record_t]).
  vm_compute. reflexivity.
Defined.

(** X10: the footprint of [Parse].  Called on a pointer to a variable that
    holds the zero value of its type, [Parse] writes to that variable and
    to storage it allocates itself, and to nothing else, whatever the
    nodes and whatever the outcome (success, error or panic): the memory
    it leaves is the one it found with the target rewritten and new cells
    added at the end; no cell is removed, and every variable in another
    cell keeps its value. *)
Theorem Parse_footprint
    (n : nat) (decoded : list any) (pt T : type) (q : ptr)
    (h h' : heap) (o : outcome (option error)) :
  type_Kind pt = KPtr → type_Elem pt = Some T → load h q = Some (zero T) →
  Parse n decoded (Some (pt, VPtr (Some q))) h = (h', o) →
  (∃ v b ext, store h q v = Some b ∧ h' = b ++ ext)
  ∧ length h ≤ length h'
  ∧ ∀ r, ploc r < length h → ploc r ≠ ploc q → load h' r = load h r.
Proof.
  intros Hk He Hz H.
  assert (rewritten_at q h h') as Hrw.
  { destruct (binder_frames n) as (HS & _). exact (HS decoded pt T q h Hk He Hz h' o H). }
  split; [exact Hrw|]. split; [eapply rewritten_length; eauto|].
  intros r Hr Hne. eapply rewritten_load_other; eauto.
Qed.

(** A record bound next to a variable that holds 99. *)
Lemma Parse_footprint_witness :
  (∃ v b ext, store [zero Small_t; VInt 99] (Ptr 0 []) v = Some b
              ∧ [VStruct [VInt 7]; VInt 99] = b ++ ext)
  ∧ length [zero Small_t; VInt 99] ≤ length [VStruct [VInt 7]; VInt 99]
  ∧ ∀ r, ploc r < length [zero Small_t; VInt 99] → ploc r ≠ ploc (Ptr 0 []) →
         load [VStruct [VInt 7]; VInt 99] r = load [zero Small_t; VInt 99] r.
Proof.
  exact (Parse_footprint 2 [int_ 7] (PtrTo Small_t) Small_t (Ptr 0 [])
           [zero Small_t; VInt 99] [VStruct [VInt 7]; VInt 99] (Ret None)
           eq_refl eq_refl eq_refl eq_refl).
Defined.

(** ** Binding a well-shaped node list *)

Lemma is_plain_pointer_plain (t : type) : is_plain_pointer t = ret (plain_pointer t).
Proof.
  unfold is_plain_pointer, plain_pointer.
  destruct (decide (type_Kind t = KPtr)) as [Hk|Hk].
  - destruct (kind_ptr_elem t Hk) as [e He].
    rewrite (Type_Elem_some t e He), bind_ret, Hk, He. reflexivity.
  - destruct (type_Kind t); try reflexivity. contradiction.
Qed.


Lemma map_val_any_VIface (l : list any) : map val_any (map VIface l) = l.
Proof. induction l as [|x l IH]; simpl; congruence. Qed.

Lemma node_list_lst (l : list any) : node_list (lst l) = Some l.
Proof. unfold node_list, lst, anys_val. simpl. rewrite map_val_any_VIface. reflexivity. Qed.

Lemma node_list_inv (d : any) (l : list any) :
  node_list d = Some l → ∃ l0, d = Some (any_slice, VSlice l0) ∧ l = map val_any l0.
Proof.
  unfold node_list. destruct d as [[t []]|]; try discriminate.
  destruct (type_eqb t any_slice) eqn:Ht; [|discriminate].
  apply type_eqb_eq in Ht as ->. intros [= <-]. eauto.
Qed.

Lemma assert_anys_node_list (d : any) (l : list any) :
  node_list d = Some l → assert_anys d = ret l.
Proof.
  intros (l0 & -> & ->)%node_list_inv.
  unfold assert_anys, assert_type, assert_ok, from_option.
  rewrite type_eqb_refl, bind_ret. reflexivity.
Qed.

(** Two writes to the same variable, with allocations in between. *)
Lemma binds_to_after (q : ptr) (x y : val) (m : M (option error)) (h b1 e1 : heap) :
  store h q x = Some b1 → binds_to q y m (b1 ++ e1) →
  ∃ b ext, store h q y = Some b ∧ m (b1 ++ e1) = (b ++ ext, Ret None).
Proof.
  intros Hs (b2 & e2 & Hs2 & Hm).
  apply store_app_inv in Hs2 as (b & Hb & ->);
    [|rewrite (store_length _ _ _ _ Hs); eapply store_valid; eauto].
  rewrite (store_twice _ _ _ _ _ Hs) in Hb.
  exists b, (e1 ++ e2). split; [exact Hb|]. rewrite Hm, app_assoc. reflexivity.
Qed.

Lemma binds_to_ret (q : ptr) (y : val) (h : heap) :
  load h q = Some y → binds_to q y (ret None) h.
Proof.
  intros Hl. exists h, []. split; [apply store_load, Hl|].
  rewrite app_nil_r. reflexivity.
Qed.

Lemma fields_step (news olds : list val) (k : nat) (y : val) :
  news !! k = Some y → k < length olds →
  <[k:=y]> (take k news ++ drop k olds) = take (S k) news ++ drop (S k) olds.
Proof.
  intros Hy Hk. destruct (lookup_lt_is_Some_2 olds k Hk) as [o Ho].
  pose proof (lookup_lt_Some _ _ _ Hy) as Hlt.
  rewrite (take_S_r news k y Hy), (drop_S olds o k Ho).
  rewrite insert_app_r_alt by (rewrite length_take; lia).
  rewrite length_take, Nat.min_l, Nat.sub_diag by lia. simpl.
  rewrite <- app_assoc. reflexivity.
Qed.

Lemma fields_lookup (news olds : list val) (k : nat) :
  k ≤ length news → (take k news ++ drop k olds) !! k = olds !! k.
Proof.
  intros Hk. rewrite lookup_app_r by (rewrite length_take; lia).
  rewrite length_take, Nat.min_l, Nat.sub_diag, lookup_drop, Nat.add_0_r by lia.
  reflexivity.
Qed.

Section struct_loop.
Variable pStruct : list any → any → M (option error).
Variable pSlice : list any → any → M (option error).
Variable pPointer : list any → Value → M (option error).

Variables (T : type) (q : ptr) (decoded : list any) (olds news : list val).
Variable stop : nat.

Hypothesis T_struct : type_Kind T = KStruct.
Hypothesis olds_length : length olds = length (struct_fields T).
Hypothesis stop_fields : stop ≤ length (struct_fields T).
Hypothesis stop_news : stop ≤ length news.
Hypothesis stop_decoded : stop ≤ length decoded.
Hypothesis fields_bind :
  ∀ i name t o d y,
    i < stop → struct_fields T !! i = Some (name, t) → olds !! i = Some o →
    decoded !! i = Some d → news !! i = Some y →
    exported name = true
    ∧ ∀ h, load h (field_ptr q i) = Some o →
           binds_to (field_ptr q i) y
             (bindField pStruct pSlice pPointer (Lval t (field_ptr q i) false) d) h.

(** The loop of [parseStruct] over the fields [k], ..., [stop - 1]. *)
Lemma struct_loop (j k : nat) (h : heap) :
  k + j = stop →
  load h q = Some (VStruct (take k news ++ drop k olds)) →
  binds_to q (VStruct (take stop news ++ drop stop olds))
    (for_each (structField pStruct pSlice pPointer decoded (Lval T q false)) (seq k j)) h.
Proof.
  revert k h. induction j as [|j IH]; intros k h Hk Hl.
  - rewrite Nat.add_0_r in Hk. subst k. simpl seq. rewrite for_each_nil.
    apply binds_to_ret, Hl.
  - simpl seq. rewrite for_each_cons.
    destruct (lookup_lt_is_Some_2 (struct_fields T) k ltac:(lia)) as [[name t] Hf].
    destruct (lookup_lt_is_Some_2 olds k ltac:(lia)) as [o Ho].
    destruct (lookup_lt_is_Some_2 decoded k ltac:(lia)) as [d Hd].
    destruct (lookup_lt_is_Some_2 news k ltac:(lia)) as [y Hy].
    destruct (fields_bind k name t o d y ltac:(lia) Hf Ho Hd Hy) as [Hx Hb].
    rewrite (structField_at _ _ _ decoded T q k name t d) by done.
    rewrite Hx. simpl negb.
    destruct (Hb h) as (b1 & e1 & Hs1 & Hr1).
    { rewrite (load_field h q k _ Hl), fields_lookup by lia. exact Ho. }
    rewrite (store_field h q k y _ Hl) in Hs1
      by (rewrite length_app, length_take, length_drop; lia).
    rewrite fields_step in Hs1 by (auto; lia).
    destruct (binds_to_after q _ (VStruct (take stop news ++ drop stop olds))
                (for_each (structField pStruct pSlice pPointer decoded (Lval T q false))
                   (seq (S k) j)) h b1 e1 Hs1) as (b & ext & Hb' & Hm).
    { apply IH; [lia|]. apply load_app. eapply load_store; eauto. }
    exists b, ext. split; [exact Hb'|].
    rewrite (bind_run _ _ h _ None Hr1). exact Hm.
Qed.
End struct_loop.

Lemma fields_bound_spec (f : type → val → any → option val)
    (fs : list (string * type)) (olds : list val) (ds : list any) (ys : list val) :
  fields_bound f fs olds ds = Some ys →
  length olds = length fs ∧ length ds = length fs ∧ length ys = length fs
  ∧ ∀ i name t o d y,
      fs !! i = Some (name, t) → olds !! i = Some o → ds !! i = Some d →
      ys !! i = Some y →
      exported name = true ∧ f t o d = Some y.
Proof.
  revert olds ds ys. induction fs as [|[name t] fs IH]; intros olds ds ys.
  - destruct olds, ds; try discriminate. intros [= <-].
    split; [reflexivity|]. split; [reflexivity|]. split; [reflexivity|].
    intros i ? ? ? ? ? H. destruct i; discriminate.
  - destruct olds as [|o olds], ds as [|d ds]; try discriminate. simpl.
    destruct (exported name) eqn:Hx; [|discriminate].
    destruct (f t o d) as [y|] eqn:Hy; [|discriminate]. simpl.
    destruct (fields_bound f fs olds ds) as [ys'|] eqn:Hys; [|discriminate]. simpl.
    intros [= <-]. destruct (IH _ _ _ Hys) as (H1 & H2 & H3 & H4).
    simpl. split; [congruence|]. split; [congruence|]. split; [congruence|].
    intros i name' t' o' d' y' Hf Ho Hd Hy'.
    destruct i; simpl in *; [split; congruence | eapply H4; eauto].
Qed.

Lemma assignTo_element_of (E vt : type) (x0 x : val) :
  element_of E (Some (vt, x0)) = Some x → assignTo (Direct vt x0 false) E = ret x.
Proof.
  unfold element_of, assignTo, Value_get, Value_Type, Value_Kind.
  rewrite !bind_ret.
  destruct (directlyAssignable E vt); [intros [= ->]; reflexivity|].
  destruct (implements E vt); [|discriminate].
  intros [= <-]. destruct (type_Kind vt); reflexivity.
Qed.

Lemma store_fresh_cell (h : heap) (z y : val) :
  store (h ++ [z]) (Ptr (length h) []) y = Some (h ++ [y]).
Proof.
  unfold store. simpl. rewrite lookup_app_r, Nat.sub_diag by lia. simpl.
  rewrite insert_app_r_alt, Nat.sub_diag by lia. reflexivity.
Qed.

Lemma load_fresh_cell (h : heap) (z : val) :
  load (h ++ [z]) (Ptr (length h) []) = Some z.
Proof. unfold load. simpl. rewrite lookup_app_r, Nat.sub_diag by lia. reflexivity. Qed.

(** [reflect.Append] of the value of a variable. *)
Lemma reflect_Append_variable (rt E : type) (p np : ptr) (cur : list val) (y : val)
    (h : heap) :
  type_Kind rt = KSlice → type_Elem rt = Some E →
  load h p = Some (VSlice cur) → load h np = Some y →
  reflect_Append (Lval rt p false) (Lval E np false) h
  = (h, Ret (Direct rt (VSlice (cur ++ [y])) false)).
Proof.
  intros Hk He Hp Hn. unfold reflect_Append, Value_ro, Value_Kind.
  rewrite decide_True by done.
  rewrite (bind_run (Value_get "Append" (Lval rt p false)) _ h h (VSlice cur))
    by (apply Value_get_lval; eauto).
  unfold Value_Type at 1. rewrite bind_ret.
  rewrite (Type_Elem_some rt E He), bind_ret.
  unfold assignTo. rewrite bind_assoc.
  rewrite (bind_run (Value_get "Set" (Lval E np false)) _ h h y)
    by (apply Value_get_lval; eauto).
  unfold Value_Type. rewrite bind_ret, directlyAssignable_refl, bind_ret. reflexivity.
Qed.

Section slice_steps.
Variable pStruct : list any → any → M (option error).
Variable pSlice : list any → any → M (option error).
Variable pPointer : list any → Value → M (option error).

Variables (rt E : type) (p : ptr).
Hypothesis rt_slice : type_Kind rt = KSlice.
Hypothesis rt_elem : type_Elem rt = Some E.

(** The turn of the loop of [parseSlice] for an element type whose
    nodes are appended as they are. *)
Lemma sliceElem_raw (di : any) :
  raw_element E →
  sliceElem pStruct pSlice pPointer (Lval rt p false) rt E di
  = let* s := reflect_Append (Lval rt p false) (ValueOf di) in
    Value_Set (Lval rt p false) s ;;; ret None.
Proof.
  intros (Hp & Hs & Hl & Ha). unfold sliceElem.
  rewrite is_plain_pointer_plain, bind_ret, Hp.
  rewrite decide_False by done.
  rewrite !bool_decide_eq_false_2 by done. reflexivity.
Qed.

Lemma raw_step (d : any) (x : val) (cur : list val) (h : heap) :
  raw_element E → element_of E d = Some x → load h p = Some (VSlice cur) →
  ∃ b, store h p (VSlice (cur ++ [x])) = Some b
       ∧ sliceElem pStruct pSlice pPointer (Lval rt p false) rt E d h = (b, Ret None).
Proof.
  intros Hraw Hx Hl.
  destruct (store_is_Some h p (VSlice (cur ++ [x]))) as [b Hb]; [eauto|].
  exists b. split; [exact Hb|].
  rewrite sliceElem_raw by done.
  destruct d as [[vt x0]|]; [|discriminate]. simpl ValueOf.
  rewrite (bind_run _ _ h h (Direct rt (VSlice (cur ++ [x])) false)).
  - rewrite (bind_run _ _ h b tt); [reflexivity|].
    apply Value_Set_store; [apply directlyAssignable_refl | exact Hb].
  - rewrite (reflect_Append_lval rt E vt p x0 cur h) by done.
    rewrite (assignTo_element_of E vt x0 x Hx), bind_ret. reflexivity.
Qed.

(** The loop of [parseSlice] over nodes that are appended as they
    are. *)
Lemma raw_loop (l : list any) (xs : list val) :
  raw_element E → Forall2 (fun d x => element_of E d = Some x) l xs →
  ∀ cur h, load h p = Some (VSlice cur) →
    ∃ b, store h p (VSlice (cur ++ xs)) = Some b
         ∧ for_each (sliceElem pStruct pSlice pPointer (Lval rt p false) rt E) l h
           = (b, Ret None).
Proof.
  intros Hraw HF. induction HF as [|d x l xs Hx HF IH]; intros cur h Hl.
  - exists h. rewrite app_nil_r. split; [apply store_load, Hl | reflexivity].
  - destruct (raw_step d x cur h Hraw Hx Hl) as (b1 & Hb1 & Hr1).
    destruct (IH (cur ++ [x]) b1 (load_store _ _ _ _ Hb1)) as (b & Hb & Hr).
    exists b. rewrite <- app_assoc in Hb. simpl in Hb.
    rewrite (store_twice _ _ _ _ _ Hb1) in Hb. split; [exact Hb|].
    rewrite for_each_cons, (bind_run _ _ h b1 None Hr1). exact Hr.
Qed.

(** The loop of [parseSlice] over nodes each of which appends one
    element. *)
Lemma slice_loop_run (l : list any) (ys : list val) :
  Forall2 (fun d y =>
             ∀ cur h, load h p = Some (VSlice cur) →
               binds_to p (VSlice (cur ++ [y]))
                 (sliceElem pStruct pSlice pPointer (Lval rt p false) rt E d) h) l ys →
  ∀ cur h, load h p = Some (VSlice cur) →
    binds_to p (VSlice (cur ++ ys))
      (for_each (sliceElem pStruct pSlice pPointer (Lval rt p false) rt E) l) h.
Proof.
  intros HF. induction HF as [|d y l ys Hy HF IH]; intros cur h Hl.
  - rewrite app_nil_r, for_each_nil. apply binds_to_ret, Hl.
  - destruct (Hy cur h Hl) as (b1 & e1 & Hb1 & Hr1).
    destruct (binds_to_after p _ (VSlice (cur ++ y :: ys))
                (for_each (sliceElem pStruct pSlice pPointer (Lval rt p false) rt E) l)
                h b1 e1 Hb1) as (b & ext & Hb & Hm).
    { replace (cur ++ y :: ys) with ((cur ++ [y]) ++ ys)
        by (rewrite <- app_assoc; reflexivity).
      apply IH. apply load_app. eapply load_store; eauto. }
    exists b, ext. split; [exact Hb|].
    rewrite for_each_cons, (bind_run _ _ h _ None Hr1). exact Hm.
Qed.

(** The turn of the loop of [parseSlice] for a struct element: a new
    struct is bound and its value appended. *)
Lemma struct_elem_step (d : any) (l : list any) (y : val) (cur : list val) (h : heap) :
  type_Kind E = KStruct → node_list d = Some l →
  (∀ np h1, load h1 np = Some (zero E) →
     binds_to np y (pStruct l (Some (PtrTo E, VPtr (Some np)))) h1) →
  load h p = Some (VSlice cur) →
  binds_to p (VSlice (cur ++ [y]))
    (sliceElem pStruct pSlice pPointer (Lval rt p false) rt E d) h.
Proof.
  intros Hs Hd Hbind Hl.
  destruct (store_is_Some h p (VSlice (cur ++ [y]))) as [b Hb]; [eauto|].
  destruct (Hbind (Ptr (length h) []) (h ++ [zero E]) (load_fresh_cell h _))
    as (b1 & e1 & Hb1 & Hr1).
  rewrite store_fresh_cell in Hb1. injection Hb1 as <-.
  exists b, ([y] ++ e1). split; [exact Hb|].
  unfold sliceElem.
  rewrite is_plain_pointer_plain, bind_ret.
  assert (plain_pointer E = false) as ->
    by (unfold plain_pointer; rewrite Hs; reflexivity).
  rewrite decide_True by done.
  rewrite (bind_run _ _ h _ _ (reflect_New_run E h)).
  rewrite (assert_anys_node_list d l Hd), bind_ret.
  unfold Value_Interface, Value_ro, Value_get, Value_Type, Value_Kind.
  rewrite !bind_ret. simpl type_Kind. cbv iota. rewrite bind_ret.
  rewrite (bind_run _ _ _ _ None Hr1).
  rewrite (Value_Elem_direct (PtrTo E) E), bind_ret by done.
  rewrite (bind_run _ _ _ _ _
             (reflect_Append_variable rt E p (Ptr (length h) []) cur y
                ((h ++ [y]) ++ e1) rt_slice rt_elem
                (load_app _ _ _ _ (load_app _ _ _ _ Hl))
                (load_app _ _ _ _ (load_fresh_cell h y)))).
  rewrite (bind_run _ _ _ ((b ++ [y]) ++ e1) tt).
  - rewrite <- app_assoc. reflexivity.
  - apply Value_Set_store; [apply directlyAssignable_refl|].
    apply store_app, store_app, Hb.
Qed.
End slice_steps.

Lemma bound_S (n : nat) (ft : type) (old : val) (di : any) :
  bound (S n) ft old di
  = if plain_pointer ft then None
    else
      match type_Kind ft with
      | KStruct =>
          l ← node_list di;
          match old with
          | VStruct olds => VStruct <$> fields_bound (bound n) (struct_fields ft) olds l
          | _ => None
          end
      | KSlice =>
          match di with
          | Some (vt, x) =>
              if type_eqb vt bytes_type then
                if directlyAssignable ft bytes_type then Some x else None
              else
                l ← node_list di;
                E ← type_Elem ft;
                match old with
                | VSlice cur =>
                    if plain_pointer E then None
                    else
                      match type_Kind E with
                      | KStruct =>
                          ys ← mapM (bound n E (zero E)) l; Some (VSlice (cur ++ ys))
                      | KSlice | KArray => None
                      | _ => xs ← mapM (element_of E) l; Some (VSlice (cur ++ xs))
                      end
                | _ => None
                end
          | None => None
          end
      | KArray =>
          match di with
          | Some (vt, VString s) =>
              if type_eqb vt (Basic TString) && type_eqb ft common_Address
              then Some (HexToAddress s) else None
          | _ => None
          end
      | KPtr =>
          if type_eqb ft (PtrTo big_Int) then assert_ok di (PtrTo big_Int) else None
      | _ =>
          if String.eqb (TrimPrefix (type_String ft) "*") "common.Address" then None
          else
            match di with
            | Some (vt, x) => scalar_value ft vt x
            | None => None
            end
      end.
Proof. reflexivity. Qed.

#[global] Arguments bound : simpl never.

Lemma Set_binds (ft V : type) (fq : ptr) (y old : val) (h : heap) :
  directlyAssignable ft V = true → load h fq = Some old →
  binds_to fq y (Value_Set (Lval ft fq false) (Direct V y false) ;;; ret None) h.
Proof.
  intros Ha Hl. destruct (store_is_Some h fq y) as [b Hb]; [eauto|].
  exists b, []. split; [exact Hb|]. rewrite app_nil_r.
  rewrite (bind_run _ _ h b tt) by (apply Value_Set_store; done). reflexivity.
Qed.

Section field_cases.
Variable pStruct : list any → any → M (option error).
Variable pSlice : list any → any → M (option error).
Variable pPointer : list any → Value → M (option error).

Lemma field_scalar (ft vt : type) (fq : ptr) (x y old : val) (h : heap) :
  scalar_type ft → scalar_value ft vt x = Some y → load h fq = Some old →
  binds_to fq y (bindField pStruct pSlice pPointer (Lval ft fq false) (Some (vt, x))) h.
Proof.
  intros Hsc Hv Hl. rewrite bindField_scalar by done.
  unfold scalar_value in Hv. destruct (type_eqb vt ft) eqn:Ht.
  - injection Hv as ->. apply type_eqb_eq in Ht as ->.
    eapply Set_binds; [apply directlyAssignable_refl | eauto].
  - destruct (convertOp ft vt) as [op|]; [|discriminate]. injection Hv as <-.
    eapply Set_binds; [apply directlyAssignable_refl | eauto].
Qed.

Lemma field_address (fq : ptr) (s : string) (old : val) (h : heap) :
  load h fq = Some old →
  binds_to fq (HexToAddress s)
    (bindField pStruct pSlice pPointer (Lval common_Address fq false) (str s)) h.
Proof.
  intros Hl. rewrite bindField_sequence_head by (right; reflexivity).
  unfold str. simpl TypeOf. unfold rtype_String. rewrite bind_ret.
  change (type_String (Basic TString)) with "string".
  change (String.eqb "string" "[]uint8" || String.eqb "string" "[]byte") with false.
  change (String.eqb "string" "string") with true. cbv iota.
  change (String.eqb (TrimPrefix (type_String common_Address) "*") "common.Address")
    with true. cbv iota.
  unfold assert_string, assert_type, assert_ok, from_option.
  rewrite type_eqb_refl, !bind_ret.
  eapply Set_binds; [apply directlyAssignable_refl | eauto].
Qed.

Lemma field_bytes (ft : type) (fq : ptr) (x old : val) (h : heap) :
  type_Kind ft = KSlice → directlyAssignable ft bytes_type = true →
  load h fq = Some old →
  binds_to fq x
    (bindField pStruct pSlice pPointer (Lval ft fq false) (Some (bytes_type, x))) h.
Proof.
  intros Hk Ha Hl. rewrite bindField_sequence_head by (left; exact Hk).
  simpl TypeOf. unfold rtype_String. rewrite bind_ret.
  change (type_String bytes_type) with "[]uint8".
  change (String.eqb "[]uint8" "[]uint8" || String.eqb "[]uint8" "[]byte") with true.
  cbv iota.
  unfold assert_type, assert_ok, from_option. rewrite type_eqb_refl, bind_ret.
  eapply Set_binds; eauto.
Qed.

Lemma field_big_Int (fq : ptr) (di : any) (y old : val) (h : heap) :
  assert_ok di (PtrTo big_Int) = Some y → load h fq = Some old →
  binds_to fq y
    (bindField pStruct pSlice pPointer (Lval (PtrTo big_Int) fq false) di) h.
Proof.
  intros Hd Hl. rewrite bindField_big_Int by reflexivity. rewrite Hd.
  eapply Set_binds; [apply directlyAssignable_refl | eauto].
Qed.

Lemma field_node_list (ft : type) (fq : ptr) (di : any) (l : list any) (y : val)
    (h : heap) :
  type_Kind ft = KSlice → node_list di = Some l →
  binds_to fq y (pSlice l (Some (PtrTo ft, VPtr (Some fq)))) h →
  binds_to fq y (bindField pStruct pSlice pPointer (Lval ft fq false) di) h.
Proof.
  intros Hk Hd (b & ext & Hb & Hr). exists b, ext. split; [exact Hb|].
  rewrite bindField_sequence_head by (left; exact Hk).
  rewrite (assert_anys_node_list di l Hd).
  apply node_list_inv in Hd as (l0 & -> & ->).
  simpl TypeOf. unfold rtype_String. rewrite bind_ret.
  change (type_String any_slice) with "[]interface {}".
  change (String.eqb "[]interface {}" "[]uint8" || String.eqb "[]interface {}" "[]byte")
    with false.
  change (String.eqb "[]interface {}" "string") with false. cbv iota.
  rewrite bind_ret. unfold Value_Addr. rewrite bind_ret.
  unfold Value_Interface, Value_ro, Value_get, Value_Type, Value_Kind.
  rewrite !bind_ret. simpl type_Kind. cbv iota. rewrite bind_ret.
  rewrite (bind_run _ _ _ _ None Hr). reflexivity.
Qed.

Lemma field_struct (ft : type) (fq : ptr) (di : any) (l : list any) (y : val)
    (h : heap) :
  type_Kind ft = KStruct → node_list di = Some l →
  binds_to fq y (pStruct l (Some (PtrTo ft, VPtr (Some fq)))) h →
  binds_to fq y (bindField pStruct pSlice pPointer (Lval ft fq false) di) h.
Proof.
  intros Hk Hd (b & ext & Hb & Hr). exists b, ext. split; [exact Hb|].
  unfold bindField. unfold Value_Type at 1. rewrite bind_ret.
  rewrite is_plain_pointer_not_ptr, bind_ret by (rewrite Hk; discriminate).
  unfold Value_Kind. rewrite decide_True by done.
  rewrite (assert_anys_node_list di l Hd), bind_ret.
  unfold Value_Addr. rewrite bind_ret.
  unfold Value_Interface, Value_ro, Value_get, Value_Type, Value_Kind.
  rewrite !bind_ret. simpl type_Kind. cbv iota. rewrite bind_ret.
  rewrite (bind_run _ _ _ _ None Hr). reflexivity.
Qed.
End field_cases.

(** What [parseStruct] does on a struct whose fields the dispatch binds
    ([bound_fields] says they do). *)
Lemma parseStruct_binds
    (m : nat) (T pt : type) (q : ptr) (olds ys : list val) (l : list any) (h : heap)
    (f : type → val → any → option val) :
  type_Kind pt = KPtr → type_Elem pt = Some T → type_Kind T = KStruct →
  fields_bound f (struct_fields T) olds l = Some ys →
  (∀ ft old di y, f ft old di = Some y → ∀ fq h1, load h1 fq = Some old →
     binds_to fq y
       (bindField (parseStruct m) (parseSlice m) (parsePointer m) (Lval ft fq false) di) h1) →
  load h q = Some (VStruct olds) →
  binds_to q (VStruct ys) (parseStruct (S m) l (Some (pt, VPtr (Some q)))) h.
Proof.
  intros Hp He Hs Hfb Hf Hl.
  destruct (fields_bound_spec _ _ _ _ _ Hfb) as (Ho & Hd & Hy & Hpt).
  rewrite (parseStruct_head m l pt T q) by done.
  rewrite Hd, Nat.eqb_refl. simpl negb. simpl andb. cbv iota.
  pose proof (struct_loop (parseStruct m) (parseSlice m) (parsePointer m)
                T q l olds ys (length (struct_fields T)) Hs Ho
                ltac:(lia) ltac:(lia) ltac:(lia)) as Hloop.
  assert (take (length (struct_fields T)) ys ++ drop (length (struct_fields T)) olds = ys)
    as Heq by (rewrite take_ge, drop_ge by lia; apply app_nil_r).
  rewrite Heq in Hloop.
  apply (Hloop); [|reflexivity | exact Hl].
  intros i name t o d y Hi Hfi Hoi Hdi Hyi.
  destruct (Hpt i name t o d y Hfi Hoi Hdi Hyi) as [Hx Hb].
  split; [exact Hx|]. intros h1 Hl1. eapply Hf; eauto.
Qed.

Lemma scalar_kind (ft : type) :
  type_Kind ft ≠ KPtr → type_Kind ft ≠ KStruct → type_Kind ft ≠ KSlice →
  type_Kind ft ≠ KArray →
  String.eqb (TrimPrefix (type_String ft) "*") "common.Address" = false →
  scalar_type ft.
Proof. intros ? ? ? ? H%String.eqb_neq. repeat split; assumption. Qed.

(** [bound] is what the binder does: the dispatch on a field, and
    [parseStruct] on a struct. *)
Lemma bound_sound (n : nat) :
  (∀ ft old di y, bound n ft old di = Some y →
     ∀ m, n ≤ m → ∀ fq h, load h fq = Some old →
       binds_to fq y
         (bindField (parseStruct m) (parseSlice m) (parsePointer m) (Lval ft fq false) di) h)
  ∧ (∀ T old di l y, type_Kind T = KStruct → bound n T old di = Some y →
       node_list di = Some l →
       ∀ m, n ≤ m → ∀ pt q h,
         type_Kind pt = KPtr → type_Elem pt = Some T → load h q = Some old →
         binds_to q y (parseStruct m l (Some (pt, VPtr (Some q)))) h).
Proof.
  induction n as [|n [IHA IHS]]; [split; intros; discriminate|].
  assert (∀ T old di l y, type_Kind T = KStruct → bound (S n) T old di = Some y →
            node_list di = Some l →
            ∀ m, S n ≤ m → ∀ pt q h,
              type_Kind pt = KPtr → type_Elem pt = Some T → load h q = Some old →
              binds_to q y (parseStruct m l (Some (pt, VPtr (Some q)))) h) as HS.
  { intros T old di l y Hs Hb Hd m Hm pt q h Hp He Hl.
    rewrite bound_S in Hb. destruct (plain_pointer T); [discriminate|].
    rewrite Hs, Hd in Hb. simpl in Hb.
    destruct old as [| | | | | |olds|]; try discriminate.
    destruct (fields_bound (bound n) (struct_fields T) olds l) as [ys|] eqn:Hfb;
      [|discriminate].
    injection Hb as <-. destruct m as [|m]; [lia|].
    eapply parseStruct_binds; eauto.
    intros ft old di' y Hy fq h1 Hl1. eapply IHA; eauto. lia. }
  split; [|exact HS].
  intros ft old di y Hb m Hm fq h Hl.
  rewrite bound_S in Hb. destruct (plain_pointer ft) eqn:Hpl; [discriminate|].
  destruct (decide (type_Kind ft = KStruct)) as [Hs|Hs].
  { rewrite Hs in Hb. destruct (node_list di) as [l|] eqn:Hd; [|discriminate].
    eapply field_struct; eauto.
    eapply (HS ft old di l y); eauto.
    rewrite bound_S, Hpl, Hs, Hd. exact Hb. }
  destruct (decide (type_Kind ft = KSlice)) as [Hsl|Hsl].
  { rewrite Hsl in Hb. destruct di as [[vt x]|]; [|discriminate].
    destruct (type_eqb vt bytes_type) eqn:Hvt.
    { apply type_eqb_eq in Hvt as ->.
      destruct (directlyAssignable ft bytes_type) eqn:Ha; [|discriminate].
      injection Hb as <-. eapply field_bytes; eauto. }
    destruct (node_list (Some (vt, x))) as [l|] eqn:Hd; [|discriminate]. simpl in Hb.
    destruct (type_Elem ft) as [E|] eqn:HE; [|discriminate]. simpl in Hb.
    destruct old as [| | | |cur| | |]; try discriminate.
    destruct (plain_pointer E) eqn:HplE; [discriminate|].
    destruct m as [|m]; [lia|].
    eapply field_node_list; eauto.
    rewrite (parseSlice_head m l (PtrTo ft) ft E fq) by done.
    destruct (decide (type_Kind E = KStruct)) as [HsE|HsE].
    - rewrite HsE in Hb.
      destruct (mapM (bound n E (zero E)) l) as [ys|] eqn:Hys; [|discriminate].
      injection Hb as <-. apply mapM_Some in Hys.
      apply slice_loop_run; [done.. | | exact Hl].
      eapply Forall2_impl; [exact Hys|]. intros d y Hy cur' h' Hl'.
      destruct (node_list d) as [l'|] eqn:Hd'.
      + eapply struct_elem_step; eauto.
        intros np h1 Hl1. eapply (IHS E (zero E) d l' y); eauto; lia.
      + exfalso. destruct n as [|n']; [discriminate|].
        rewrite bound_S in Hy. destruct (plain_pointer E); [discriminate|].
        rewrite HsE, Hd' in Hy. discriminate.
    - assert (raw_element E ∧ ∃ xs, mapM (element_of E) l = Some xs ∧ y = VSlice (cur ++ xs))
        as [Hraw (xs & Hxs & ->)].
      { destruct (type_Kind E) eqn:HkE; try discriminate; try contradiction;
          (destruct (mapM (element_of E) l) as [xs|]; [|discriminate];
           injection Hb as <-;
           split; [repeat split; try assumption; rewrite ?HkE; discriminate | eauto]). }
      apply mapM_Some in Hxs.
      destruct (raw_loop (parseStruct m) (parseSlice m) (parsePointer m)
                  ft E fq Hsl HE l xs Hraw Hxs cur h Hl) as (b & Hb' & Hr).
      exists b, []. rewrite app_nil_r. auto. }
  destruct (decide (type_Kind ft = KArray)) as [Ha|Ha].
  { rewrite Ha in Hb. destruct di as [[vt []]|]; try discriminate.
    destruct (type_eqb vt (Basic TString)) eqn:Hvt; [|discriminate].
    destruct (type_eqb ft common_Address) eqn:Hft; [|discriminate].
    apply type_eqb_eq in Hvt as ->. apply type_eqb_eq in Hft as ->.
    injection Hb as <-. eapply field_address; eauto. }
  destruct (decide (type_Kind ft = KPtr)) as [Hp|Hp].
  { rewrite Hp in Hb. destruct (type_eqb ft (PtrTo big_Int)) eqn:Hft; [|discriminate].
    apply type_eqb_eq in Hft as ->. eapply field_big_Int; eauto. }
  assert (String.eqb (TrimPrefix (type_String ft) "*") "common.Address" = false
          ∧ ∃ vt x, di = Some (vt, x) ∧ scalar_value ft vt x = Some y)
    as (Hname & vt & x & -> & Hv).
  { destruct (type_Kind ft); try contradiction;
      (destruct (String.eqb _ "common.Address"); [discriminate|];
       destruct di as [[vt x]|]; [|discriminate]; eauto 6). }
  eapply field_scalar; eauto. apply scalar_kind; assumption.
Qed.

(** X11: what [Parse] binds.  Let the target be a struct whose slices
    are nil and whose fields are exported and are scalars,
    [common.Address], [*big.Int], byte slices, structs of such fields,
    slices of scalars or slices of such structs, and let the nodes have
    the shape of the struct: [bound] then computes a value for the struct
    from the value it holds and the nodes.  On such a target [Parse]
    returns nil, and the target then holds exactly that value: each
    scalar converted to the type of its field, each address decoded from
    its string, each [*big.Int] the node's own pointer, each byte slice
    the node's bytes, each nested struct bound field by field, and each
    slice one element per node.  Nothing else is written but new cells,
    allocated after the existing ones. *)
Theorem Parse_binds_the_nodes
    (n m : nat) (decoded : list any) (pt T : type) (q : ptr) (old new : val) (h : heap) :
  type_Kind pt = KPtr → type_Elem pt = Some T → type_Kind T = KStruct →
  load h q = Some old → slices_nil old = true →
  bound n T old (lst decoded) = Some new → n ≤ m →
  ∃ b ext,
    store h q new = Some b
    ∧ Parse m decoded (Some (pt, VPtr (Some q))) h = (b ++ ext, Ret None)
    ∧ load (b ++ ext) q = Some new.
Proof.
  intros Hp He Hs Hl _ Hb Hm.
  destruct (proj2 (bound_sound n) T old (lst decoded) decoded new Hs Hb
              (node_list_lst decoded) m Hm pt q h Hp He Hl) as (b & ext & Hst & Hr).
  exists b, ext. split; [exact Hst|]. split; [exact Hr|].
  apply load_app. eapply load_store; eauto.
Qed.

(** A ledger with an address, a slice of pairs, a pair and a [*big.Int],
    bound next to the [big.Int] that the last node points to. *)
Lemma Parse_binds_the_nodes_witness :
  let nodes := [str "0x01"; lst [lst [u64 1; u64 2]; lst [u64 3; u64 4]];
                lst [u64 5; int_ 6]; seven] in
  let h := [zero Ledger_t; VStruct [VBool false; VSlice [VInt 7]]] in
  let new := VStruct [HexToAddress "0x01";
                      VSlice [VStruct [VInt 1; VInt 2]; VStruct [VInt 3; VInt 4]];
                      VStruct [VInt 5; VInt 6];
                      VPtr (Some (Ptr 1 []))] in
  ∃ b ext,
    store h (Ptr 0 []) new = Some b
    ∧ Parse 4 nodes (ref Ledger_t (Ptr 0 [])) h = (b ++ ext, Ret None)
    ∧ load (b ++ ext) (Ptr 0 []) = Some new.
Proof.
  exact (Parse_binds_the_nodes 4 4
           [str "0x01"; lst [lst [u64 1; u64 2]; lst [u64 3; u64 4]];
            lst [u64 5; int_ 6]; seven]
           (PtrTo Ledger_t) Ledger_t (Ptr 0 []) (zero Ledger_t) _
           [zero Ledger_t; VStruct [VBool false; VSlice [VInt 7]]]
           eq_refl eq_refl eq_refl eq_refl eq_refl eq_refl (le_n 4)).
Defined.

Lemma for_each_app_run {A} (body : A → M (option error)) (l1 l2 : list A) (h h1 : heap) :
  for_each body l1 h = (h1, Ret None) →
  for_each body (l1 ++ l2) h = for_each body l2 h1.
Proof.
  revert h. induction l1 as [|x l1 IH]; intros h; simpl app.
  - rewrite for_each_nil. intros [-> _]%ret_inv. reflexivity.
  - rewrite !for_each_cons. intros H. inv_bind H.
    destruct a as [err|]; [apply ret_inv in H as [_ [=]]|].
    rewrite (bind_run _ _ h _ None Hr). apply IH, H.
Qed.

(** X12: [Parse] does not undo what it has bound when a later field
    fails.  On a struct whose slices are nil, if the first [k] fields
    bind and the node of the field [k], a scalar, does not convert to the
    type of that field, [Parse] returns the conversion error and leaves
    the struct with its first [k] fields bound and the others as they
    were. *)
Theorem Parse_stops_at_the_first_error
    (n m : nat) (decoded : list any) (pt T : type) (q : ptr)
    (olds ys : list val) (k : nat) (name : string) (ft vt : type) (x : val) (h : heap) :
  type_Kind pt = KPtr → type_Elem pt = Some T → type_Kind T = KStruct →
  load h q = Some (VStruct olds) → slices_nil (VStruct olds) = true →
  length olds = length (struct_fields T) → length decoded = length (struct_fields T) →
  fields_bound (bound n) (take k (struct_fields T)) (take k olds) (take k decoded)
    = Some ys →
  struct_fields T !! k = Some (name, ft) → exported name = true → scalar_type ft →
  decoded !! k = Some (Some (vt, x)) → vt ≠ ft → convertOp ft vt = None →
  n ≤ m →
  ∃ b ext,
    store h q (VStruct (ys ++ drop k olds)) = Some b
    ∧ Parse (S m) decoded (Some (pt, VPtr (Some q))) h
      = (b ++ ext, Ret (Some (ConversionFailure (Some (vt, x)) ft))).
Proof.
  intros Hp He Hs Hl _ Ho Hd Hfb Hf Hx Hsc Hdk Hne Hop Hm.
  pose proof (lookup_lt_Some _ _ _ Hf) as Hk.
  destruct (fields_bound_spec _ _ _ _ _ Hfb) as (_ & _ & Hy & Hpt).
  rewrite length_take, Nat.min_l in Hy by lia.
  destruct (struct_loop (parseStruct m) (parseSlice m) (parsePointer m)
              T q decoded olds ys k Hs Ho ltac:(lia) ltac:(lia) ltac:(lia))
    with (j := k) (k := 0) (h := h) as (b & ext & Hb & Hr); [|lia|exact Hl|].
  { intros i name' t o d y Hi Hfi Hoi Hdi Hyi.
    destruct (Hpt i name' t o d y) as [Hx' Hb'];
      rewrite ?lookup_take_lt by lia; auto.
    split; [exact Hx'|]. intros h1 Hl1.
    eapply (proj1 (bound_sound n)); eauto. }
  rewrite take_ge in Hb by lia.
  exists b, ext. split; [exact Hb|].
  unfold Parse. rewrite (parseStruct_head m decoded pt T q) by done.
  rewrite Hd, Nat.eqb_refl. cbn [negb andb].
  assert (seq 0 (length (struct_fields T))
          = seq 0 k ++ k :: seq (S k) (length (struct_fields T) - S k)) as ->.
  { set (len := length (struct_fields T)) in *.
    replace len with (k + S (len - S k)) at 1 by lia.
    rewrite seq_app. reflexivity. }
  rewrite (for_each_app_run _ _ _ _ _ Hr).
  rewrite for_each_cons.
  rewrite (structField_at _ _ _ decoded T q k name ft (Some (vt, x))) by done.
  rewrite bindField_scalar by done.
  apply type_eqb_neq in Hne. rewrite Hne, Hop, bind_ret. reflexivity.
Qed.

(** The fields [A uint64] and [B uint64] given 5 and a string. *)
Lemma Parse_stops_at_the_first_error_witness :
  ∃ b ext,
    store [zero Pair_t] (Ptr 0 []) (VStruct ([VInt 5] ++ drop 1 [VInt 0; VInt 0])) = Some b
    ∧ Parse 2 [u64 5; str "x"] (Some (PtrTo Pair_t, VPtr (Some (Ptr 0 [])))) [zero Pair_t]
      = (b ++ ext, Ret (Some (ConversionFailure (Some (Basic TString, VString "x"))
                                (Basic TUint64)))).
Proof.
  apply (Parse_stops_at_the_first_error 1 1 [u64 5; str "x"] (PtrTo Pair_t) Pair_t
           (Ptr 0 []) [VInt 0; VInt 0] [VInt 5] 1 "B" (Basic TUint64)
           (Basic TString) (VString "x") [zero Pair_t]);
    try reflexivity; try discriminate; try lia.
  all: repeat split; try discriminate.
  all: vm_compute; discriminate.
Defined.

Lemma assignTo_not_element (E vt : type) (x : val) :
  element_of E (Some (vt, x)) = None →
  assignTo (Direct vt x false) E = throw (NotAssignable vt E).
Proof.
  unfold element_of, assignTo, Value_get, Value_Type.
  rewrite !bind_ret.
  destruct (directlyAssignable E vt); [discriminate|].
  destruct (implements E vt); [discriminate|]. reflexivity.
Qed.

(** X13: [parseSlice] on a slice whose elements are appended as they are
    (scalars, interface values, [*big.Int]): the slice is not emptied
    first.  When every node is assignable to the element type the call
    returns nil and the slice holds what it held followed by the nodes'
    values, in order.  At the first node that is not assignable the call
    panics, and the slice holds what it held followed by the values of
    the nodes before that one. *)
Theorem parseSlice_binds_raw_elements
    (n : nat) (decoded : list any) (pt rt E : type) (p : ptr)
    (old : list val) (h : heap) :
  type_Kind pt = KPtr → type_Elem pt = Some rt →
  type_Kind rt = KSlice → type_Elem rt = Some E → raw_element E →
  load h p = Some (VSlice old) →
  (∀ xs, mapM (element_of E) decoded = Some xs →
     ∃ h', parseSlice (S n) decoded (Some (pt, VPtr (Some p))) h = (h', Ret None)
           ∧ load h' p = Some (VSlice (old ++ xs)))
  ∧ (∀ d1 vt x d2 xs,
       decoded = d1 ++ Some (vt, x) :: d2 →
       mapM (element_of E) d1 = Some xs → element_of E (Some (vt, x)) = None →
       ∃ h', parseSlice (S n) decoded (Some (pt, VPtr (Some p))) h
             = (h', Panics (NotAssignable vt E))
             ∧ load h' p = Some (VSlice (old ++ xs))).
Proof.
  intros Hp He Hs HE Hraw Hl.
  rewrite (parseSlice_head n decoded pt rt E p) by done. split.
  - intros xs Hxs. apply mapM_Some in Hxs.
    destruct (raw_loop (parseStruct n) (parseSlice n) (parsePointer n)
                rt E p Hs HE decoded xs Hraw Hxs old h Hl) as (b & Hb & Hr).
    exists b. split; [exact Hr | eapply load_store; eauto].
  - intros d1 vt x d2 xs -> Hxs Hx. apply mapM_Some in Hxs.
    destruct (raw_loop (parseStruct n) (parseSlice n) (parsePointer n)
                rt E p Hs HE d1 xs Hraw Hxs old h Hl) as (b & Hb & Hr).
    exists b. split; [|eapply load_store; eauto].
    rewrite (for_each_app_run _ _ _ _ _ Hr), for_each_cons.
    rewrite sliceElem_raw by done. simpl ValueOf.
    apply bind_panics. apply bind_panics.
    rewrite (reflect_Append_lval rt E vt p x (old ++ xs) b)
      by (try done; eapply load_store; eauto).
    rewrite (assignTo_not_element E vt x Hx). reflexivity.
Qed.

(** A slice of [uint64] that holds 9, given 1 and 2 as [uint64], and
    given 1 as [uint64] and 2 as [int]. *)
Lemma parseSlice_binds_raw_elements_witness :
  (∀ xs, mapM (element_of (Basic TUint64)) [u64 1; u64 2] = Some xs →
     ∃ h', parseSlice 1 [u64 1; u64 2] (ref (SliceOf (Basic TUint64)) (Ptr 0 []))
             [VSlice [VInt 9]] = (h', Ret None)
           ∧ load h' (Ptr 0 []) = Some (VSlice ([VInt 9] ++ xs)))
  ∧ (∀ d1 vt x d2 xs,
       [u64 1; u64 2] = d1 ++ Some (vt, x) :: d2 →
       mapM (element_of (Basic TUint64)) d1 = Some xs →
       element_of (Basic TUint64) (Some (vt, x)) = None →
       ∃ h', parseSlice 1 [u64 1; u64 2] (ref (SliceOf (Basic TUint64)) (Ptr 0 []))
               [VSlice [VInt 9]] = (h', Panics (NotAssignable vt (Basic TUint64)))
             ∧ load h' (Ptr 0 []) = Some (VSlice ([VInt 9] ++ xs))).
Proof.
  apply (parseSlice_binds_raw_elements 0 [u64 1; u64 2] (PtrTo (SliceOf (Basic TUint64)))
           (SliceOf (Basic TUint64)) (Basic TUint64) (Ptr 0 []) [VInt 9]
           [VSlice [VInt 9]]);
    try reflexivity.
  repeat split; discriminate.
Defined.

(** ** The errors [Parse] returns *)

Lemma wrap_err_inv (prefix : string) (err : option error) (e : error) (h h' : heap) :
  ret (wrap_err prefix err) h = (h', Ret (Some e)) →
  ∃ inner, err = Some inner ∧ e = Wrapf prefix inner.
Proof.
  intros [_ [= H]]%ret_inv. destruct err as [inner|]; [|discriminate].
  injection H as H. subst e. eauto.
Qed.

Lemma is_plain_pointer_false_inv (t e : type) (h h' : heap) :
  is_plain_pointer t h = (h', Ret false) → type_Kind t = KPtr →
  type_Elem t = Some e →
  String.eqb (type_String e) "big.Int" = true
  ∨ String.eqb (type_String e) "common.Address" = true.
Proof.
  rewrite is_plain_pointer_plain. intros [_ [= H]]%ret_inv Hk He.
  unfold plain_pointer in H. rewrite Hk, He in H.
  destruct (String.eqb (type_String e) "big.Int"); [auto|].
  destruct (String.eqb (type_String e) "common.Address"); [auto | discriminate].
Qed.

Ltac err_case H inner :=
  match type of H with
  | (match ?x with _ => _ end) _ = _ => destruct x as [inner|]
  end.

Section error_roots.
Variable pStruct : list any → any → M (option error).
Variable pSlice : list any → any → M (option error).
Variable pPointer : list any → Value → M (option error).
Variable Q : error → Prop.

Hypothesis pStruct_errors :
  ∀ l a h h' e, pStruct l a h = (h', Ret (Some e)) → Q e.
Hypothesis pSlice_errors :
  ∀ l t q h h' e, pSlice l (ref t q) h = (h', Ret (Some e)) → Q e.
Hypothesis pPointer_errors :
  ∀ l v h h' e, Value_Kind v = KPtr → pPointer l v h = (h', Ret (Some e)) → Q e.

(** The errors of the dispatch on a field: a nested error, wrapped, or
    one of the two errors found at the field itself.  The error
    "unsupported pointer type" is not among them. *)
Lemma bindField_roots (field : Value) (di : any) (h h' : heap) (e : error) :
  bindField pStruct pSlice pPointer field di h = (h', Ret (Some e)) →
  wraps Q e ∨ e = TypeMismatch di ∨ ∃ ft, e = ConversionFailure di ft.
Proof.
  unfold bindField. intros H.
  inv_bind H. apply Value_Type_inv in Hr as [-> Hfield].
  inv_bind H. destruct a0.
  - left. apply is_plain_pointer_inv in Hr.
    inv_bind H. inv_bind H. apply wrap_err_inv in H as (inner & -> & ->).
    eexists _, inner; split; [reflexivity|].
    destruct (decide (type_Kind a0 = KStruct)).
    + inv_bind Hr1. inv_bind Hr1. inv_bind Hr1. inv_bind Hr1. eauto.
    + eapply pPointer_errors; [|exact Hr1].
      destruct Hfield as [(? & ? & ->) | (? & ? & ->)]; exact Hr.
  - destruct (decide (Value_Kind field = KStruct)).
    { left. inv_bind H. inv_bind H. inv_bind H. inv_bind H.
      apply wrap_err_inv in H as (inner & -> & ->).
      eexists _, inner; split; [reflexivity|]. eauto. }
    destruct (_ || _).
    { inv_bind H. destruct (_ || _).
      { inv_bind H. destruct (Set_then_ret_None _ _ _ _ _ H e eq_refl). }
      destruct (String.eqb a0 "string").
      { destruct (String.eqb _ "common.Address").
        - inv_bind H. destruct (Set_then_ret_None _ _ _ _ _ H e eq_refl).
        - destruct (Set_then_ret_None _ _ _ _ _ H e eq_refl). }
      left. inv_bind H. inv_bind H.
      match goal with
      | E : Value_Addr _ _ = _ |- _ => apply Value_Addr_inv in E as (t & p & ro & -> & -> & ->)
      end.
      inv_bind H.
      match goal with
      | E : Value_Interface _ _ = _ |- _ => apply Value_Interface_direct_inv in E as ->
      end.
      inv_bind H. apply wrap_err_inv in H as (inner & -> & ->).
      eexists _, inner; split; [reflexivity|]. eauto. }
    destruct (decide (Value_Kind field = KPtr)) as [Hk|Hk].
    { inv_bind H.
      match goal with
      | E : Type_Elem _ _ = _ |- _ => apply Type_Elem_inv in E; rename E into He
      end.
      destruct (String.eqb (type_String a0) "big.Int") eqn:Hb.
      { destruct (assert_ok di (PtrTo big_Int)).
        - destruct (Set_then_ret_None _ _ _ _ _ H e eq_refl).
        - apply ret_inv in H as [_ [= ->]]. right. left. reflexivity. }
      destruct (String.eqb (type_String a0) "common.Address") eqn:Ha.
      { inv_bind H. inv_bind H. destruct (Set_then_ret_None _ _ _ _ _ H e eq_refl). }
      exfalso.
      assert (type_Kind a = KPtr) as Hka
        by (destruct Hfield as [(? & ? & ->) | (? & ? & ->)]; exact Hk).
      destruct (is_plain_pointer_false_inv a a0 _ _ Hr Hka He); congruence. }
    destruct (String.eqb _ "common.Address").
    { inv_bind H. destruct (Set_then_ret_None _ _ _ _ _ H e eq_refl). }
    inv_bind H. destruct (type_eqb _ a).
    { destruct (Set_then_ret_None _ _ _ _ _ H e eq_refl). }
    inv_bind H. destruct a1.
    { inv_bind H. destruct (Set_then_ret_None _ _ _ _ _ H e eq_refl). }
    apply ret_inv in H as [_ [= ->]]. right. right. eauto.
Qed.

Lemma parseStruct_body_roots (decoded : list any) (v : any) (h h' : heap) (e : error) :
  parseStruct_body pStruct pSlice pPointer decoded v h = (h', Ret (Some e)) →
  root_error e ∨ wraps Q e.
Proof.
  unfold parseStruct_body. intros H. inv_bind H. destruct a.
  { apply ret_inv in H as [_ [= ->]]. left. left. reflexivity. }
  inv_bind H. destruct (decide (Value_Kind a = KStruct)).
  - inv_bind H. inv_bind H. destruct (_ && _).
    + apply ret_inv in H as [_ [= ->]]. left. right. right. left. reflexivity.
    + apply for_each_error in H as (i & g & _ & H).
      unfold structField in H. inv_bind H. inv_bind H.
      apply bindField_roots in H as [H | [-> | [ft ->]]].
      * right. exact H.
      * left. unfold root_error. eauto 10.
      * left. unfold root_error. eauto 10.
  - apply ret_inv in H as [_ [= ->]]. left. right. left. reflexivity.
Qed.

Lemma sliceElem_roots (rve : Value) (rt E : type) (di : any) (h h' : heap) (e : error) :
  sliceElem pStruct pSlice pPointer rve rt E di h = (h', Ret (Some e)) → wraps Q e.
Proof.
  unfold sliceElem. intros H. inv_bind H. destruct a.
  - inv_bind H. rewrite (bind_run _ _ _ _ _ (reflect_New_run a h1)) in H.
    inv_bind H. inv_bind H. err_case H inner.
    + apply ret_inv in H as [_ [= ->]]. eexists _, inner; split; [reflexivity|].
      eapply pPointer_errors; [|eassumption]. reflexivity.
    + inv_bind H. destruct (Set_then_ret_None _ _ _ _ _ H e eq_refl).
  - destruct (decide (type_Kind E = KStruct)).
    { inv_bind H. inv_bind H. inv_bind H. inv_bind H. err_case H inner.
      - apply ret_inv in H as [_ [= ->]]. eexists _, inner; split; [reflexivity|]. eauto.
      - inv_bind H. inv_bind H. destruct (Set_then_ret_None _ _ _ _ _ H e eq_refl). }
    destruct (_ || _).
    + inv_bind H. inv_bind H.
      match goal with
      | X : Value_Addr _ _ = _ |- _ => apply Value_Addr_inv in X as (t & p & ro & -> & -> & ->)
      end.
      inv_bind H.
      match goal with
      | X : Value_Interface _ _ = _ |- _ => apply Value_Interface_direct_inv in X as ->
      end.
      inv_bind H. apply wrap_err_inv in H as (inner & -> & ->).
      eexists _, inner; split; [reflexivity|]. eauto.
    + inv_bind H. destruct (Set_then_ret_None _ _ _ _ _ H e eq_refl).
Qed.

Lemma parseSlice_body_roots (decoded : list any) (t : type) (q : ptr)
    (h h' : heap) (e : error) :
  parseSlice_body pStruct pSlice pPointer decoded (ref t q) h = (h', Ret (Some e)) →
  root_error e ∨ wraps Q e.
Proof.
  unfold parseSlice_body, not_pointer_or_nil, ref, ValueOf, Value_Kind. simpl type_Kind.
  rewrite decide_True by reflexivity.
  rewrite Value_IsNil_direct, bind_ret by reflexivity.
  rewrite bool_decide_eq_false_2 by discriminate.
  rewrite (Value_Elem_direct (PtrTo t) t), bind_ret by reflexivity.
  intros H. destruct (decide (_ = KSlice)).
  - inv_bind H. inv_bind H.
    apply for_each_error in H as (d & g & _ & H).
    right. eapply sliceElem_roots; eauto.
  - apply ret_inv in H as [_ [= ->]]. left. unfold root_error. auto.
Qed.

Lemma parsePointer_body_roots (decoded : list any) (v : Value)
    (h h' : heap) (e : error) :
  Value_Kind v = KPtr →
  parsePointer_body pStruct pSlice decoded v h = (h', Ret (Some e)) → wraps Q e.
Proof.
  intros Hk. unfold parsePointer_body. rewrite decide_True by done. intros H.
  inv_bind H. inv_bind H. inv_bind H. inv_bind H.
  assert (∀ g,
            (let* a := Value_Addr v in
             let* ai := Value_Interface a in
             let* err := pSlice decoded ai in
             ret (wrap_err ("[parsePointer] error parsing slice field "
                            +:+ type_Name a0 +:+ ": ") err)) g = (h', Ret (Some e)) →
            wraps Q e) as Hseq.
  { intros g Hg. inv_bind Hg.
    match goal with
    | X : Value_Addr _ _ = _ |- _ => apply Value_Addr_inv in X as (t & p & ro & -> & -> & ->)
    end.
    inv_bind Hg.
    match goal with
    | X : Value_Interface _ _ = _ |- _ => apply Value_Interface_direct_inv in X as ->
    end.
    inv_bind Hg. apply wrap_err_inv in Hg as (inner & -> & ->).
    eexists _, inner; split; [reflexivity|]. eauto. }
  destruct (type_Kind a0); try (eapply Hseq; exact H);
    try (inv_bind H; destruct (Set_then_ret_None _ _ _ _ _ H e eq_refl)).
  inv_bind H. inv_bind H. apply wrap_err_inv in H as (inner & -> & ->).
  eexists _, inner; split; [reflexivity|]. eauto.
Qed.
End error_roots.

Lemma root_error_wraps (e : error) :
  root_error (root_cause e) ∨ wraps (fun inner => root_error (root_cause inner)) e →
  root_error (root_cause e).
Proof. intros [H | (prefix & inner & -> & H)]; [exact H | exact H]. Qed.

Lemma root_error_own (e : error) : root_error e → root_error (root_cause e).
Proof.
  unfold root_error, ShapeMismatch, TypeMismatch, ConversionFailure.
  intros [-> | [-> | [-> | [-> | [[di ->] | (di & ft & ->)]]]]]; simpl; eauto 10.
Qed.

(** The three functions return errors with a root among [root_error]:
    [parseSlice] when it is given the address of a variable, and
    [parsePointer] when it is given a value of pointer kind, as they are
    by each of their callers. *)
Lemma binder_roots (n : nat) :
  (∀ l a h h' e, parseStruct n l a h = (h', Ret (Some e)) → root_error (root_cause e))
  ∧ (∀ l t q h h' e, parseSlice n l (ref t q) h = (h', Ret (Some e)) →
       root_error (root_cause e))
  ∧ (∀ l v h h' e, Value_Kind v = KPtr → parsePointer n l v h = (h', Ret (Some e)) →
       root_error (root_cause e)).
Proof.
  induction n as [|n (IHS & IHL & IHP)]; [repeat split; intros; discriminate|].
  split; [|split].
  - intros l a h h' e H. rewrite parseStruct_S in H.
    apply (parseStruct_body_roots _ _ _ _ IHS IHL IHP) in H as [H | H].
    + apply root_error_own, H.
    + apply root_error_wraps. right. exact H.
  - intros l t q h h' e H. rewrite parseSlice_S in H.
    apply (parseSlice_body_roots _ _ _ _ IHS IHL IHP) in H as [H | H].
    + apply root_error_own, H.
    + apply root_error_wraps. right. exact H.
  - intros l v h h' e Hk H. rewrite parsePointer_S in H.
    apply (parsePointer_body_roots _ _ _ IHS IHL _ _ _ _ _ Hk) in H.
    apply root_error_wraps. right. exact H.
Qed.

(** X14: the errors of [Parse].  An error that [Parse] returns is one of
    six errors, or such an error wrapped, once or several times, by the
    callers of the call that found it: the three errors of [parseStruct]
    on its target, "v must be a slice pointer" of [parseSlice], the
    [*big.Int] type mismatch and the conversion failure.  So three of the
    errors that the code can build are never returned by [Parse], neither
    as they are nor wrapped: "unsupported pointer type" (a pointer field
    comes to that test only if it points to [big.Int] or
    [common.Address]), "v must be a pointer" of [parseSlice] and "v must
    be a pointer" of [parsePointer] (their callers pass them the address
    of a variable and a value of pointer kind). *)
Theorem Parse_error_roots
    (n : nat) (decoded : list any) (v : any) (h h' : heap) (e : error) :
  Parse n decoded v h = (h', Ret (Some e)) →
  root_error (root_cause e)
  ∧ (∀ ft, root_cause e ≠ Errorf ("[parseStruct] unsupported pointer type: "
                                  +:+ type_String ft))
  ∧ root_cause e ≠ Errorf "[parseSlice] v must be a pointer"
  ∧ root_cause e ≠ Errorf "[parsePointer] v must be a pointer".
Proof.
  intros H. apply (proj1 (binder_roots n)) in H.
  split; [exact H|].
  unfold root_error, ShapeMismatch, TypeMismatch, ConversionFailure in H.
  destruct H as [-> | [-> | [-> | [-> | [[di ->] | (di & ft & ->)]]]]];
    repeat split; try intros ft'; simpl; discriminate.
Qed.

(** The error of a pair given one node, inside a struct. *)
Lemma Parse_error_roots_witness :
  let e := Wrapf "[parseStruct] error parsing struct field Pair: " ShapeMismatch in
  root_error (root_cause e)
  ∧ (∀ ft, root_cause e ≠ Errorf ("[parseStruct] unsupported pointer type: "
                                  +:+ type_String ft))
  ∧ root_cause e ≠ Errorf "[parseSlice] v must be a pointer"
  ∧ root_cause e ≠ Errorf "[parsePointer] v must be a pointer".
Proof.
  exact (Parse_error_roots 2 [lst [u64 1]] (ref Outer_t (Ptr 0 []))
           [zero Outer_t] [zero Outer_t] _ eq_refl).
Defined.

(** ** Pointer fields *)

Lemma bound_struct_node_list (n : nat) (S' : type) (old : val) (di : any) (y : val) :
  type_Kind S' = KStruct → bound n S' old di = Some y → ∃ l, node_list di = Some l.
Proof.
  intros Hs Hb. destruct n as [|n]; [discriminate|].
  rewrite bound_S in Hb. destruct (plain_pointer S'); [discriminate|].
  rewrite Hs in Hb. destruct (node_list di) as [l|]; [eauto | discriminate].
Qed.

Lemma plain_pointer_true (ft e : type) :
  type_Kind ft = KPtr → type_Elem ft = Some e → ¬ special_leaf e →
  plain_pointer ft = true.
Proof.
  intros Hk He Hsp. unfold plain_pointer. rewrite Hk, He.
  rewrite special_leaf_eqb in Hsp. apply not_false_is_true in Hsp. exact Hsp.
Qed.

Section pointer_field.
Variable pStruct : list any → any → M (option error).
Variable pSlice : list any → any → M (option error).
Variable pPointer : list any → Value → M (option error).

Variables (ft S' : type) (fq : ptr) (di : any) (l : list any) (y : val).
Hypothesis ft_ptr : type_Kind ft = KPtr.
Hypothesis ft_elem : type_Elem ft = Some S'.
Hypothesis S_struct : type_Kind S' = KStruct.
Hypothesis S_plain : ¬ special_leaf S'.
Hypothesis di_list : node_list di = Some l.

Lemma bindField_pointer_head :
  bindField pStruct pSlice pPointer (Lval ft fq false) di
  = let* err :=
      (let* isnil := Value_IsNil (Lval ft fq false) in
       (if isnil then let* np := reflect_New S' in Value_Set (Lval ft fq false) np
        else ret tt) ;;;
       let* fi := Value_Interface (Lval ft fq false) in
       pStruct l fi) in
    ret (wrap_err ("[parseStruct] error parsing pointer field "
                   +:+ type_Name ft +:+ ": ") err).
Proof.
  unfold bindField. unfold Value_Type at 1. rewrite bind_ret.
  rewrite is_plain_pointer_plain, bind_ret, (plain_pointer_true ft S') by done.
  rewrite (Type_Elem_some ft S' ft_elem), bind_ret.
  rewrite decide_True by done.
  rewrite (assert_anys_node_list di l di_list).
  reflexivity.
Qed.

(** A pointer field that points to a struct: the struct is bound where
    it is. *)
Lemma field_pointer_set (r : ptr) (h : heap) :
  load h fq = Some (VPtr (Some r)) →
  binds_to r y (pStruct l (Some (ft, VPtr (Some r)))) h →
  binds_to r y (bindField pStruct pSlice pPointer (Lval ft fq false) di) h.
Proof.
  intros Hl (b & ext & Hb & Hr). exists b, ext. split; [exact Hb|].
  rewrite bindField_pointer_head. rewrite bind_assoc.
  rewrite (bind_run _ _ h h false)
    by (rewrite (Value_IsNil_lval ft fq false (Some r) h) by done; reflexivity).
  rewrite bind_assoc, bind_ret, bind_assoc.
  rewrite (bind_run _ _ h h _ (Value_Interface_lval ft fq _ h
                                 ltac:(rewrite ft_ptr; discriminate) Hl)).
  rewrite (bind_run _ _ _ _ None Hr). reflexivity.
Qed.

(** A nil pointer field: a struct is allocated, the field is set to
    its address, and the struct is bound. *)
Lemma field_pointer_nil (h : heap) :
  load h fq = Some (VPtr None) →
  (∀ h1, load h1 (Ptr (length h) []) = Some (zero S') →
     binds_to (Ptr (length h) []) y
       (pStruct l (Some (ft, VPtr (Some (Ptr (length h) []))))) h1) →
  ∃ b ext,
    store h fq (VPtr (Some (Ptr (length h) []))) = Some b
    ∧ bindField pStruct pSlice pPointer (Lval ft fq false) di h
      = (b ++ [y] ++ ext, Ret None).
Proof.
  intros Hl Hbind.
  destruct (store_is_Some h fq (VPtr (Some (Ptr (length h) [])))) as [b Hb]; [eauto|].
  pose proof (store_length _ _ _ _ Hb) as Hlen.
  destruct (Hbind (b ++ [zero S'])) as (b2 & ext & Hb2 & Hr).
  { rewrite <- Hlen. apply load_fresh_cell. }
  rewrite <- Hlen in Hb2 at 1. rewrite store_fresh_cell in Hb2. injection Hb2 as <-.
  exists b, ext. split; [exact Hb|].
  rewrite bindField_pointer_head. rewrite bind_assoc.
  rewrite (bind_run _ _ h h true)
    by (rewrite (Value_IsNil_lval ft fq false None h) by done; reflexivity).
  rewrite bind_assoc, bind_assoc.
  rewrite (bind_run _ _ h _ _ (reflect_New_run S' h)).
  rewrite (bind_run _ _ _ (b ++ [zero S']) tt)
    by (apply Value_Set_store; [apply directlyAssignable_ptr; done | apply store_app, Hb]).
  rewrite bind_assoc.
  rewrite (bind_run _ _ _ _ _
             (Value_Interface_lval ft fq _ (b ++ [zero S'])
                ltac:(rewrite ft_ptr; discriminate)
                (load_app _ _ _ _ (load_store _ _ _ _ Hb)))).
  rewrite (bind_run _ _ _ _ None Hr). rewrite <- app_assoc. reflexivity.
Qed.
End pointer_field.

(** X15: a field that is a pointer to a struct (other than [*big.Int]).
    When the field holds a pointer, the struct it points to is bound
    where it is, so that every holder of that pointer sees the new
    fields, and no struct is allocated (the memory left is stated for a
    struct whose slices are nil).  When the field is nil, a new struct is
    allocated, the field is set to its address, and the new struct is
    bound.  In both cases the struct is bound as [Parse] binds a
    struct. *)
Theorem pointer_to_struct_field
    (n m : nat) (decoded : list any) (T : type) (q : ptr) (i : nat)
    (name : string) (ft S' : type) (di : any) (y : val) (h : heap) :
  type_Kind T = KStruct → struct_fields T !! i = Some (name, ft) →
  exported name = true → decoded !! i = Some di →
  type_Kind ft = KPtr → type_Elem ft = Some S' → type_Kind S' = KStruct →
  ¬ special_leaf S' → n ≤ m →
  (∀ r old,
     load h (field_ptr q i) = Some (VPtr (Some r)) → load h r = Some old →
     slices_nil old = true → bound n S' old di = Some y →
     ∃ b ext,
       store h r y = Some b
       ∧ structField (parseStruct m) (parseSlice m) (parsePointer m)
           decoded (Lval T q false) i h = (b ++ ext, Ret None))
  ∧ (load h (field_ptr q i) = Some (VPtr None) →
     bound n S' (zero S') di = Some y →
     ∃ b ext,
       store h (field_ptr q i) (VPtr (Some (Ptr (length h) []))) = Some b
       ∧ structField (parseStruct m) (parseSlice m) (parsePointer m)
           decoded (Lval T q false) i h = (b ++ [y] ++ ext, Ret None)).
Proof.
  intros Hs Hf Hx Hd Hk He HS Hsp Hm.
  rewrite (structField_at _ _ _ decoded T q i name ft di) by done.
  rewrite Hx. simpl negb. split.
  - intros r old Hl Hr _ Hb.
    destruct (bound_struct_node_list n S' old di y HS Hb) as [l Hl'].
    eapply (field_pointer_set _ _ _ ft S' (field_ptr q i) di l y); eauto.
    eapply (proj2 (bound_sound n)); eauto.
  - intros Hl Hb.
    destruct (bound_struct_node_list n S' _ di y HS Hb) as [l Hl'].
    eapply (field_pointer_nil _ _ _ ft S' (field_ptr q i) di l y); eauto.
    intros h1 Hl1. eapply (proj2 (bound_sound n)); eauto.
Qed.

(** The field [P *Pair] of a holder that points to a pair. *)
Lemma pointer_to_struct_field_witness :
  let h := [VStruct [VPtr (Some (Ptr 1 [])); VPtr None]; VStruct [VInt 0; VInt 0]] in
  let decoded := [lst [u64 1; u64 2]; str "0x01"] in
  let y := VStruct [VInt 1; VInt 2] in
  (∀ r old,
     load h (field_ptr (Ptr 0 []) 0) = Some (VPtr (Some r)) → load h r = Some old →
     slices_nil old = true → bound 2 Pair_t old (lst [u64 1; u64 2]) = Some y →
     ∃ b ext,
       store h r y = Some b
       ∧ structField (parseStruct 2) (parseSlice 2) (parsePointer 2)
           decoded (Lval Holder_t (Ptr 0 []) false) 0 h = (b ++ ext, Ret None))
  ∧ (load h (field_ptr (Ptr 0 []) 0) = Some (VPtr None) →
     bound 2 Pair_t (zero Pair_t) (lst [u64 1; u64 2]) = Some y →
     ∃ b ext,
       store h (field_ptr (Ptr 0 []) 0) (VPtr (Some (Ptr (length h) []))) = Some b
       ∧ structField (parseStruct 2) (parseSlice 2) (parsePointer 2)
           decoded (Lval Holder_t (Ptr 0 []) false) 0 h = (b ++ [y] ++ ext, Ret None)).
Proof.
  apply (pointer_to_struct_field 2 2 [lst [u64 1; u64 2]; str "0x01"] Holder_t (Ptr 0 []) 0
           "P" (PtrTo Pair_t) Pair_t (lst [u64 1; u64 2]) (VStruct [VInt 1; VInt 2])
           [VStruct [VPtr (Some (Ptr 1 [])); VPtr None]; VStruct [VInt 0; VInt 0]]);
    try reflexivity.
  intros [H | H]; vm_compute in H; discriminate.
Defined.

(** X16: a field of type [*common.Address] given a string.  A new
    address is allocated for every call and the field is set to point to
    it; the address the field pointed to before is not written, and the
    field need not hold a pointer beforehand. *)
Theorem address_pointer_field
    (pStruct pSlice : list any → any → M (option error))
    (pPointer : list any → Value → M (option error))
    (decoded : list any) (T : type) (q : ptr) (i : nat)
    (name : string) (ft : type) (s : string) (old : val) (h : heap) :
  type_Kind T = KStruct → struct_fields T !! i = Some (name, ft) →
  exported name = true → decoded !! i = Some (str s) →
  type_Kind ft = KPtr → type_Elem ft = Some common_Address →
  load h (field_ptr q i) = Some old →
  ∃ b,
    store h (field_ptr q i) (VPtr (Some (Ptr (length h) []))) = Some b
    ∧ structField pStruct pSlice pPointer decoded (Lval T q false) i h
      = (b ++ [HexToAddress s], Ret None).
Proof.
  intros Hs Hf Hx Hd Hk He Hl.
  destruct (store_is_Some h (field_ptr q i) (VPtr (Some (Ptr (length h) []))))
    as [b Hb]; [eauto|].
  exists b. split; [exact Hb|].
  rewrite (structField_at _ _ _ decoded T q i name ft (str s)) by done.
  rewrite Hx. simpl negb. unfold bindField.
  unfold Value_Type at 1. rewrite bind_ret.
  rewrite is_plain_pointer_plain, bind_ret.
  assert (plain_pointer ft = false) as ->
    by (unfold plain_pointer; rewrite Hk, He; reflexivity).
  unfold Value_Kind. rewrite Hk.
  rewrite decide_False by discriminate.
  rewrite !bool_decide_eq_false_2 by discriminate. cbn [orb].
  rewrite decide_True by reflexivity.
  rewrite (Type_Elem_some ft _ He), bind_ret.
  change (String.eqb (type_String common_Address) "big.Int") with false.
  change (String.eqb (type_String common_Address) "common.Address") with true.
  cbv iota.
  unfold assert_string, assert_type, assert_ok, from_option, str.
  rewrite type_eqb_refl, !bind_ret.
  unfold alloc at 1.
  rewrite (bind_run _ _ h (h ++ [HexToAddress s]) (Ptr (length h) [])) by reflexivity.
  rewrite (bind_run _ _ _ (b ++ [HexToAddress s]) tt); [reflexivity|].
  apply Value_Set_store; [apply directlyAssignable_ptr; done | apply store_app, Hb].
Qed.

(** The field [Owner *common.Address] of a holder. *)
Lemma address_pointer_field_witness :
  let h := [VStruct [VPtr None; VPtr None]] in
  ∃ b,
    store h (field_ptr (Ptr 0 []) 1) (VPtr (Some (Ptr (length h) []))) = Some b
    ∧ structField (parseStruct 0) (parseSlice 0) (parsePointer 0)
        [lst []; str "0x01"] (Lval Holder_t (Ptr 0 []) false) 1 h
      = (b ++ [HexToAddress "0x01"], Ret None).
Proof.
  exact (address_pointer_field (parseStruct 0) (parseSlice 0) (parsePointer 0)
           [lst []; str "0x01"] Holder_t (Ptr 0 []) 1 "Owner" (PtrTo common_Address)
           "0x01" (VPtr None) [VStruct [VPtr None; VPtr None]]
           eq_refl eq_refl eq_refl eq_refl eq_refl eq_refl eq_refl).
Defined.




(** ** Slices of pointers to structs *)

(** [parsePointer] on a new pointer to a struct: the struct is bound. *)
Lemma parsePointer_new_struct
    (m : nat) (l : list any) (S' : type) (np : ptr) (y : val) (h : heap) :
  type_Kind S' = KStruct →
  binds_to np y (parseStruct m l (Some (PtrTo S', VPtr (Some np)))) h →
  binds_to np y (parsePointer (S m) l (Direct (PtrTo S') (VPtr (Some np)) false)) h.
Proof.
  intros Hs (b & ext & Hb & Hr). exists b, ext. split; [exact Hb|].
  rewrite parsePointer_S. unfold parsePointer_body.
  rewrite decide_True by reflexivity.
  unfold Value_Type at 1. rewrite bind_ret.
  rewrite (Type_Elem_some (PtrTo S') S') by reflexivity. rewrite bind_ret.
  rewrite Value_IsNil_direct by reflexivity. rewrite bind_ret.
  rewrite bool_decide_eq_false_2 by discriminate. rewrite bind_ret.
  rewrite Hs.
  unfold Value_Interface, Value_ro, Value_get, Value_Type, Value_Kind.
  rewrite !bind_ret. simpl type_Kind. cbv iota. rewrite bind_ret.
  rewrite (bind_run _ _ _ _ None Hr). reflexivity.
Qed.

Section pointer_elements.
Variable pStruct : list any → any → M (option error).
Variable pSlice : list any → any → M (option error).
Variable pPointer : list any → Value → M (option error).

Variables (rt E S' : type) (p : ptr).
Hypothesis rt_slice : type_Kind rt = KSlice.
Hypothesis rt_elem : type_Elem rt = Some E.
Hypothesis E_ptr : type_Kind E = KPtr.
Hypothesis E_elem : type_Elem E = Some S'.
Hypothesis S_plain : ¬ special_leaf S'.

(** The turn of the loop of [parseSlice] for an element that is a
    pointer: a new variable is bound and its address appended. *)
Lemma pointer_elem_step (d : any) (l : list any) (y : val) (cur : list val) (h : heap) :
  node_list d = Some l →
  (∀ np h1, load h1 np = Some (zero S') →
     binds_to np y (pPointer l (Direct (PtrTo S') (VPtr (Some np)) false)) h1) →
  load h p = Some (VSlice cur) →
  ∃ b e1,
    store h p (VSlice (cur ++ [VPtr (Some (Ptr (length h) []))])) = Some b
    ∧ sliceElem pStruct pSlice pPointer (Lval rt p false) rt E d h
      = ((b ++ [y]) ++ e1, Ret None).
Proof.
  intros Hd Hbind Hl.
  destruct (store_is_Some h p (VSlice (cur ++ [VPtr (Some (Ptr (length h) []))])))
    as [b Hb]; [eauto|].
  destruct (Hbind (Ptr (length h) []) (h ++ [zero S']) (load_fresh_cell h _))
    as (b1 & e1 & Hb1 & Hr1).
  rewrite store_fresh_cell in Hb1. injection Hb1 as <-.
  exists b, e1. split; [exact Hb|].
  unfold sliceElem.
  rewrite is_plain_pointer_plain, bind_ret, (plain_pointer_true E S') by done.
  rewrite (Type_Elem_some E S' E_elem), bind_ret.
  rewrite (bind_run _ _ h _ _ (reflect_New_run S' h)).
  rewrite (assert_anys_node_list d l Hd), bind_ret.
  rewrite (bind_run _ _ _ _ None Hr1).
  rewrite (bind_run _ _ ((h ++ [y]) ++ e1) ((h ++ [y]) ++ e1)
             (Direct rt (VSlice (cur ++ [VPtr (Some (Ptr (length h) []))])) false)).
  - rewrite (bind_run _ _ _ ((b ++ [y]) ++ e1) tt); [reflexivity|].
    apply Value_Set_store; [apply directlyAssignable_refl|].
    apply store_app, store_app, Hb.
  - rewrite (reflect_Append_lval rt E (PtrTo S') p _ cur)
      by (try done; apply load_app, load_app, Hl).
    rewrite assignTo_direct by (apply directlyAssignable_ptr; done).
    rewrite bind_ret. reflexivity.
Qed.

(** The loop of [parseSlice] over nodes each of which binds a new
    variable. *)
Lemma pointer_loop (l : list any) (ys : list val) :
  Forall2 (fun d y =>
             ∃ l', node_list d = Some l'
                   ∧ ∀ np h1, load h1 np = Some (zero S') →
                       binds_to np y
                         (pPointer l' (Direct (PtrTo S') (VPtr (Some np)) false)) h1)
    l ys →
  ∀ cur h, load h p = Some (VSlice cur) →
    ∃ ps b ext,
      store h p (VSlice (cur ++ map (fun r => VPtr (Some r)) ps)) = Some b
      ∧ for_each (sliceElem pStruct pSlice pPointer (Lval rt p false) rt E) l h
        = (b ++ ext, Ret None)
      ∧ Forall2 (fun r y => load (b ++ ext) r = Some y) ps ys
      ∧ Forall (fun r => length h ≤ ploc r) ps.
Proof.
  intros HF. induction HF as [|d y l ys (l' & Hd & Hy) HF IH]; intros cur h Hl.
  - exists [], h, []. simpl. rewrite !app_nil_r.
    split; [apply store_load, Hl|]. split; [reflexivity|]. split; constructor.
  - destruct (pointer_elem_step d l' y cur h Hd Hy Hl) as (b1 & e1 & Hb1 & Hr1).
    pose proof (store_length _ _ _ _ Hb1) as Hlen1.
    pose proof (load_valid _ _ _ Hl) as Hp.
    destruct (IH (cur ++ [VPtr (Some (Ptr (length h) []))]) ((b1 ++ [y]) ++ e1))
      as (ps & b2 & ext2 & Hb2 & Hr2 & Hloads & Hfresh).
    { apply load_app, load_app. eapply load_store; eauto. }
    apply store_app_inv in Hb2 as (b3 & Hb3 & ->);
      [|rewrite length_app; lia].
    apply store_app_inv in Hb3 as (b & Hb & ->); [|lia].
    rewrite (store_twice _ _ _ _ _ Hb1) in Hb.
    pose proof (store_length _ _ _ _ Hb) as Hlen.
    exists (Ptr (length h) [] :: ps), b, ([y] ++ e1 ++ ext2).
    split; [|split; [|split]].
    + rewrite <- app_assoc in Hb. exact Hb.
    + rewrite for_each_cons, (bind_run _ _ h _ None Hr1), Hr2.
      rewrite <- !app_assoc. reflexivity.
    + constructor.
      * replace (b ++ [y] ++ e1 ++ ext2) with ((b ++ [y]) ++ e1 ++ ext2)
          by (rewrite <- app_assoc; reflexivity).
        apply load_app. rewrite <- Hlen. apply load_fresh_cell.
      * replace (b ++ [y] ++ e1 ++ ext2) with (((b ++ [y]) ++ e1) ++ ext2)
          by (rewrite <- !app_assoc; reflexivity).
        exact Hloads.
    + constructor; [simpl; lia|].
      eapply Forall_impl; [exact Hfresh|]. intros r Hr. simpl in Hr.
      rewrite !length_app in Hr. lia.
Qed.
End pointer_elements.

(** X18: [parseSlice] on a slice of pointers to structs.  For every
    node, a node list, a new struct is allocated and bound as [Parse]
    binds a struct, and its address is appended: after a call that is
    given nodes of the shape of the struct, the slice holds what it held
    followed by one pointer per node, in order, each to a variable that
    did not exist before and that holds the struct bound from its
    node. *)
Theorem parseSlice_binds_struct_pointers
    (n m : nat) (decoded : list any) (pt rt E S' : type) (p : ptr)
    (old ys : list val) (h : heap) :
  type_Kind pt = KPtr → type_Elem pt = Some rt →
  type_Kind rt = KSlice → type_Elem rt = Some E →
  type_Kind E = KPtr → type_Elem E = Some S' →
  type_Kind S' = KStruct → ¬ special_leaf S' →
  load h p = Some (VSlice old) →
  mapM (bound n S' (zero S')) decoded = Some ys → n ≤ m →
  ∃ ps h',
    parseSlice (S (S m)) decoded (Some (pt, VPtr (Some p))) h = (h', Ret None)
    ∧ load h' p = Some (VSlice (old ++ map (fun r => VPtr (Some r)) ps))
    ∧ Forall2 (fun r y => load h' r = Some y) ps ys
    ∧ Forall (fun r => length h ≤ ploc r) ps.
Proof.
  intros Hp He Hs HE Hk HS' HS Hsp Hl Hys Hm.
  rewrite (parseSlice_head (S m) decoded pt rt E p) by done.
  apply mapM_Some in Hys.
  destruct (pointer_loop (parseStruct (S m)) (parseSlice (S m)) (parsePointer (S m))
              rt E S' p Hs HE Hk HS' Hsp decoded ys) with (cur := old) (h := h)
    as (ps & b & ext & Hb & Hr & Hloads & Hfresh); [|exact Hl|].
  - eapply Forall2_impl; [exact Hys|]. intros d y Hy. simpl in Hy.
    destruct (bound_struct_node_list n S' _ d y HS Hy) as [l' Hd].
    exists l'. split; [exact Hd|]. intros np h1 Hl1.
    apply parsePointer_new_struct; [exact HS|].
    eapply (proj2 (bound_sound n) S' (zero S') d l' y); eauto.
  - exists ps, (b ++ ext). split; [exact Hr|]. split; [|split; assumption].
    apply load_app. eapply load_store; eauto.
Qed.

(** Two pairs bound to an empty slice of [*Pair]. *)
Lemma parseSlice_binds_struct_pointers_witness :
  let h := [VSlice []] in
  let decoded := [lst [u64 1; u64 2]; lst [u64 3; u64 4]] in
  ∃ ps h',
    parseSlice 4 decoded (ref (SliceOf (PtrTo Pair_t)) (Ptr 0 [])) h = (h', Ret None)
    ∧ load h' (Ptr 0 []) = Some (VSlice ([] ++ map (fun r => VPtr (Some r)) ps))
    ∧ Forall2 (fun r y => load h' r = Some y) ps
        [VStruct [VInt 1; VInt 2]; VStruct [VInt 3; VInt 4]]
    ∧ Forall (fun r => length h ≤ ploc r) ps.
Proof.
  apply (parseSlice_binds_struct_pointers 2 2 [lst [u64 1; u64 2]; lst [u64 3; u64 4]]
           (PtrTo (SliceOf (PtrTo Pair_t))) (SliceOf (PtrTo Pair_t)) (PtrTo Pair_t) Pair_t
           (Ptr 0 []) [] [VStruct [VInt 1; VInt 2]; VStruct [VInt 3; VInt 4]] [VSlice []]);
    try reflexivity; try lia.
  intros [H | H]; vm_compute in H; discriminate.
Defined.

(** ** The count check *)





(** ** The error of one field *)











Section field_failure.
Variable pStruct : list any → any → M (option error).
Variable pSlice : list any → any → M (option error).
Variable pPointer : list any → Value → M (option error).

Variables (ft : type) (fp : ptr) (ro : bool) (di : any).





End field_failure.

Section field_fails.
Variable pStruct : list any → any → M (option error).
Variable pSlice : list any → any → M (option error).
Variable pPointer : list any → Value → M (option error).

End field_fails.


